(** * Silnik2D: the rasterisation and region-fill core of [src/main.cpp]

    A shallow embedding of [PrimitiveRenderer] (line, circle and polygon
    rasterisers, boundary fill and flood fill) and the properties its
    specification states about it.

    - [int] values are integers of [Z] with the 32-bit wrap-around written
      out ([int_add], [int_sub]);
    - [float] values are IEEE-754 binary32 numbers, as the standard library's
      [spec_float] at precision 24 and maximal exponent 128;
    - [sf::Image] is a width, a height and a row-major pixel buffer;
    - a call that would read or write outside the buffer, or convert a
      non-representable float to [int], is undefined behaviour in C++ and
      is reported as [Fault]. *)

From Stdlib Require Import ZArith Lia Bool List SpecFloat.
From stdpp Require Import base tactics option list.

Local Open Scope Z_scope.

(** ** Machine integers *)

Definition INT_MIN : Z := - 2 ^ 31.
Definition INT_MAX : Z := 2 ^ 31 - 1.
Definition UINT_MAX : Z := 2 ^ 32 - 1.

(** Two's complement reduction of an integer to the range of [int]. *)
Definition wrap_int (z : Z) : Z := (z + 2 ^ 31) mod 2 ^ 32 - 2 ^ 31.

Definition int_add (a b : Z) : Z := wrap_int (a + b).
Definition int_sub (a b : Z) : Z := wrap_int (a - b).

(** Reduction to the range of [unsigned int]. *)
Definition wrap_uint (z : Z) : Z := z mod 2 ^ 32.

(** ** Outcome of a call *)

Inductive outcome (A : Type) : Type :=
| Done (a : A)      (* the call returned *)
| Fault             (* undefined behaviour was reached *)
| OutOfFuel.        (* the loop was still running when the fuel ran out *)

Arguments Done {A} a.
Arguments Fault {A}.
Arguments OutOfFuel {A}.

(** ** Colours *)

(** Modelled from the spec: [sf::Color] belongs to SFML and is not part of
    the source; an RGBA value whose equality is exact component
    comparison. *)
Record Color : Type := mkColor { col_r : Z; col_g : Z; col_b : Z; col_a : Z }.

(** [operator==] of [sf::Color]. *)
Definition Color_eqb (c1 c2 : Color) : bool :=
  (col_r c1 =? col_r c2) && (col_g c1 =? col_g c2) &&
  (col_b c1 =? col_b c2) && (col_a c1 =? col_a c2).

#[global] Instance Color_eq_dec : EqDecision Color.
Proof. solve_decision. Defined.

(** ** Region fill engine *)

Module Fill.

(** [sf::Vector2i]. *)
Definition Vector2i : Type := (Z * Z)%type.

(** Modelled from the spec: [sf::Image] belongs to SFML and is not part of
    the source; a 2D array of [Color] indexed by non-negative integer
    [(x, y)], with a fixed width and height.  Here: its size and its pixels,
    row after row. *)
Record Image : Type := mkImage {
  size_x : Z;
  size_y : Z;
  pixels : list Color
}.

(** An image as [sf::Image::create] builds it: one buffer entry per pixel,
    and dimensions that fit an [int] (the buffer is addressed with 32-bit
    offsets). *)
Definition wf_image (img : Image) : Prop :=
  0 <= size_x img <= INT_MAX /\ 0 <= size_y img <= INT_MAX /\
  length (pixels img) = Z.to_nat (size_x img * size_y img).

(** Position of pixel [(x, y)] in the buffer. *)
Definition offset (img : Image) (x y : Z) : nat :=
  Z.to_nat (x + y * size_x img).

(** [sf::Image::getPixel]: a read of the buffer without a bounds check of
    its own; [None] stands for a read outside the buffer. *)
Definition getPixel (img : Image) (x y : Z) : option Color :=
  pixels img !! offset img x y.

(** [sf::Image::setPixel]: a write to the buffer without a bounds check of
    its own; [None] stands for a write outside the buffer. *)
Definition setPixel (img : Image) (x y : Z) (c : Color) : option Image :=
  if (offset img x y <? length (pixels img))%nat
  then Some {| size_x := size_x img; size_y := size_y img;
               pixels := <[offset img x y := c]> (pixels img) |}
  else None.

(** The test [p.x < 0 || p.y < 0 || (unsigned)p.x >= size.x ||
    (unsigned)p.y >= size.y]; the casts are reached with a non-negative
    operand only, where they change nothing. *)
Definition out_of_bounds (img : Image) (p : Vector2i) : bool :=
  (p.1 <? 0) || (p.2 <? 0) || (size_x img <=? p.1) || (size_y img <=? p.2).

(** The four entries pushed after a pixel is recoloured, in push order. *)
Definition pushed (p : Vector2i) : list Vector2i :=
  [ (int_add p.1 1, p.2); (int_sub p.1 1, p.2);
    (p.1, int_add p.2 1); (p.1, int_sub p.2 1) ].

(** The [while (!q.empty())] loop of [boundaryFill]; [fuel] bounds the
    number of entries popped. *)
Fixpoint boundaryFill_loop (fuel : nat) (img : Image)
    (fillColor boundaryColor : Color) (q : list Vector2i) : outcome Image :=
  match q with
  | [] => Done img
  | p :: q' =>
    match fuel with
    | O => OutOfFuel
    | S fuel' =>
      if out_of_bounds img p
      then boundaryFill_loop fuel' img fillColor boundaryColor q'
      else
        match getPixel img p.1 p.2 with
        | None => Fault
        | Some c =>
          if Color_eqb c boundaryColor || Color_eqb c fillColor
          then boundaryFill_loop fuel' img fillColor boundaryColor q'
          else
            match setPixel img p.1 p.2 fillColor with
            | None => Fault
            | Some img' =>
              boundaryFill_loop fuel' img' fillColor boundaryColor
                (q' ++ pushed p)
            end
        end
    end
  end.

Definition boundaryFill (fuel : nat) (img : Image) (x y : Z)
    (fillColor boundaryColor : Color) : outcome Image :=
  if out_of_bounds img (x, y) then Done img
  else
    match getPixel img x y with
    | None => Fault
    | Some start =>
      if Color_eqb start boundaryColor || Color_eqb start fillColor
      then Done img
      else boundaryFill_loop fuel img fillColor boundaryColor [(x, y)]
    end.

(** The [while (!q.empty())] loop of [floodFill]. *)
Fixpoint floodFill_loop (fuel : nat) (img : Image)
    (fillColor backgroundColor : Color) (q : list Vector2i) : outcome Image :=
  match q with
  | [] => Done img
  | p :: q' =>
    match fuel with
    | O => OutOfFuel
    | S fuel' =>
      if out_of_bounds img p
      then floodFill_loop fuel' img fillColor backgroundColor q'
      else
        match getPixel img p.1 p.2 with
        | None => Fault
        | Some c =>
          if negb (Color_eqb c backgroundColor) || Color_eqb c fillColor
          then floodFill_loop fuel' img fillColor backgroundColor q'
          else
            match setPixel img p.1 p.2 fillColor with
            | None => Fault
            | Some img' =>
              floodFill_loop fuel' img' fillColor backgroundColor
                (q' ++ pushed p)
            end
        end
    end
  end.

Definition floodFill (fuel : nat) (img : Image) (x y : Z)
    (fillColor : Color) : outcome Image :=
  if out_of_bounds img (x, y) then Done img
  else
    match getPixel img x y with
    | None => Fault
    | Some backgroundColor =>
      if Color_eqb backgroundColor fillColor then Done img
      else floodFill_loop fuel img fillColor backgroundColor [(x, y)]
    end.

(** *** Both loops as one traversal

    The two loops differ in the test that skips a popped pixel only.
    [bfs_loop skip fillColor] is that loop for an arbitrary test; the proofs
    are carried out on it and transported by [boundaryFill_loop_bfs] and
    [floodFill_loop_bfs]. *)

Definition boundary_skip (fillColor boundaryColor : Color) (c : Color) : bool :=
  Color_eqb c boundaryColor || Color_eqb c fillColor.

Definition flood_skip (fillColor backgroundColor : Color) (c : Color) : bool :=
  negb (Color_eqb c backgroundColor) || Color_eqb c fillColor.

Fixpoint bfs_loop (skip : Color -> bool) (fillColor : Color)
    (fuel : nat) (img : Image) (q : list Vector2i) : outcome Image :=
  match q with
  | [] => Done img
  | p :: q' =>
    match fuel with
    | O => OutOfFuel
    | S fuel' =>
      if out_of_bounds img p then bfs_loop skip fillColor fuel' img q'
      else
        match getPixel img p.1 p.2 with
        | None => Fault
        | Some c =>
          if skip c then bfs_loop skip fillColor fuel' img q'
          else
            match setPixel img p.1 p.2 fillColor with
            | None => Fault
            | Some img' =>
              bfs_loop skip fillColor fuel' img' (q' ++ pushed p)
            end
        end
    end
  end.

(** Fuel that lets either fill of [img] run to completion: four pops per
    pixel and one for the seed. *)
Definition enough_fuel (img : Image) : nat :=
  4 * length (pixels img) + 1.

(** *** Vocabulary of the specification *)

(** The colour of the pixel at [p]. *)
Definition pixel_at (img : Image) (p : Vector2i) : option Color :=
  getPixel img p.1 p.2.

(** [p] is a pixel of the grid. *)
Definition in_grid (img : Image) (p : Vector2i) : Prop :=
  0 <= p.1 < size_x img /\ 0 <= p.2 < size_y img.

(** Up, down, left, right: no diagonal. *)
Definition neighbours (p : Vector2i) : list Vector2i :=
  [ (p.1 + 1, p.2); (p.1 - 1, p.2); (p.1, p.2 + 1); (p.1, p.2 - 1) ].

(** [connected ok s t]: a 4-connected path from [s] to [t] all of whose
    pixels, both ends included, satisfy [ok]. *)
Inductive connected (ok : Vector2i -> Prop) : Vector2i -> Vector2i -> Prop :=
| connected_here p : ok p -> connected ok p p
| connected_step p n t :
    ok p -> In n (neighbours p) -> connected ok n t -> connected ok p t.

(** The pixels a traversal may recolour: in the grid, with a colour the
    test does not skip. *)
Definition fillable (skip : Color -> bool) (img : Image) (p : Vector2i) : Prop :=
  in_grid img p /\ exists c, pixel_at img p = Some c /\ skip c = false.

(** Pixels of the grid whose colour is [c]. *)
Definition has_color (img : Image) (c : Color) (p : Vector2i) : Prop :=
  in_grid img p /\ pixel_at img p = Some c.

(** A rectangle frame with corners [(x1, y1)] and [(x2, y2)]. *)
Record Frame : Type := mkFrame { left : Z; top : Z; right : Z; bottom : Z }.

Definition on_frame (f : Frame) (p : Vector2i) : Prop :=
  left f <= p.1 <= right f /\ top f <= p.2 <= bottom f /\
  (p.1 = left f \/ p.1 = right f \/ p.2 = top f \/ p.2 = bottom f).

Definition inside_frame (f : Frame) (p : Vector2i) : Prop :=
  left f < p.1 < right f /\ top f < p.2 < bottom f.

Definition outside_frame (f : Frame) (p : Vector2i) : Prop :=
  p.1 < left f \/ right f < p.1 \/ p.2 < top f \/ bottom f < p.2.

(** The frame lies in the grid and every pixel on it has colour [c]:
    a closed frame, without a gap. *)
Definition closed_frame (img : Image) (f : Frame) (c : Color) : Prop :=
  0 <= left f /\ right f < size_x img /\ 0 <= top f /\ bottom f < size_y img /\
  forall p, on_frame f p -> pixel_at img p = Some c.

(** The frame that runs along the edge of the grid. *)
Definition border (img : Image) : Frame :=
  {| left := 0; top := 0; right := size_x img - 1; bottom := size_y img - 1 |}.

(** Pixels that a boundary fill may recolour: in the grid, with neither
    the boundary colour nor the fill colour. *)
Definition open_pixel (img : Image) (fillColor boundaryColor : Color)
    (p : Vector2i) : Prop :=
  in_grid img p /\
  exists c, pixel_at img p = Some c /\ c <> boundaryColor /\ c <> fillColor.

(** The four corners of a frame. *)
Definition corner (f : Frame) (p : Vector2i) : Prop :=
  (p.1 = left f \/ p.1 = right f) /\ (p.2 = top f \/ p.2 = bottom f).

(** Remaining work of a traversal: pixels whose colour is not skipped. *)
Fixpoint count_if (f : Color -> bool) (l : list Color) : nat :=
  match l with
  | [] => 0
  | c :: l' => (if f c then 1 else 0) + count_if f l'
  end.

Definition remaining (skip : Color -> bool) (img : Image) : nat :=
  count_if (fun c => negb (skip c)) (pixels img).

(** The loop as a relation between the image and queue at the loop head
    and the image at exit. *)
Inductive bfs_run (skip : Color -> bool) (fillColor : Color) :
    Image -> list Vector2i -> Image -> Prop :=
| run_empty img : bfs_run skip fillColor img [] img
| run_outside img p q img' :
    out_of_bounds img p = true ->
    bfs_run skip fillColor img q img' ->
    bfs_run skip fillColor img (p :: q) img'
| run_skip img p q c img' :
    out_of_bounds img p = false ->
    pixel_at img p = Some c -> skip c = true ->
    bfs_run skip fillColor img q img' ->
    bfs_run skip fillColor img (p :: q) img'
| run_fill img p q c img1 img' :
    out_of_bounds img p = false ->
    pixel_at img p = Some c -> skip c = false ->
    setPixel img p.1 p.2 fillColor = Some img1 ->
    bfs_run skip fillColor img1 (q ++ pushed p) img' ->
    bfs_run skip fillColor img (p :: q) img'.

End Fill.

(** ** Single-precision floats

    [float] is IEEE-754 binary32: [spec_float] with a 24-bit significand and
    exponents below 128, every operation rounded to nearest, ties to
    even. *)

Definition float : Type := spec_float.

Definition prec : Z := 24.
Definition emax : Z := 128.

Definition fadd : float -> float -> float := SFadd prec emax.
Definition fsub : float -> float -> float := SFsub prec emax.
Definition fmul : float -> float -> float := SFmul prec emax.
Definition fdiv : float -> float -> float := SFdiv prec emax.
Definition fabs : float -> float := SFabs.

(** [x == y], [x < y] and [x > y]. *)
Definition feqb (x y : float) : bool := SFeqb x y.
Definition fltb (x y : float) : bool := SFltb x y.
Definition fgtb (x y : float) : bool := SFltb y x.

(** Conversion of an integer to [float]. *)
Definition float_of_Z (z : Z) : float := binary_normalize prec emax z 0 false.

(** The smallest exponent of the format. *)
Definition emin32 : Z := emin prec emax.

(** The constant [0.f], also what the [int] constant [0] converts to. *)
Definition fzero : float := S754_zero false.

(** A number of the format: neither an infinity nor a NaN. *)
Definition finite (f : float) : Prop :=
  valid_binary prec emax f = true /\
  match f with S754_zero _ | S754_finite _ _ _ => True | _ => False end.

(** The integer nearest to [m * 2 ^ e], halves rounded up. *)
Definition round_half_up (m : positive) (e : Z) : Z :=
  if 0 <=? e then Z.pos m * 2 ^ e
  else (2 * Z.pos m + 2 ^ (- e)) / 2 ^ (1 - e).

(** [std::round]: the nearest integer, halves away from zero; [None] for
    an infinity or a NaN, which [std::round] returns unchanged. *)
Definition round_away (f : float) : option Z :=
  match f with
  | S754_zero _ => Some 0
  | S754_finite s m e => Some (cond_Zopp s (round_half_up m e))
  | _ => None
  end.

(** A small error monad for calls that may reach undefined behaviour. *)
Definition bind {A B : Type} (m : outcome A) (k : A -> outcome B) : outcome B :=
  match m with
  | Done a => k a
  | Fault => Fault
  | OutOfFuel => OutOfFuel
  end.

Notation "x <- m ;; k" := (bind m (fun x => k))
  (at level 100, m at next level, right associativity).

(** [(int)std::round(f)].  [std::round] of a [float] is an exact integer
    of the format, which the conversion to [int] leaves unchanged when it is
    in range; outside the range of [int], and for an infinity or a NaN, the
    conversion is undefined. *)
Definition iround (f : float) : outcome Z :=
  match round_away f with
  | Some z => if (INT_MIN <=? z) && (z <=? INT_MAX) then Done z else Fault
  | None => Fault
  end.

(** [x >= y]. *)
Definition fgeb (x y : float) : bool := SFleb y x.

(** *** Exact values *)

(** The number a float holds, in units of 2^-149, the smallest positive
    number of the format: every number of the format is a whole multiple of
    it.  [None] for an infinity or a NaN. *)
Definition scaled (f : float) : option Z :=
  match f with
  | S754_zero _ => Some 0
  | S754_finite s m e => Some (cond_Zopp s (Z.pos m) * 2 ^ (e + 149))
  | _ => None
  end.

(** The integer that a float holds, if it holds one. *)
Definition integer_value (f : float) : option Z :=
  match scaled f with
  | Some n => if n mod 2 ^ 149 =? 0 then Some (n / 2 ^ 149) else None
  | None => None
  end.

(** The significand of the float that holds the positive integer [v],
    below 2^24: [v] shifted to 24 digits. *)
Definition integer_significand (v : positive) : positive :=
  Z.to_pos (Z.pos v * 2 ^ (24 - Z.pos (digits2_pos v))).

(** [f] holds the integer [z], of magnitude below 2^24; the sign of a zero
    is free. *)
Definition holds (f : float) (z : Z) : Prop :=
  match z with
  | 0 => exists s, f = S754_zero s
  | Z.pos v => f = S754_finite false (integer_significand v) (Z.pos (digits2_pos v) - 24)
  | Z.neg v => f = S754_finite true (integer_significand v) (Z.pos (digits2_pos v) - 24)
  end.

(** ** Rasterisers *)

Module Raster.

(** [sf::Vector2f]. *)
Record Vector2f : Type := mkVector2f { v_x : float; v_y : float }.

(** A call of [putPixel], recorded by its arguments: the [int]
    coordinates and the colour.  What the call draws on the render target is
    [drawn_vertex]. *)
Definition Plot : Type := (Z * Z * Color)%type.

Definition putPixel (x y : Z) (color : Color) : Plot := (x, y, color).

(** [sf::Vertex]: a position and a colour. *)
Record Vertex : Type := mkVertex { vertex_position : Vector2f; vertex_color : Color }.

(** The body of [putPixel]: the vertex that the call sends to the render
    target, at the two [int] coordinates converted to [float].  The
    conversion rounds: it is exact up to 2^24 in magnitude, and beyond that
    calls with different coordinates may draw the same vertex. *)
Definition drawn_vertex (p : Plot) : Vertex :=
  mkVertex (mkVector2f (float_of_Z p.1.1) (float_of_Z p.1.2)) p.2.

(** [std::swap] under a condition. *)
Definition swap_if {A : Type} (c : bool) (p : A * A) : A * A :=
  if c then (p.2, p.1) else p.

(** The [for] loop of [drawLineIncremental]: [n] iterations from column
    [x], the secondary coordinate starting at [y] and growing by [m].  [x]
    stays at most [(int)std::round(x1)], which is below [INT_MAX] for every
    float: [++x] does not overflow. *)
Fixpoint line_loop (n : nat) (steep : bool) (x : Z) (y m : float)
    (color : Color) : outcome (list Plot) :=
  match n with
  | O => Done []
  | S n' =>
    ry <- iround y ;;
    let px := if steep then ry else x in
    let py := if steep then x else ry in
    rest <- line_loop n' steep (x + 1) (fadd y m) m color ;;
    Done (putPixel px py color :: rest)
  end.

Definition drawLineIncremental (a b : Vector2f) (color : Color) :
    outcome (list Plot) :=
  let x0 := v_x a in
  let y0 := v_y a in
  let x1 := v_x b in
  let y1 := v_y b in
  let dx := fsub x1 x0 in
  let dy := fsub y1 y0 in
  if feqb dx fzero && feqb dy fzero then
    px <- iround x0 ;;
    py <- iround y0 ;;
    Done [putPixel px py color]
  else
    let steep := fgtb (fabs dy) (fabs dx) in
    let '(x0, y0) := swap_if steep (x0, y0) in
    let '(x1, y1) := swap_if steep (x1, y1) in
    let '(dx, dy) := swap_if steep (dx, dy) in
    let flip := fgtb x0 x1 in
    let '(x0, x1) := swap_if flip (x0, x1) in
    let '(y0, y1) := swap_if flip (y0, y1) in
    let dx := if flip then fsub x1 x0 else dx in
    let dy := if flip then fsub y1 y0 else dy in
    let m := if feqb dx fzero then fzero else fdiv dy dx in
    lo <- iround x0 ;;
    hi <- iround x1 ;;
    line_loop (Z.to_nat (hi - lo + 1)) steep lo y0 m color.

(** The literal [3.14159265359f]: the nearest float, 0x40490FDB. *)
Definition pi : float := S754_finite false 13176795 (-22).

Definition four : float := float_of_Z 4.

(** The eight points drawn for one sample [(x, y)] of the circle. *)
Definition circle_points (x0 y0 x y : float) (color : Color) :
    outcome (list Plot) :=
  px0 <- iround (fadd x0 x) ;; px1 <- iround (fadd x0 y) ;;
  px2 <- iround (fsub x0 x) ;; px3 <- iround (fsub x0 y) ;;
  px4 <- iround (fsub x0 x) ;; px5 <- iround (fsub x0 y) ;;
  px6 <- iround (fadd x0 x) ;; px7 <- iround (fadd x0 y) ;;
  py0 <- iround (fadd y0 y) ;; py1 <- iround (fadd y0 x) ;;
  py2 <- iround (fadd y0 y) ;; py3 <- iround (fadd y0 x) ;;
  py4 <- iround (fsub y0 y) ;; py5 <- iround (fsub y0 x) ;;
  py6 <- iround (fsub y0 y) ;; py7 <- iround (fsub y0 x) ;;
  Done [ putPixel px0 py0 color; putPixel px1 py1 color;
         putPixel px2 py2 color; putPixel px3 py3 color;
         putPixel px4 py4 color; putPixel px5 py5 color;
         putPixel px6 py6 color; putPixel px7 py7 color ].

Section Circle.

(** [std::cos] and [std::sin] on [float], from the C library. *)
Variable cosf sinf : float -> float.

(** The sample taken at step [i] of [localSteps]. *)
Definition circle_sample (R : float) (localSteps i : Z) : float * float :=
  let alpha := fdiv (fmul (fdiv pi four) (float_of_Z i)) (float_of_Z localSteps) in
  (fmul R (cosf alpha), fmul R (sinf alpha)).

(** The loop [for (unsigned int i = 0; i <= localSteps; ++i)] from [i] on;
    [fuel] bounds the number of iterations. *)
Fixpoint circle_loop (fuel : nat) (x0 y0 R : float) (color : Color)
    (localSteps i : Z) : outcome (list Plot) :=
  if i <=? localSteps then
    match fuel with
    | O => OutOfFuel
    | S fuel' =>
      let '(x, y) := circle_sample R localSteps i in
      pts <- circle_points x0 y0 x y color ;;
      rest <- circle_loop fuel' x0 y0 R color localSteps (wrap_uint (i + 1)) ;;
      Done (pts ++ rest)
    end
  else Done [].

Definition drawCircle (fuel : nat) (center : Vector2f) (R : float)
    (color : Color) (steps : Z) : outcome (list Plot) :=
  circle_loop fuel (v_x center) (v_y center) R color steps 0.

End Circle.

Definition cross (a b c : Vector2f) : float :=
  fsub (fmul (fsub (v_x b) (v_x a)) (fsub (v_y c) (v_y a)))
       (fmul (fsub (v_y b) (v_y a)) (fsub (v_x c) (v_x a))).

Definition segmentsIntersect (a1 a2 b1 b2 : Vector2f) : bool :=
  let d1 := cross a1 a2 b1 in
  let d2 := cross a1 a2 b2 in
  let d3 := cross b1 b2 a1 in
  let d4 := cross b1 b2 a2 in
  ((fgtb d1 fzero && fltb d2 fzero) || (fltb d1 fzero && fgtb d2 fzero)) &&
  ((fgtb d3 fzero && fltb d4 fzero) || (fltb d3 fzero && fgtb d4 fzero)).

(** [pts[i]]; every index used below is less than [pts.size()]. *)
Definition at_index (pts : list Vector2f) (i : nat) : Vector2f :=
  nth i pts (mkVector2f fzero fzero).

(** The inner loop of the validation, [count] iterations from [j] on:
    [true] when it reaches [return false]. *)
Fixpoint crossing_from (pts : list Vector2f) (n i : nat) (a1 a2 : Vector2f)
    (count j : nat) : bool :=
  match count with
  | O => false
  | S count' =>
    if (j =? i)%nat then crossing_from pts n i a1 a2 count' (S j)
    else if (((j + 1) mod n =? i) || ((i + 1) mod n =? j))%nat
    then crossing_from pts n i a1 a2 count' (S j)
    else if segmentsIntersect a1 a2 (at_index pts j) (at_index pts ((j + 1) mod n))
    then true
    else crossing_from pts n i a1 a2 count' (S j)
  end.

(** The outer loop of the validation, [count] iterations from [i] on. *)
Fixpoint crossing_edges (pts : list Vector2f) (n count i : nat) : bool :=
  match count with
  | O => false
  | S count' =>
    if crossing_from pts n i (at_index pts i) (at_index pts ((i + 1) mod n))
         (n - (i + 1)) (i + 1)
    then true
    else crossing_edges pts n count' (S i)
  end.

(** The drawing loop, [count] iterations from [i] on. *)
Fixpoint draw_edges (pts : list Vector2f) (n count i : nat) (color : Color) :
    outcome (list Plot) :=
  match count with
  | O => Done []
  | S count' =>
    edge <- drawLineIncremental (at_index pts i) (at_index pts ((i + 1) mod n)) color ;;
    rest <- draw_edges pts n count' (S i) color ;;
    Done (edge ++ rest)
  end.

(** [drawPolygon]: the value returned and the points drawn. *)
Definition drawPolygon (pts : list Vector2f) (color : Color) :
    outcome (bool * list Plot) :=
  if (length pts <? 3)%nat then Done (false, [])
  else
    let n := length pts in
    if crossing_edges pts n n 0 then Done (false, [])
    else
      drawn <- draw_edges pts n n 0 color ;;
      Done (true, drawn).

(** *** Vocabulary of the specification *)

(** A position: both coordinates are numbers. *)
Definition position (a : Vector2f) : Prop := finite (v_x a) /\ finite (v_y a).

(** Both coordinates are values of the format (possibly an infinity or a
    NaN): what the type [float] holds. *)
Definition valid_position (a : Vector2f) : Prop :=
  valid_binary prec emax (v_x a) = true /\ valid_binary prec emax (v_y a) = true.

(** The test [dx == 0 && dy == 0] that [drawLineIncremental] starts
    with. *)
Definition same_point (a b : Vector2f) : bool :=
  feqb (fsub (v_x b) (v_x a)) fzero && feqb (fsub (v_y b) (v_y a)) fzero.

(** Whether the line from [a] to [b] is walked along the y axis. *)
Definition steep_line (a b : Vector2f) : bool :=
  fgtb (fabs (fsub (v_y b) (v_y a))) (fabs (fsub (v_x b) (v_x a))).

(** The coordinate of a position, and of a plotted point, on the walked
    axis. *)
Definition walked (steep : bool) (v : Vector2f) : float :=
  if steep then v_y v else v_x v.

Definition plot_walked (steep : bool) (p : Plot) : Z :=
  if steep then p.1.2 else p.1.1.

(** The coordinate of a position on the other axis. *)
Definition secondary (steep : bool) (v : Vector2f) : float :=
  if steep then v_x v else v_y v.

(** The endpoint with the smaller coordinate on the walked axis ([a] when
    they are equal), and the other one. *)
Definition walk_start (a b : Vector2f) : Vector2f :=
  if fgtb (walked (steep_line a b) a) (walked (steep_line a b) b) then b else a.

Definition walk_end (a b : Vector2f) : Vector2f :=
  if fgtb (walked (steep_line a b) a) (walked (steep_line a b) b) then a else b.

(** The point of colour [color] at the pixel a position rounds to. *)
Definition round_point (v : Vector2f) (color : Color) : outcome Plot :=
  px <- iround (v_x v) ;; py <- iround (v_y v) ;; Done (putPixel px py color).

(** The eight points [(x0 +- x, y0 +- y)] and [(x0 +- y, y0 +- x)], before
    rounding. *)
Definition reflections (x0 y0 x y : float) : list Vector2f :=
  [ mkVector2f (fadd x0 x) (fadd y0 y); mkVector2f (fadd x0 y) (fadd y0 x);
    mkVector2f (fsub x0 x) (fadd y0 y); mkVector2f (fsub x0 y) (fadd y0 x);
    mkVector2f (fsub x0 x) (fsub y0 y); mkVector2f (fsub x0 y) (fsub y0 x);
    mkVector2f (fadd x0 x) (fsub y0 y); mkVector2f (fadd x0 y) (fsub y0 x) ].

(** The reflections of the sample taken at step [i]. *)
Definition sample_reflections (cosf sinf : float -> float) (center : Vector2f)
    (R : float) (steps i : Z) : list Vector2f :=
  let s := circle_sample cosf sinf R steps i in
  reflections (v_x center) (v_y center) s.1 s.2.

(** The mirror images of the pixel [p] about the integer centre
    [(cx, cy)]: its eight octant reflections. *)
Definition octant_images (cx cy : Z) (p : Z * Z) : list (Z * Z) :=
  let dx := p.1 - cx in
  let dy := p.2 - cy in
  [ (cx + dx, cy + dy); (cx - dx, cy + dy); (cx + dx, cy - dy); (cx - dx, cy - dy);
    (cx + dy, cy + dx); (cx - dy, cy + dx); (cx + dy, cy - dx); (cx - dy, cy - dx) ].

(** The test that [segmentsIntersect] makes on two cross products: as
    floats, [d] and [d'] have strictly opposite signs; a zero or a NaN is on
    neither side. *)
Definition opposite_signs (d d' : float) : Prop :=
  (fgtb d fzero = true /\ fltb d' fzero = true) \/
  (fltb d fzero = true /\ fgtb d' fzero = true).

(** The four tests of [segmentsIntersect] succeed: by the cross products
    as the code computes them, in [float], the endpoints of each segment lie
    strictly on opposite sides of the other. *)
Definition computed_crossing (a1 a2 b1 b2 : Vector2f) : Prop :=
  opposite_signs (cross a1 a2 b1) (cross a1 a2 b2) /\
  opposite_signs (cross b1 b2 a1) (cross b1 b2 a2).

(** Edge [i] of the closed loop [pts]: from vertex [i] to the next one,
    the last edge leading back to the first vertex. *)
Definition edge_start (pts : list Vector2f) (i : nat) : Vector2f := at_index pts i.

Definition edge_end (pts : list Vector2f) (i : nat) : Vector2f :=
  at_index pts ((i + 1) mod length pts).

(** Edges [i] and [j] of a loop of [n] vertices are the same edge or
    share a vertex. *)
Definition adjacent_edges (n i j : nat) : Prop :=
  i = j \/ ((i + 1) mod n)%nat = j \/ ((j + 1) mod n)%nat = i.

(** The tests succeed on two edges that are not adjacent. *)
Definition computed_self_intersecting (pts : list Vector2f) : Prop :=
  exists i j, (i < length pts)%nat /\ (j < length pts)%nat /\
    ~ adjacent_edges (length pts) i j /\
    computed_crossing (edge_start pts i) (edge_end pts i) (edge_start pts j) (edge_end pts j).

(** The two coordinates of a position, in units of 2^-149; [None] when
    one of them is not a number. *)
Definition exact_position (v : Vector2f) : option (Z * Z) :=
  match scaled (v_x v), scaled (v_y v) with
  | Some x, Some y => Some (x, y)
  | _, _ => None
  end.

(** The cross product [(b - a) x (c - a)] without rounding, in units of
    2^-298: positive when [c] is to the left of the line from [a] to [b],
    negative when it is to the right, zero when it is on the line. *)
Definition exact_cross (a b c : Vector2f) : option Z :=
  match exact_position a, exact_position b, exact_position c with
  | Some a', Some b', Some c' =>
    Some ((b'.1 - a'.1) * (c'.2 - a'.2) - (b'.2 - a'.2) * (c'.1 - a'.1))
  | _, _, _ => None
  end.

(** Two numbers of strictly opposite signs; a zero is on neither side. *)
Definition opposite_sides (d d' : Z) : Prop :=
  (0 < d /\ d' < 0) \/ (d < 0 /\ 0 < d').

(** The segments [a1 a2] and [b1 b2] properly cross: the endpoints of each
    lie strictly on opposite sides of the line through the other. *)
Definition properly_cross (a1 a2 b1 b2 : Vector2f) : Prop :=
  exists d1 d2 d3 d4,
    exact_cross a1 a2 b1 = Some d1 /\ exact_cross a1 a2 b2 = Some d2 /\
    exact_cross b1 b2 a1 = Some d3 /\ exact_cross b1 b2 a2 = Some d4 /\
    opposite_sides d1 d2 /\ opposite_sides d3 d4.

(** Two non-adjacent edges of the loop properly cross. *)
Definition self_intersecting (pts : list Vector2f) : Prop :=
  exists i j, (i < length pts)%nat /\ (j < length pts)%nat /\
    ~ adjacent_edges (length pts) i j /\
    properly_cross (edge_start pts i) (edge_end pts i) (edge_start pts j) (edge_end pts j).

(** A position with integer coordinates of magnitude at most 1024. *)
Definition grid_vertex (v : Vector2f) : Prop :=
  exists x y, -1024 <= x <= 1024 /\ -1024 <= y <= 1024 /\
    v = mkVector2f (float_of_Z x) (float_of_Z y).

(** The cross product of three integer points. *)
Definition integer_cross (a b c : Z * Z) : Z :=
  (b.1 - a.1) * (c.2 - a.2) - (b.2 - a.2) * (c.1 - a.1).

(** The position with the integer coordinates [p], of magnitude at most
    1024. *)
Definition on_grid (v : Vector2f) (p : Z * Z) : Prop :=
  (-1024 <= p.1 <= 1024 /\ -1024 <= p.2 <= 1024) /\
  v = mkVector2f (float_of_Z p.1) (float_of_Z p.2).

(** The boundary edges in vertex order. *)
Definition boundary_edges (pts : list Vector2f) : list (Vector2f * Vector2f) :=
  match pts with
  | [] => []
  | v :: rest => zip pts (rest ++ [v])
  end.

(** The line rasteriser run on a list of segments, one after the other. *)
Fixpoint draw_lines (segments : list (Vector2f * Vector2f)) (color : Color) :
    outcome (list Plot) :=
  match segments with
  | [] => Done []
  | (a, b) :: segments' =>
    line <- drawLineIncremental a b color ;;
    rest <- draw_lines segments' color ;;
    Done (line ++ rest)
  end.

(** *** The ellipse rasteriser *)

Definition two : float := float_of_Z 2.

(** The four points drawn for one sample [(x, y)] of the ellipse. *)
Definition ellipse_points (x0 y0 x y : float) (color : Color) :
    outcome (list Plot) :=
  px0 <- iround (fadd x0 x) ;; px1 <- iround (fsub x0 x) ;;
  px2 <- iround (fadd x0 x) ;; px3 <- iround (fsub x0 x) ;;
  py0 <- iround (fadd y0 y) ;; py1 <- iround (fadd y0 y) ;;
  py2 <- iround (fsub y0 y) ;; py3 <- iround (fsub y0 y) ;;
  Done [ putPixel px0 py0 color; putPixel px1 py1 color;
         putPixel px2 py2 color; putPixel px3 py3 color ].

Section Ellipse.

(** [std::cos] and [std::sin] on [float], from the C library. *)
Variable cosf sinf : float -> float.

(** The sample taken at step [i] of [steps]. *)
Definition ellipse_sample (Rx Ry : float) (steps i : Z) : float * float :=
  let alpha := fdiv (fmul (fdiv pi two) (float_of_Z i)) (float_of_Z steps) in
  (fmul Rx (cosf alpha), fmul Ry (sinf alpha)).

(** The loop [for (unsigned int i = 0; i <= steps; ++i)] from [i] on;
    [fuel] bounds the number of iterations. *)
Fixpoint ellipse_loop (fuel : nat) (x0 y0 Rx Ry : float) (color : Color)
    (steps i : Z) : outcome (list Plot) :=
  if i <=? steps then
    match fuel with
    | O => OutOfFuel
    | S fuel' =>
      let '(x, y) := ellipse_sample Rx Ry steps i in
      pts <- ellipse_points x0 y0 x y color ;;
      rest <- ellipse_loop fuel' x0 y0 Rx Ry color steps (wrap_uint (i + 1)) ;;
      Done (pts ++ rest)
    end
  else Done [].

Definition drawEllipse (fuel : nat) (center : Vector2f) (Rx Ry : float)
    (color : Color) (steps : Z) : outcome (list Plot) :=
  ellipse_loop fuel (v_x center) (v_y center) Rx Ry color steps 0.

End Ellipse.

(** *** The loop of both curve rasterisers

    [drawCircle] and [drawEllipse] run the same loop around different
    bodies.  [sample_loop body] is that loop, [body i] drawing the points of
    sample [i]; the proofs are carried out on it and transported by
    [drawCircle_sample_loop] and [drawEllipse_sample_loop]. *)

Fixpoint sample_loop (body : Z -> outcome (list Plot)) (fuel : nat)
    (steps i : Z) : outcome (list Plot) :=
  if i <=? steps then
    match fuel with
    | O => OutOfFuel
    | S fuel' =>
      pts <- body i ;;
      rest <- sample_loop body fuel' steps (wrap_uint (i + 1)) ;;
      Done (pts ++ rest)
    end
  else Done [].

Definition circle_body (cosf sinf : float -> float) (center : Vector2f)
    (R : float) (color : Color) (steps i : Z) : outcome (list Plot) :=
  let s := circle_sample cosf sinf R steps i in
  circle_points (v_x center) (v_y center) s.1 s.2 color.

Definition ellipse_body (cosf sinf : float -> float) (center : Vector2f)
    (Rx Ry : float) (color : Color) (steps i : Z) : outcome (list Plot) :=
  let s := ellipse_sample cosf sinf Rx Ry steps i in
  ellipse_points (v_x center) (v_y center) s.1 s.2 color.

(** *** Further vocabulary *)

(** The increment [m] of the secondary coordinate per step of the walk. *)
Definition slope (a b : Vector2f) : float :=
  let s := steep_line a b in
  let dx := fsub (walked s (walk_end a b)) (walked s (walk_start a b)) in
  let dy := fsub (secondary s (walk_end a b)) (secondary s (walk_start a b)) in
  if feqb dx fzero then fzero else fdiv dy dx.

(** The coordinate of a plotted point on the axis that is not walked. *)
Definition plot_secondary (steep : bool) (p : Plot) : Z :=
  if steep then p.1.1 else p.1.2.

(** The four points [(x0 +- x, y0 +- y)], before rounding. *)
Definition quadrant_reflections (x0 y0 x y : float) : list Vector2f :=
  [ mkVector2f (fadd x0 x) (fadd y0 y); mkVector2f (fsub x0 x) (fadd y0 y);
    mkVector2f (fadd x0 x) (fsub y0 y); mkVector2f (fsub x0 x) (fsub y0 y) ].

(** The reflections of the ellipse sample taken at step [i]. *)
Definition ellipse_reflections (cosf sinf : float -> float) (center : Vector2f)
    (Rx Ry : float) (steps i : Z) : list Vector2f :=
  let s := ellipse_sample cosf sinf Rx Ry steps i in
  quadrant_reflections (v_x center) (v_y center) s.1 s.2.

(** The points that the positions of a list round to, in order. *)
Fixpoint round_points (qs : list Vector2f) (color : Color) : outcome (list Plot) :=
  match qs with
  | [] => Done []
  | q :: qs' =>
    p <- round_point q color ;; rest <- round_points qs' color ;; Done (p :: rest)
  end.

(** A value on neither side of zero: a zero or a NaN. *)
Definition unsigned_float (d : float) : Prop :=
  (exists s, d = S754_zero s) \/ d = S754_nan.

(** [segmentsIntersect] is true of two edges of the loop, adjacent or
    not. *)
Definition reported_pair (pts : list Vector2f) : Prop :=
  exists i j, (i < length pts)%nat /\ (j < length pts)%nat /\
    segmentsIntersect (edge_start pts i) (edge_end pts i)
      (edge_start pts j) (edge_end pts j) = true.

(** The same loop, started one vertex later. *)
Definition next_start (pts : list Vector2f) : list Vector2f :=
  match pts with
  | [] => []
  | v :: rest => rest ++ [v]
  end.

End Raster.

(** ** Shapes *)

Module Shape.

Import Raster.

(** [Point2D]. *)
Record Point2D : Type := mkPoint2D { m_pos : Vector2f; m_color : Color }.

Definition Point2D_translate (dx dy : float) (p : Point2D) : Point2D :=
  mkPoint2D (mkVector2f (fadd (v_x (m_pos p)) dx) (fadd (v_y (m_pos p)) dy)) (m_color p).

Definition Point2D_scale (sx sy : float) (p : Point2D) : Point2D :=
  mkPoint2D (mkVector2f (fmul (v_x (m_pos p)) sx) (fmul (v_y (m_pos p)) sy)) (m_color p).

(** [LineSegment]; [m_renderer] tells whether the pointer is set. *)
Record LineSegment : Type := mkLineSegment {
  m_a : Point2D;
  m_b : Point2D;
  m_line_color : Color;
  m_renderer : bool
}.

Definition LineSegment_translate (dx dy : float) (s : LineSegment) : LineSegment :=
  mkLineSegment (Point2D_translate dx dy (m_a s)) (Point2D_translate dx dy (m_b s))
    (m_line_color s) (m_renderer s).

Definition LineSegment_scale (sx sy : float) (s : LineSegment) : LineSegment :=
  mkLineSegment (Point2D_scale sx sy (m_a s)) (Point2D_scale sx sy (m_b s))
    (m_line_color s) (m_renderer s).

(** What [LineSegment::draw] sends to the render target: the points of
    the line rasteriser, or one [sf::Lines] primitive. *)
Inductive Drawing : Type :=
| Points (pts : list Plot)
| Lines (a b : Vector2f) (color : Color).

Definition LineSegment_draw (s : LineSegment) : outcome Drawing :=
  if m_renderer s then
    pts <- drawLineIncremental (m_pos (m_a s)) (m_pos (m_b s)) (m_line_color s) ;;
    Done (Points pts)
  else Done (Lines (m_pos (m_a s)) (m_pos (m_b s)) (m_line_color s)).

Section Rotation.

(** [std::cos] and [std::sin] on [float], from the C library. *)
Variable cosf sinf : float -> float.

(** [angleDeg * 3.14159265359f / 180.f]. *)
Definition radians (angleDeg : float) : float :=
  fdiv (fmul angleDeg pi) (float_of_Z 180).

Definition Point2D_rotate (angleDeg : float) (p : Point2D) : Point2D :=
  let rad := radians angleDeg in
  let cs := cosf rad in
  let sn := sinf rad in
  let nx := fsub (fmul (v_x (m_pos p)) cs) (fmul (v_y (m_pos p)) sn) in
  let ny := fadd (fmul (v_x (m_pos p)) sn) (fmul (v_y (m_pos p)) cs) in
  mkPoint2D (mkVector2f nx ny) (m_color p).

Definition LineSegment_rotate (angleDeg : float) (s : LineSegment) : LineSegment :=
  mkLineSegment (Point2D_rotate angleDeg (m_a s)) (Point2D_rotate angleDeg (m_b s))
    (m_line_color s) (m_renderer s).

End Rotation.

(** The position is the coordinate origin: both coordinates compare equal
    to zero. *)
Definition at_origin (v : Vector2f) : Prop :=
  feqb (v_x v) fzero = true /\ feqb (v_y v) fzero = true.

(** Neither coordinate is a NaN. *)
Definition no_nan (v : Vector2f) : Prop :=
  v_x v <> S754_nan /\ v_y v <> S754_nan.

(** The same position: the coordinates compare equal. *)
Definition same_position (u v : Vector2f) : Prop :=
  feqb (v_x u) (v_x v) = true /\ feqb (v_y u) (v_y v) = true.

End Shape.

(** ** Animated sprites *)

Module Sprite.

(** [SpriteObject]: the frames, the timing fields and the frame counter,
    together with the texture that [m_sprite] displays ([None] before the
    first [setTexture]).  [m_currentFrame] stays below [m_frames.size()]
    while there are frames, so that [m_currentFrame + 1] does not wrap. *)
Record SpriteObject (Texture : Type) : Type := mkSpriteObject {
  m_frames : list Texture;
  m_timePerFrame : float;
  m_timeAccumulator : float;
  m_currentFrame : nat;
  m_texture : option Texture
}.

Arguments mkSpriteObject {Texture}.
Arguments m_frames {Texture}.
Arguments m_timePerFrame {Texture}.
Arguments m_timeAccumulator {Texture}.
Arguments m_currentFrame {Texture}.
Arguments m_texture {Texture}.

(** The literal [0.15f]: the nearest float, 0x3E19999A. *)
Definition default_timePerFrame : float := S754_finite false 10066330 (-26).

(** A default-constructed object. *)
Definition new_sprite {Texture : Type} : SpriteObject Texture :=
  mkSpriteObject [] default_timePerFrame fzero 0 None.

Definition setFrames {Texture : Type} (frames : list Texture)
    (s : SpriteObject Texture) : SpriteObject Texture :=
  match frames with
  | [] =>
    mkSpriteObject frames (m_timePerFrame s) (m_timeAccumulator s)
      (m_currentFrame s) (m_texture s)
  | first :: _ =>
    mkSpriteObject frames (m_timePerFrame s) (m_timeAccumulator s) 0 (Some first)
  end.

Definition setTimePerFrame {Texture : Type} (t : float)
    (s : SpriteObject Texture) : SpriteObject Texture :=
  mkSpriteObject (m_frames s) t (m_timeAccumulator s) (m_currentFrame s) (m_texture s).

Definition animate {Texture : Type} (dt : float)
    (s : SpriteObject Texture) : SpriteObject Texture :=
  match m_frames s with
  | [] => s
  | _ :: _ =>
    let acc := fadd (m_timeAccumulator s) dt in
    if fgeb acc (m_timePerFrame s) then
      let next := ((m_currentFrame s + 1) mod length (m_frames s))%nat in
      mkSpriteObject (m_frames s) (m_timePerFrame s) (fsub acc (m_timePerFrame s))
        next (m_frames s !! next)
    else
      mkSpriteObject (m_frames s) (m_timePerFrame s) acc
        (m_currentFrame s) (m_texture s)
  end.

Definition update {Texture : Type} (dt : float)
    (s : SpriteObject Texture) : SpriteObject Texture :=
  animate dt s.

(** The states an object goes through: built by the default constructor
    and changed by the public member functions only. *)
Inductive reachable {Texture : Type} : SpriteObject Texture -> Prop :=
| reach_new : reachable new_sprite
| reach_setFrames frames s : reachable s -> reachable (setFrames frames s)
| reach_setTimePerFrame t s : reachable s -> reachable (setTimePerFrame t s)
| reach_animate dt s : reachable s -> reachable (animate dt s)
| reach_update dt s : reachable s -> reachable (update dt s).

(** A run of [update] calls, one per frame time of the list. *)
Definition updates {Texture : Type} (dts : list float)
    (s : SpriteObject Texture) : SpriteObject Texture :=
  fold_left (fun s dt => update dt s) dts s.

End Sprite.

(** ** The fill demos of the engine *)

Module Engine.

Import Fill.

(** Modelled from the spec: [sf::Image::create] belongs to SFML; it makes
    a grid of the given size, every pixel of the given colour. *)
Definition create (width height : Z) (color : Color) : Image :=
  mkImage width height (replicate (Z.to_nat (width * height)) color).

(** [n] iterations of a loop [for (unsigned i = ...; ...; ++i)] from [i]
    on; the body may write outside the buffer. *)
Fixpoint for_loop (n : nat) (i : Z) (body : Z -> Image -> option Image)
    (img : Image) : option Image :=
  match n with
  | O => Some img
  | S n' =>
    match body i img with
    | Some img' => for_loop n' (i + 1) body img'
    | None => None
    end
  end.

(** [for (unsigned i = lo; i < hi; ++i) body]. *)
Definition for_range (lo hi : Z) (body : Z -> Image -> option Image)
    (img : Image) : option Image :=
  for_loop (Z.to_nat (hi - lo)) lo body img.

(** Two calls of [setPixel] in a row. *)
Definition setPixels (p q : Vector2i) (c : Color) (img : Image) : option Image :=
  match setPixel img p.1 p.2 c with
  | Some img' => setPixel img' q.1 q.2 c
  | None => None
  end.

(** [sf::Color::White], [sf::Color::Black] and the colours built in
    [initFillDemos]. *)
Definition White : Color := mkColor 255 255 255 255.
Definition Black : Color := mkColor 0 0 0 255.
Definition boundary_fill_color : Color := mkColor 200 255 200 255.
Definition flood_background : Color := mkColor 240 240 255 255.
Definition flood_fill_color : Color := mkColor 255 220 200 255.

(** One step after another, as long as no write left the buffer. *)
Definition and_then (o : option Image) (k : Image -> option Image) : option Image :=
  match o with
  | Some img => k img
  | None => None
  end.

(** A write outside the buffer is undefined behaviour. *)
Definition written (o : option Image) : outcome Image :=
  match o with
  | Some img => Done img
  | None => Fault
  end.

(** [m_imgBoundary] when [boundaryFill] is called. *)
Definition boundary_frame : option Image :=
  and_then
    (for_range 10 190 (fun x => setPixels (x, 10) (x, 140) Black)
       (create 200 150 White))
    (for_range 10 140 (fun y => setPixels (10, y) (190, y) Black)).

(** [m_imgFlood] when [floodFill] is called. *)
Definition flood_frame : option Image :=
  and_then
    (for_range 0 200 (fun x => setPixels (x, 0) (x, 149) Black)
       (create 200 150 flood_background))
    (for_range 0 150 (fun y => setPixels (0, y) (199, y) Black)).

(** The two images that [initFillDemos] builds, [m_imgBoundary] and
    [m_imgFlood]; [fuel] bounds the iterations of each fill. *)
Definition initFillDemos (fuel : nat) : outcome (Image * Image) :=
  img <- written boundary_frame ;;
  imgBoundary <- boundaryFill fuel img 50 50 boundary_fill_color Black ;;
  img' <- written flood_frame ;;
  imgFlood <- floodFill fuel img' 100 75 flood_fill_color ;;
  Done (imgBoundary, imgFlood).

(** The frame drawn on [m_imgBoundary]. *)
Definition demo_frame : Frame := mkFrame 10 10 190 140.

(** Fuel for a fill of a 200 x 150 image. *)
Definition demo_fuel : nat := enough_fuel (create 200 150 White).

(** The frame along the edge of a 200 x 150 image. *)
Definition demo_border : Frame := mkFrame 0 0 199 149.

(** An image of the same size and buffer length. *)
Definition same_shape (img img' : Image) : Prop :=
  size_x img' = size_x img /\ size_y img' = size_y img /\
  length (pixels img') = length (pixels img).

End Engine.

(** * Example data *)

Import Fill Raster.
Import Shape Sprite Engine.

(** ** Grids *)

Definition black : Color := mkColor 0 0 0 255.
Definition white : Color := mkColor 255 255 255 255.
Definition red : Color := mkColor 255 0 0 255.
Definition grey : Color := mkColor 128 128 128 255.

(** A 5 x 3 grid: a black frame around three pixels, the middle one of
    which is already red. *)
Definition wall_image : Image :=
  mkImage 5 3 [ black; black; black; black; black;
                black; white; red;   white; black;
                black; black; black; black; black ].

(** A 5 x 3 grid: a black frame around three pixels of two colours. *)
Definition framed_image : Image :=
  mkImage 5 3 [ black; black; black; black; black;
                black; white; grey;  white; black;
                black; black; black; black; black ].

(** A 5 x 3 grid: a black border around three white pixels. *)
Definition bordered_image : Image :=
  mkImage 5 3 [ black; black; black; black; black;
                black; white; white; white; black;
                black; black; black; black; black ].

(** ** Positions *)

Definition origin : Vector2f := mkVector2f fzero fzero.

(** The position (2.5, 1.25). *)
Definition far_point : Vector2f :=
  mkVector2f (S754_finite false 10485760 (-22)) (S754_finite false 10485760 (-23)).

(** ** A small circle *)

Definition one : float := float_of_Z 1.

Definition unit_centre : Vector2f := mkVector2f one one.

(** The largest float below one half, 0x3EFFFFFF. *)
Definition just_under_half : float := S754_finite false 16777215 (-25).

(** The C library at the two angles sampled when [steps] is 1: the cosine
    and sine of 0 are 1 and 0, those of 0x3F490FDB (pi/4) round to
    0x3F3504F3.  Any values in [-1, 1] at the second angle lead to the same
    pixels below. *)
Definition cos_table (a : float) : float :=
  if feqb a fzero then one else S754_finite false 11863283 (-24).

Definition sin_table (a : float) : float :=
  if feqb a fzero then fzero else S754_finite false 11863283 (-24).

Definition small_circle : list Plot :=
  [ (2, 1, red); (1, 2, red); (1, 1, red); (1, 2, red);
    (1, 1, red); (1, 1, red); (2, 1, red); (1, 1, red);
    (1, 1, red); (1, 1, red); (1, 1, red); (1, 1, red);
    (1, 1, red); (1, 1, red); (1, 1, red); (1, 1, red) ].

(** ** Polygons *)

Definition vertex (x y : Z) : Vector2f := mkVector2f (float_of_Z x) (float_of_Z y).

Definition bowtie : list Vector2f :=
  [ vertex 0 0; vertex 10 10; vertex 10 0; vertex 0 10 ].

Definition square : list Vector2f :=
  [ vertex 0 0; vertex 10 0; vertex 10 10; vertex 0 10 ].

(** ** Further examples *)

(** A 5 x 3 grid: a black frame around three white pixels, the four
    corners of the frame left white. *)
Definition open_corner_image : Image :=
  mkImage 5 3 [ white; black; black; black; white;
                black; white; white; white; black;
                white; black; black; black; white ].

(** A cosine that propagates NaN, as the C library's does. *)
Definition cos_nan (a : float) : float :=
  match a with
  | S754_nan => S754_nan
  | _ => cos_table a
  end.

(** The C library at the two angles sampled by [drawEllipse] when [steps]
    is 1: the cosine and sine of 0 are 1 and 0; at 0x3FC90FDB (pi/2) the
    cosine rounds to 0xB33BBD2E and the sine to 1. *)
Definition cos_quarter (a : float) : float :=
  if feqb a fzero then one else S754_finite true 12303662 (-48).

Definition sin_quarter (a : float) : float :=
  if feqb a fzero then fzero else one.

(** The segment from (0, 0) to (2.5, 1.25), drawn by the renderer. *)
Definition diagonal : LineSegment :=
  mkLineSegment (mkPoint2D origin white) (mkPoint2D far_point white) red true.

(** Three frames, named by numbers. *)
Definition walk_cycle : list nat := [10%nat; 11%nat; 12%nat].

(** The number [z * 2^e]. *)
Definition dyadic (z e : Z) : float := binary_normalize prec emax z e false.

(** The quadrilateral (0, 0), (8194, 8192), (4098, 4097), (5000, 0), scaled
    by 2^-8: every coordinate is a number of the format.  Its first and third
    edges properly cross, the third vertex lying just off the first edge. *)
Definition sliver : list Vector2f :=
  [ mkVector2f (dyadic 0 (-8)) (dyadic 0 (-8));
    mkVector2f (dyadic 8194 (-8)) (dyadic 8192 (-8));
    mkVector2f (dyadic 4098 (-8)) (dyadic 4097 (-8));
    mkVector2f (dyadic 5000 (-8)) (dyadic 0 (-8)) ].

(** * Properties of the region fill engine *)

Lemma Color_eqb_eq c1 c2 : Color_eqb c1 c2 = true <-> c1 = c2.
Proof.
  unfold Color_eqb. rewrite !andb_true_iff, !Z.eqb_eq.
  destruct c1, c2; simpl. split.
  - intros [[[-> ->] ->] ->]. reflexivity.
  - intros [= -> -> -> ->]. auto.
Qed.

Lemma Color_eqb_refl c : Color_eqb c c = true.
Proof. apply Color_eqb_eq. reflexivity. Qed.

Lemma Color_eqb_neq c1 c2 : Color_eqb c1 c2 = false <-> c1 <> c2.
Proof.
  rewrite <- Color_eqb_eq. destruct (Color_eqb c1 c2); split; congruence.
Qed.

Lemma wrap_int_small z : INT_MIN <= z <= INT_MAX -> wrap_int z = z.
Proof.
  unfold wrap_int, INT_MIN, INT_MAX. intros H.
  rewrite Z.mod_small; lia.
Qed.

Lemma out_of_bounds_false img p : out_of_bounds img p = false <-> in_grid img p.
Proof.
  unfold out_of_bounds, in_grid.
  rewrite !orb_false_iff, !Z.ltb_ge, !Z.leb_gt. lia.
Qed.

Lemma out_of_bounds_true img p : out_of_bounds img p = true <-> ~ in_grid img p.
Proof.
  rewrite <- out_of_bounds_false. destruct (out_of_bounds img p); split; congruence.
Qed.

(** In a well-formed image the coordinates pushed for a pixel of the grid
    are its four neighbours: no addition wraps. *)
Lemma pushed_neighbours img p :
  wf_image img -> in_grid img p -> pushed p = neighbours p.
Proof.
  intros (Hx & Hy & _) [H1 H2]. unfold pushed, neighbours, int_add, int_sub.
  unfold INT_MAX in *.
  rewrite !wrap_int_small by (unfold INT_MIN, INT_MAX; lia). reflexivity.
Qed.

(** ** The pixel buffer *)

Lemma offset_lt img p :
  wf_image img -> in_grid img p ->
  (offset img p.1 p.2 < length (pixels img))%nat.
Proof.
  intros (Hx & Hy & Hl) [H1 H2]. rewrite Hl. unfold offset.
  apply Z2Nat.inj_lt; nia.
Qed.

Lemma offset_inj img p p' :
  in_grid img p -> in_grid img p' ->
  offset img p.1 p.2 = offset img p'.1 p'.2 -> p = p'.
Proof.
  intros [H1 H2] [H1' H2'] H. unfold offset in H.
  apply Z2Nat.inj in H; [| nia | nia].
  assert (p.2 = p'.2) by nia. assert (p.1 = p'.1) by nia.
  destruct p, p'; simpl in *; congruence.
Qed.

Lemma pixel_at_is_Some img p :
  wf_image img -> in_grid img p -> exists c, pixel_at img p = Some c.
Proof.
  intros Hwf Hin. unfold pixel_at, getPixel.
  destruct (lookup_lt_is_Some_2 (pixels img) (offset img p.1 p.2)) as [c Hc].
  - apply offset_lt; assumption.
  - exists c. exact Hc.
Qed.

Lemma setPixel_is_Some img p c :
  wf_image img -> in_grid img p -> exists img', setPixel img p.1 p.2 c = Some img'.
Proof.
  intros Hwf Hin. unfold setPixel.
  pose proof (offset_lt img p Hwf Hin) as Hlt.
  apply Nat.ltb_lt in Hlt. rewrite Hlt. eauto.
Qed.

Lemma setPixel_size img x y c img' :
  setPixel img x y c = Some img' ->
  size_x img' = size_x img /\ size_y img' = size_y img /\
  length (pixels img') = length (pixels img).
Proof.
  unfold setPixel. destruct (_ <? _)%nat; [|discriminate].
  intros [= <-]. simpl. rewrite length_insert. auto.
Qed.

Lemma setPixel_wf img x y c img' :
  wf_image img -> setPixel img x y c = Some img' -> wf_image img'.
Proof.
  intros (Hx & Hy & Hl) H. apply setPixel_size in H as (Hx' & Hy' & Hl').
  unfold wf_image. rewrite Hx', Hy', Hl'. auto.
Qed.

Lemma setPixel_in_grid img x y c img' p :
  setPixel img x y c = Some img' -> in_grid img' p <-> in_grid img p.
Proof.
  intros H. apply setPixel_size in H as (Hx & Hy & _).
  unfold in_grid. rewrite Hx, Hy. reflexivity.
Qed.

Lemma setPixel_same img p c img' :
  setPixel img p.1 p.2 c = Some img' -> pixel_at img' p = Some c.
Proof.
  unfold setPixel, pixel_at, getPixel.
  destruct (_ <? _)%nat eqn:Hlt; [|discriminate].
  intros [= <-]. unfold offset; simpl.
  apply list_lookup_insert_eq. apply Nat.ltb_lt. exact Hlt.
Qed.

Lemma setPixel_other img p c img' p' :
  in_grid img p -> in_grid img p' -> p' <> p ->
  setPixel img p.1 p.2 c = Some img' -> pixel_at img' p' = pixel_at img p'.
Proof.
  intros Hp Hp' Hne. unfold setPixel, pixel_at, getPixel.
  destruct (_ <? _)%nat; [|discriminate].
  intros [= <-]. unfold offset at 1; simpl. fold (offset img p'.1 p'.2).
  apply list_lookup_insert_ne. intros Heq.
  apply Hne. symmetry. apply (offset_inj img); assumption.
Qed.

(** ** The traversal shared by both fills *)

Lemma boundaryFill_loop_bfs fuel img fillColor boundaryColor q :
  boundaryFill_loop fuel img fillColor boundaryColor q =
  bfs_loop (boundary_skip fillColor boundaryColor) fillColor fuel img q.
Proof.
  revert img q. induction fuel as [|fuel IH]; intros img [|p q]; simpl; try reflexivity.
  destruct (out_of_bounds img p); [apply IH|].
  destruct (getPixel img p.1 p.2) as [c|]; [|reflexivity].
  change (boundary_skip fillColor boundaryColor c)
    with (Color_eqb c boundaryColor || Color_eqb c fillColor).
  destruct (Color_eqb c boundaryColor || Color_eqb c fillColor); [apply IH|].
  destruct (setPixel img p.1 p.2 fillColor); [apply IH | reflexivity].
Qed.

Lemma floodFill_loop_bfs fuel img fillColor backgroundColor q :
  floodFill_loop fuel img fillColor backgroundColor q =
  bfs_loop (flood_skip fillColor backgroundColor) fillColor fuel img q.
Proof.
  revert img q. induction fuel as [|fuel IH]; intros img [|p q]; simpl; try reflexivity.
  destruct (out_of_bounds img p); [apply IH|].
  destruct (getPixel img p.1 p.2) as [c|]; [|reflexivity].
  change (flood_skip fillColor backgroundColor c)
    with (negb (Color_eqb c backgroundColor) || Color_eqb c fillColor).
  destruct (negb (Color_eqb c backgroundColor) || Color_eqb c fillColor); [apply IH|].
  destruct (setPixel img p.1 p.2 fillColor); [apply IH | reflexivity].
Qed.

Lemma count_if_le_length f l : (count_if f l <= length l)%nat.
Proof. induction l as [|c l IH]; simpl; [lia | destruct (f c); lia]. Qed.

Lemma count_if_insert f (l : list Color) i c c' :
  l !! i = Some c -> f c = true -> f c' = false ->
  S (count_if f (<[i := c']> l)) = count_if f l.
Proof.
  revert i. induction l as [|d l IH]; intros [|i] Hi Hc Hc'; simpl in *; try discriminate.
  - injection Hi as ->. rewrite Hc, Hc'. reflexivity.
  - rewrite <- (IH i Hi Hc Hc'). destruct (f d); lia.
Qed.

Section Traversal.

Variable skip : Color -> bool.
Variable fillColor : Color.
Hypothesis skip_fillColor : skip fillColor = true.

Lemma remaining_setPixel img p c img' :
  pixel_at img p = Some c -> skip c = false ->
  setPixel img p.1 p.2 fillColor = Some img' ->
  S (remaining skip img') = remaining skip img.
Proof.
  unfold pixel_at, getPixel, setPixel, remaining. intros Hc Hs.
  destruct (_ <? _)%nat; [|discriminate]. intros [= <-]. simpl.
  apply count_if_insert with (c := c); [assumption | |].
  - rewrite Hs. reflexivity.
  - rewrite skip_fillColor. reflexivity.
Qed.

(** Every iteration lowers [4 * remaining + length q]: the loop stops
    within that many pops. *)
Lemma bfs_loop_terminates fuel img q :
  wf_image img ->
  (4 * remaining skip img + length q <= fuel)%nat ->
  exists img', bfs_loop skip fillColor fuel img q = Done img'.
Proof.
  revert img q. induction fuel as [|fuel IH]; intros img [|p q] Hwf Hm; simpl in *;
    eauto; try lia.
  destruct (out_of_bounds img p) eqn:Hb.
  { apply IH; [assumption | lia]. }
  apply out_of_bounds_false in Hb.
  destruct (pixel_at_is_Some img p Hwf Hb) as [c Hc].
  unfold pixel_at in Hc. rewrite Hc.
  destruct (skip c) eqn:Hs.
  { apply IH; [assumption | lia]. }
  destruct (setPixel_is_Some img p fillColor Hwf Hb) as [img1 H1]. rewrite H1.
  apply IH.
  - eapply setPixel_wf; eassumption.
  - pose proof (remaining_setPixel img p c img1 Hc Hs H1).
    rewrite length_app. simpl. lia.
Qed.

Lemma bfs_loop_more_fuel fuel fuel' img q img' :
  bfs_loop skip fillColor fuel img q = Done img' -> (fuel <= fuel')%nat ->
  bfs_loop skip fillColor fuel' img q = Done img'.
Proof.
  revert fuel' img q. induction fuel as [|fuel IH]; intros fuel' img [|p q] H Hle;
    simpl in *; try discriminate.
  - destruct fuel'; exact H.
  - destruct fuel'; exact H.
  - destruct fuel' as [|fuel']; [lia|]. simpl.
    destruct (out_of_bounds img p); [apply IH; [assumption | lia]|].
    destruct (getPixel img p.1 p.2) as [c|]; [|discriminate].
    destruct (skip c); [apply IH; [assumption | lia]|].
    destruct (setPixel img p.1 p.2 fillColor); [|discriminate].
    apply IH; [assumption | lia].
Qed.

Lemma bfs_loop_run fuel img q img' :
  bfs_loop skip fillColor fuel img q = Done img' ->
  bfs_run skip fillColor img q img'.
Proof.
  revert img q. induction fuel as [|fuel IH]; intros img [|p q] H; simpl in *;
    try discriminate; try (injection H as <-; constructor).
  destruct (out_of_bounds img p) eqn:Hb.
  { apply run_outside; auto. }
  destruct (getPixel img p.1 p.2) as [c|] eqn:Hc; [|discriminate].
  destruct (skip c) eqn:Hs.
  { eapply run_skip; eauto. }
  destruct (setPixel img p.1 p.2 fillColor) as [img1|] eqn:H1; [|discriminate].
  eapply run_fill; eauto.
Qed.

(** *** What a run preserves *)

Lemma run_wf img q img' :
  bfs_run skip fillColor img q img' -> wf_image img -> wf_image img'.
Proof.
  induction 1; intros Hwf; auto.
  apply IHbfs_run. eapply setPixel_wf; eassumption.
Qed.

Lemma run_size img q img' :
  bfs_run skip fillColor img q img' ->
  size_x img' = size_x img /\ size_y img' = size_y img.
Proof.
  induction 1; auto.
  destruct IHbfs_run as [-> ->].
  apply setPixel_size in H2 as (-> & -> & _). auto.
Qed.

Lemma run_in_grid img q img' p :
  bfs_run skip fillColor img q img' -> in_grid img' p <-> in_grid img p.
Proof.
  intros H. apply run_size in H as [Hx Hy]. unfold in_grid. rewrite Hx, Hy. reflexivity.
Qed.

(** A pixel keeps its colour or, if that colour is not skipped, may turn
    into [fillColor]; nothing else is ever written. *)
Lemma run_colour img q img' :
  bfs_run skip fillColor img q img' ->
  forall p c, in_grid img p -> pixel_at img p = Some c ->
    pixel_at img' p = Some c \/ (skip c = false /\ pixel_at img' p = Some fillColor).
Proof.
  induction 1 as [img | img p0 q img' Hb _ IH | img p0 q c0 img' Hb Hc0 Hs _ IH
                 | img p0 q c0 img1 img' Hb Hc0 Hs H1 _ IH]; intros p c Hp Hc; auto.
  apply out_of_bounds_false in Hb.
  destruct (decide (p = p0)) as [->|Hne].
  - right. assert (c = c0) as -> by congruence. split; [assumption|].
    destruct (IH p0 fillColor) as [Hk | [Hk _]]; auto.
    + apply (setPixel_in_grid _ _ _ _ _ p0 H1). assumption.
    + eapply setPixel_same; eassumption.
    + congruence.
  - apply IH.
    + apply (setPixel_in_grid _ _ _ _ _ p H1). assumption.
    + rewrite (setPixel_other img p0 fillColor img1 p); auto.
Qed.

Lemma run_skipped_unchanged img q img' p c :
  bfs_run skip fillColor img q img' ->
  in_grid img p -> pixel_at img p = Some c -> skip c = true ->
  pixel_at img' p = Some c.
Proof.
  intros Hr Hp Hc Hs. destruct (run_colour _ _ _ Hr p c Hp Hc) as [H | [H _]]; congruence.
Qed.

(** At exit every queued pixel of the grid has a skipped colour. *)
Lemma run_queue img q img' :
  bfs_run skip fillColor img q img' ->
  forall p, In p q -> in_grid img p ->
    exists c, pixel_at img' p = Some c /\ skip c = true.
Proof.
  induction 1 as [img | img p0 q img' Hb Hr IH | img p0 q c0 img' Hb Hc0 Hs Hr IH
                 | img p0 q c0 img1 img' Hb Hc0 Hs H1 Hr IH]; intros p Hq Hp.
  - destruct Hq.
  - destruct Hq as [<- | Hq]; [|auto].
    apply out_of_bounds_true in Hb. contradiction.
  - destruct Hq as [<- | Hq]; [|auto].
    exists c0. split; [|assumption]. eapply run_skipped_unchanged; eauto.
  - assert (Hp1 : in_grid img1 p) by (apply (setPixel_in_grid _ _ _ _ _ p H1); assumption).
    destruct Hq as [<- | Hq].
    + exists fillColor. split; [|assumption].
      eapply run_skipped_unchanged; eauto. eapply setPixel_same; eassumption.
    + apply IH; [|assumption]. apply in_or_app. left. assumption.
Qed.

(** At exit, around every recoloured pixel, the neighbours that lie in
    the grid have a skipped colour. *)
Lemma run_closed img q img' :
  bfs_run skip fillColor img q img' -> wf_image img ->
  forall p n, in_grid img p -> pixel_at img' p <> pixel_at img p ->
    In n (neighbours p) -> in_grid img n ->
    exists c, pixel_at img' n = Some c /\ skip c = true.
Proof.
  induction 1 as [img | img p0 q img' Hb Hr IH | img p0 q c0 img' Hb Hc0 Hs Hr IH
                 | img p0 q c0 img1 img' Hb Hc0 Hs H1 Hr IH];
    intros Hwf p n Hp Hch Hn Hng.
  - contradiction.
  - apply (IH Hwf p n); assumption.
  - apply (IH Hwf p n); assumption.
  - apply out_of_bounds_false in Hb.
    assert (Hn1 : in_grid img1 n) by (apply (setPixel_in_grid _ _ _ _ _ n H1); assumption).
    destruct (decide (p = p0)) as [->|Hne].
    + apply (run_queue _ _ _ Hr); [|assumption].
      apply in_or_app. right. rewrite (pushed_neighbours img); assumption.
    + apply IH with (p := p); auto.
      * eapply setPixel_wf; eassumption.
      * apply (setPixel_in_grid _ _ _ _ _ p H1). assumption.
      * rewrite (setPixel_other img p0 fillColor img1 p); auto.
Qed.

(** *** Reachability *)

Lemma connected_start ok s t : connected ok s t -> ok s.
Proof. destruct 1; assumption. Qed.

Lemma connected_end ok s t : connected ok s t -> ok t.
Proof. induction 1; assumption. Qed.

Lemma connected_mono (ok ok' : Vector2i -> Prop) s t :
  (forall p, ok p -> ok' p) -> connected ok s t -> connected ok' s t.
Proof.
  intros Hsub. induction 1.
  - apply connected_here. auto.
  - eapply connected_step; eauto.
Qed.

Lemma connected_trans ok s m t :
  connected ok s m -> connected ok m t -> connected ok s t.
Proof.
  induction 1; intros Hmt; [assumption|].
  eapply connected_step; eauto.
Qed.

Lemma fillable_setPixel img p0 img1 p :
  in_grid img p0 ->
  setPixel img p0.1 p0.2 fillColor = Some img1 ->
  fillable skip img1 p -> fillable skip img p.
Proof.
  intros Hp0 H1 (Hp & c & Hc & Hs).
  apply (setPixel_in_grid _ _ _ _ _ p H1) in Hp.
  split; [assumption|]. exists c. split; [|assumption].
  destruct (decide (p = p0)) as [->|Hne].
  - rewrite (setPixel_same _ _ _ _ H1) in Hc. congruence.
  - rewrite (setPixel_other img p0 fillColor img1 p) in Hc; auto.
Qed.

(** Only pixels reachable from a queued pixel through fillable pixels are
    recoloured. *)
Lemma run_sound img q img' :
  bfs_run skip fillColor img q img' -> wf_image img ->
  forall p, in_grid img p -> pixel_at img' p <> pixel_at img p ->
    exists s, In s q /\ connected (fillable skip img) s p.
Proof.
  induction 1 as [img | img p0 q img' Hb Hr IH | img p0 q c0 img' Hb Hc0 Hs Hr IH
                 | img p0 q c0 img1 img' Hb Hc0 Hs H1 Hr IH];
    intros Hwf p Hp Hch.
  - contradiction.
  - destruct (IH Hwf p Hp Hch) as (s & Hs & Hc). exists s. split; [right|]; assumption.
  - destruct (IH Hwf p Hp Hch) as (s & Hq & Hc). exists s. split; [right|]; assumption.
  - apply out_of_bounds_false in Hb.
    assert (Hf0 : fillable skip img p0) by (split; [assumption | eauto]).
    destruct (decide (p = p0)) as [->|Hne].
    { exists p0. split; [left; reflexivity | apply connected_here; assumption]. }
    destruct (IH (setPixel_wf _ _ _ _ _ Hwf H1) p) as (s & Hq & Hc).
    { apply (setPixel_in_grid _ _ _ _ _ p H1). assumption. }
    { rewrite (setPixel_other img p0 fillColor img1 p); auto. }
    apply (connected_mono _ (fillable skip img)) in Hc;
      [| intros x; apply (fillable_setPixel img p0 img1 x); assumption].
    apply in_app_or in Hq as [Hq | Hq].
    + exists s. split; [right|]; assumption.
    + exists p0. split; [left; reflexivity|].
      eapply connected_step; [eassumption | | eassumption].
      rewrite <- (pushed_neighbours img); assumption.
Qed.

(** *** The traversal started at one fillable seed *)

Lemma run_seed_filled img s img' :
  bfs_run skip fillColor img [s] img' -> wf_image img ->
  fillable skip img s -> pixel_at img' s = Some fillColor.
Proof.
  intros Hr Hwf (Hs & c & Hc & Hsk).
  destruct (run_queue _ _ _ Hr s) as (c' & Hc' & Hsk'); [left; reflexivity | assumption |].
  destruct (run_colour _ _ _ Hr s c Hs Hc) as [Hk | [_ Hk]]; congruence.
Qed.

Lemma run_complete img s img' :
  bfs_run skip fillColor img [s] img' -> wf_image img ->
  forall t, connected (fillable skip img) s t -> pixel_at img' t = Some fillColor.
Proof.
  intros Hr Hwf t Hc.
  assert (Hs : pixel_at img' s = Some fillColor).
  { apply (run_seed_filled img); [assumption.. | eapply connected_start; eassumption]. }
  assert (Hall : forall a b, connected (fillable skip img) a b ->
                   pixel_at img' a = Some fillColor -> pixel_at img' b = Some fillColor);
    [| exact (Hall s t Hc Hs)].
  clear t Hc Hs. intros a b Hc.
  induction Hc as [p Hp | p n t Hp Hn Hc IH]; intros Hs; [assumption|].
  apply IH.
  pose proof (connected_start _ _ _ Hc) as (Hng & c & Hcn & Hsn).
  destruct Hp as (Hpg & cp & Hcp & Hsp).
  destruct (run_closed _ _ _ Hr Hwf p n) as (c' & Hc' & Hs'); try assumption.
  { rewrite Hs, Hcp. intros [= <-]. congruence. }
  destruct (run_colour _ _ _ Hr n c Hng Hcn) as [Hk | [_ Hk]]; congruence.
Qed.

(** Exactly the pixels connected to the seed through fillable pixels are
    recoloured, and they all end as [fillColor]. *)
Lemma run_from_seed img s img' :
  bfs_run skip fillColor img [s] img' -> wf_image img -> fillable skip img s ->
  forall p, in_grid img p ->
    (connected (fillable skip img) s p -> pixel_at img' p = Some fillColor) /\
    (~ connected (fillable skip img) s p -> pixel_at img' p = pixel_at img p).
Proof.
  intros Hr Hwf Hs p Hp. split.
  - apply run_complete; assumption.
  - intros Hn. destruct (decide (pixel_at img' p = pixel_at img p)) as [|Hch]; [assumption|].
    destruct (run_sound _ _ _ Hr Hwf p Hp Hch) as (s' & [<- | []] & Hc). contradiction.
Qed.

End Traversal.

(** ** Geometry of rectangles on the grid *)

(** The pixels strictly inside a rectangle are 4-connected. *)
Lemma inside_frame_connected (ok : Vector2i -> Prop) f :
  (forall p, inside_frame f p -> ok p) ->
  forall s t, inside_frame f s -> inside_frame f t -> connected ok s t.
Proof.
  intros Hok s t. remember (Z.to_nat (Z.abs (s.1 - t.1) + Z.abs (s.2 - t.2))) as d eqn:Hd.
  revert s Hd. induction d as [d IH] using lt_wf_ind. intros [sx sy] Hd Hs Ht.
  destruct t as [tx ty]. unfold inside_frame in *. simpl in *.
  assert (Hcase : sx < tx \/ tx < sx \/ (sx = tx /\ sy < ty) \/ (sx = tx /\ ty < sy) \/
                  (sx = tx /\ sy = ty)) by lia.
  assert (Hoks : ok (sx, sy)) by (apply Hok; simpl; lia).
  destruct Hcase as [H | [H | [H | [H | [-> ->]]]]].
  - apply connected_step with (n := (sx + 1, sy)); [assumption | simpl; auto |].
    apply (IH (Z.to_nat (Z.abs (sx + 1 - tx) + Z.abs (sy - ty)))); simpl; lia.
  - apply connected_step with (n := (sx - 1, sy)); [assumption | simpl; auto |].
    apply (IH (Z.to_nat (Z.abs (sx - 1 - tx) + Z.abs (sy - ty)))); simpl; lia.
  - apply connected_step with (n := (sx, sy + 1)); [assumption | simpl; auto |].
    apply (IH (Z.to_nat (Z.abs (sx - tx) + Z.abs (sy + 1 - ty)))); simpl; lia.
  - apply connected_step with (n := (sx, sy - 1)); [assumption | simpl; auto 6 |].
    apply (IH (Z.to_nat (Z.abs (sx - tx) + Z.abs (sy - 1 - ty)))); simpl; lia.
  - apply connected_here. assumption.
Qed.



(** ** Entering the loops *)

Lemma enough_fuel_remaining skip img fuel :
  (enough_fuel img <= fuel)%nat -> (4 * remaining skip img + 1 <= fuel)%nat.
Proof.
  unfold enough_fuel, remaining. intros H.
  pose proof (count_if_le_length (fun c => negb (skip c)) (pixels img)). lia.
Qed.

Lemma boundary_skip_fill fillColor boundaryColor :
  boundary_skip fillColor boundaryColor fillColor = true.
Proof. unfold boundary_skip. rewrite Color_eqb_refl. apply orb_true_r. Qed.

Lemma flood_skip_fill fillColor backgroundColor :
  flood_skip fillColor backgroundColor fillColor = true.
Proof. unfold flood_skip. rewrite Color_eqb_refl. apply orb_true_r. Qed.

Lemma boundary_skip_false fillColor boundaryColor c :
  boundary_skip fillColor boundaryColor c = false <-> c <> boundaryColor /\ c <> fillColor.
Proof. unfold boundary_skip. rewrite orb_false_iff, !Color_eqb_neq. reflexivity. Qed.

Lemma flood_skip_false fillColor backgroundColor c :
  flood_skip fillColor backgroundColor c = false <-> c = backgroundColor /\ c <> fillColor.
Proof.
  unfold flood_skip. rewrite orb_false_iff, negb_false_iff, Color_eqb_eq, Color_eqb_neq.
  reflexivity.
Qed.

(** The call, case by case. *)
Lemma boundaryFill_cases fuel img x y fillColor boundaryColor :
  wf_image img -> (enough_fuel img <= fuel)%nat ->
  (boundaryFill fuel img x y fillColor boundaryColor = Done img /\
   ~ fillable (boundary_skip fillColor boundaryColor) img (x, y)) \/
  (exists img', boundaryFill fuel img x y fillColor boundaryColor = Done img' /\
     fillable (boundary_skip fillColor boundaryColor) img (x, y) /\
     bfs_run (boundary_skip fillColor boundaryColor) fillColor img [(x, y)] img').
Proof.
  intros Hwf Hfuel. unfold boundaryFill.
  destruct (out_of_bounds img (x, y)) eqn:Hb.
  { left. split; [reflexivity|]. apply out_of_bounds_true in Hb. intros [? _]. auto. }
  apply out_of_bounds_false in Hb.
  destruct (pixel_at_is_Some img (x, y) Hwf Hb) as [c Hc].
  unfold pixel_at in Hc. simpl in Hc. rewrite Hc.
  fold (boundary_skip fillColor boundaryColor c).
  destruct (boundary_skip fillColor boundaryColor c) eqn:Hs.
  { left. split; [reflexivity|]. intros (_ & c' & Hc' & Hs'). unfold pixel_at in Hc'.
    simpl in Hc'. congruence. }
  right. rewrite boundaryFill_loop_bfs.
  destruct (bfs_loop_terminates (boundary_skip fillColor boundaryColor) fillColor
              (boundary_skip_fill _ _) fuel img [(x, y)] Hwf) as [img' Hr].
  { simpl. apply enough_fuel_remaining with (skip := boundary_skip fillColor boundaryColor) in Hfuel.
    lia. }
  exists img'. split; [assumption|]. split.
  - split; [assumption|]. exists c. split; assumption.
  - eapply bfs_loop_run; eassumption.
Qed.

Lemma floodFill_cases fuel img x y fillColor :
  wf_image img -> (enough_fuel img <= fuel)%nat ->
  (floodFill fuel img x y fillColor = Done img /\
   (~ in_grid img (x, y) \/ pixel_at img (x, y) = Some fillColor)) \/
  (exists img' backgroundColor,
     floodFill fuel img x y fillColor = Done img' /\
     in_grid img (x, y) /\ pixel_at img (x, y) = Some backgroundColor /\
     backgroundColor <> fillColor /\
     bfs_run (flood_skip fillColor backgroundColor) fillColor img [(x, y)] img').
Proof.
  intros Hwf Hfuel. unfold floodFill.
  destruct (out_of_bounds img (x, y)) eqn:Hb.
  { left. split; [reflexivity|]. apply out_of_bounds_true in Hb. auto. }
  apply out_of_bounds_false in Hb.
  destruct (pixel_at_is_Some img (x, y) Hwf Hb) as [c Hc].
  unfold pixel_at in *. simpl in *. rewrite Hc.
  destruct (Color_eqb c fillColor) eqn:He.
  { left. split; [reflexivity|]. right. apply Color_eqb_eq in He. congruence. }
  right. apply Color_eqb_neq in He. rewrite floodFill_loop_bfs.
  destruct (bfs_loop_terminates (flood_skip fillColor c) fillColor
              (flood_skip_fill _ _) fuel img [(x, y)] Hwf) as [img' Hr].
  { simpl. apply enough_fuel_remaining with (skip := flood_skip fillColor c) in Hfuel. lia. }
  exists img', c. split; [assumption|]. split; [assumption|].
  split; [reflexivity|]. split; [assumption|].
  eapply bfs_loop_run; eassumption.
Qed.

Lemma boundaryFill_more_fuel fuel fuel' img x y fillColor boundaryColor img' :
  boundaryFill fuel img x y fillColor boundaryColor = Done img' -> (fuel <= fuel')%nat ->
  boundaryFill fuel' img x y fillColor boundaryColor = Done img'.
Proof.
  unfold boundaryFill. intros H Hle.
  destruct (out_of_bounds img (x, y)); [assumption|].
  destruct (getPixel img x y); [|discriminate].
  destruct (_ || _); [assumption|].
  rewrite boundaryFill_loop_bfs in *. eapply bfs_loop_more_fuel; eassumption.
Qed.

Lemma floodFill_more_fuel fuel fuel' img x y fillColor img' :
  floodFill fuel img x y fillColor = Done img' -> (fuel <= fuel')%nat ->
  floodFill fuel' img x y fillColor = Done img'.
Proof.
  unfold floodFill. intros H Hle.
  destruct (out_of_bounds img (x, y)); [assumption|].
  destruct (getPixel img x y); [|discriminate].
  destruct (Color_eqb _ _); [assumption|].
  rewrite floodFill_loop_bfs in *. eapply bfs_loop_more_fuel; eassumption.
Qed.

(** A call seeded at a pixel that already has [fillColor] returns at
    once. *)
Lemma boundaryFill_seed_filled fuel img x y fillColor boundaryColor :
  pixel_at img (x, y) = Some fillColor ->
  boundaryFill fuel img x y fillColor boundaryColor = Done img.
Proof.
  unfold boundaryFill, pixel_at. simpl. intros ->.
  rewrite Color_eqb_refl, orb_true_r. destruct (out_of_bounds img (x, y)); reflexivity.
Qed.

Lemma floodFill_seed_filled fuel img x y fillColor :
  pixel_at img (x, y) = Some fillColor ->
  floodFill fuel img x y fillColor = Done img.
Proof.
  unfold floodFill, pixel_at. simpl. intros ->.
  rewrite Color_eqb_refl. destruct (out_of_bounds img (x, y)); reflexivity.
Qed.

(** ** The example grids *)

Ltac grid_5x3 p :=
  let px := fresh "px" in let py := fresh "py" in
  destruct p as [px py]; simpl in *;
  assert (px = 0 \/ px = 1 \/ px = 2 \/ px = 3 \/ px = 4) as [-> | [-> | [-> | [-> | ->]]]] by lia;
  (assert (py = 0 \/ py = 1 \/ py = 2) as [-> | [-> | ->]] by lia).

Lemma wall_image_wf : wf_image wall_image.
Proof. unfold wf_image, INT_MAX. simpl. split; [lia|]. split; [lia | reflexivity]. Defined.

Lemma framed_image_wf : wf_image framed_image.
Proof. unfold wf_image, INT_MAX. simpl. split; [lia|]. split; [lia | reflexivity]. Defined.

Lemma bordered_image_wf : wf_image bordered_image.
Proof. unfold wf_image, INT_MAX. simpl. split; [lia|]. split; [lia | reflexivity]. Defined.



Lemma bordered_image_frame : closed_frame bordered_image (border bordered_image) black.
Proof.
  unfold closed_frame. simpl. do 4 (split; [lia|]).
  intros p (H1 & H2 & H3). grid_5x3 p; try reflexivity; lia.
Defined.

(** ** The claims about the fills *)

(** C10: after [boundaryFill] or [floodFill] returns, every pixel of the
    grid holds its original colour or [fillColor]; the grid keeps its
    size. *)
Theorem fills_write_fillColor_only img x y fillColor boundaryColor fuel :
  wf_image img -> (enough_fuel img <= fuel)%nat ->
  (exists img', boundaryFill fuel img x y fillColor boundaryColor = Done img' /\
     size_x img' = size_x img /\ size_y img' = size_y img /\
     forall p, in_grid img p ->
       pixel_at img' p = pixel_at img p \/ pixel_at img' p = Some fillColor) /\
  (exists img', floodFill fuel img x y fillColor = Done img' /\
     size_x img' = size_x img /\ size_y img' = size_y img /\
     forall p, in_grid img p ->
       pixel_at img' p = pixel_at img p \/ pixel_at img' p = Some fillColor).
Proof.
  intros Hwf Hfuel. split.
  - destruct (boundaryFill_cases fuel img x y fillColor boundaryColor Hwf Hfuel)
      as [[H _] | (img' & H & _ & Hr)].
    + exists img. auto.
    + exists img'. split; [assumption|].
      destruct (run_size _ _ _ _ _ Hr) as [Hx Hy]. split; [assumption|]. split; [assumption|].
      intros p Hp. destruct (pixel_at_is_Some img p Hwf Hp) as [c Hc].
      destruct (run_colour _ _ (boundary_skip_fill _ _) _ _ _ Hr p c Hp Hc) as [Hk | [_ Hk]];
        [left | right]; congruence.
  - destruct (floodFill_cases fuel img x y fillColor Hwf Hfuel)
      as [[H _] | (img' & bg & H & _ & _ & _ & Hr)].
    + exists img. auto.
    + exists img'. split; [assumption|].
      destruct (run_size _ _ _ _ _ Hr) as [Hx Hy]. split; [assumption|]. split; [assumption|].
      intros p Hp. destruct (pixel_at_is_Some img p Hwf Hp) as [c Hc].
      destruct (run_colour _ _ (flood_skip_fill _ _) _ _ _ Hr p c Hp Hc) as [Hk | [_ Hk]];
        [left | right]; congruence.
Qed.

Lemma fills_write_fillColor_only_witness :
  (exists img', boundaryFill 61 framed_image 1 1 red black = Done img' /\
     size_x img' = 5 /\ size_y img' = 3 /\
     forall p, in_grid framed_image p ->
       pixel_at img' p = pixel_at framed_image p \/ pixel_at img' p = Some red) /\
  (exists img', floodFill 61 framed_image 1 1 red = Done img' /\
     size_x img' = 5 /\ size_y img' = 3 /\
     forall p, in_grid framed_image p ->
       pixel_at img' p = pixel_at framed_image p \/ pixel_at img' p = Some red).
Proof.
  apply (fills_write_fillColor_only framed_image 1 1 red black 61 framed_image_wf).
  unfold enough_fuel. simpl. lia.
Defined.

(** C4: on every well-formed grid both fills terminate.  [fuel] bounds
    the number of queue entries popped: four per pixel of the grid and one
    for the seed always suffice, and more fuel does not change the
    result. *)
Theorem fills_terminate img x y fillColor boundaryColor :
  wf_image img ->
  (exists img', forall fuel, (4 * length (pixels img) + 1 <= fuel)%nat ->
     boundaryFill fuel img x y fillColor boundaryColor = Done img') /\
  (exists img', forall fuel, (4 * length (pixels img) + 1 <= fuel)%nat ->
     floodFill fuel img x y fillColor = Done img').
Proof.
  intros Hwf. split.
  - destruct (boundaryFill_cases (enough_fuel img) img x y fillColor boundaryColor Hwf (le_n _))
      as [[H _] | (img' & H & _ & _)]; eexists; intros fuel Hfuel;
      apply (boundaryFill_more_fuel _ _ _ _ _ _ _ _ H Hfuel).
  - destruct (floodFill_cases (enough_fuel img) img x y fillColor Hwf (le_n _))
      as [[H _] | (img' & bg & H & _)]; eexists; intros fuel Hfuel;
      apply (floodFill_more_fuel _ _ _ _ _ _ _ H Hfuel).
Qed.

Lemma fills_terminate_witness :
  (exists img', forall fuel, (4 * 15 + 1 <= fuel)%nat ->
     boundaryFill fuel framed_image 1 1 red black = Done img') /\
  (exists img', forall fuel, (4 * 15 + 1 <= fuel)%nat ->
     floodFill fuel framed_image 1 1 red = Done img').
Proof. exact (fills_terminate framed_image 1 1 red black framed_image_wf). Defined.

(** C9: [boundaryFill] returns the grid as it received it, without a
    fault, when the seed is outside the grid or the seed pixel already has
    [boundaryColor] or [fillColor]; so does [floodFill] when the seed is
    outside the grid or the seed pixel already has [fillColor]. *)
Theorem fills_noop img x y fillColor boundaryColor fuel :
  (~ in_grid img (x, y) \/ pixel_at img (x, y) = Some boundaryColor \/
   pixel_at img (x, y) = Some fillColor ->
   boundaryFill fuel img x y fillColor boundaryColor = Done img) /\
  (~ in_grid img (x, y) \/ pixel_at img (x, y) = Some fillColor ->
   floodFill fuel img x y fillColor = Done img).
Proof.
  unfold boundaryFill, floodFill, pixel_at. simpl. split; intros H.
  - destruct (out_of_bounds img (x, y)) eqn:Hb; [reflexivity|].
    apply out_of_bounds_false in Hb.
    destruct H as [H | [-> | ->]]; [contradiction | |];
      rewrite Color_eqb_refl; [reflexivity | rewrite orb_true_r; reflexivity].
  - destruct (out_of_bounds img (x, y)) eqn:Hb; [reflexivity|].
    apply out_of_bounds_false in Hb.
    destruct H as [H | ->]; [contradiction|].
    rewrite Color_eqb_refl. reflexivity.
Qed.

Lemma fills_noop_witness :
  boundaryFill 0 framed_image 7 1 red black = Done framed_image /\
  boundaryFill 0 framed_image 0 0 red black = Done framed_image /\
  boundaryFill 0 wall_image 2 1 red black = Done wall_image /\
  floodFill 0 framed_image (-1) 1 red = Done framed_image /\
  floodFill 0 wall_image 2 1 red = Done wall_image.
Proof.
  split; [| split; [| split; [| split]]].
  - apply (proj1 (fills_noop framed_image 7 1 red black 0)).
    left. unfold in_grid. simpl. lia.
  - apply (proj1 (fills_noop framed_image 0 0 red black 0)). right. left. reflexivity.
  - apply (proj1 (fills_noop wall_image 2 1 red black 0)). right. right. reflexivity.
  - apply (proj2 (fills_noop framed_image (-1) 1 red black 0)).
    left. unfold in_grid. simpl. lia.
  - apply (proj2 (fills_noop wall_image 2 1 red black 0)). right. reflexivity.
Defined.

(** C5: running a fill a second time with the same arguments changes
    nothing: the second call returns the grid the first one produced. *)
Theorem fills_idempotent img x y fillColor boundaryColor fuel :
  wf_image img -> (enough_fuel img <= fuel)%nat ->
  (exists img', boundaryFill fuel img x y fillColor boundaryColor = Done img' /\
     boundaryFill fuel img' x y fillColor boundaryColor = Done img') /\
  (exists img', floodFill fuel img x y fillColor = Done img' /\
     floodFill fuel img' x y fillColor = Done img').
Proof.
  intros Hwf Hfuel. split.
  - destruct (boundaryFill_cases fuel img x y fillColor boundaryColor Hwf Hfuel)
      as [[H _] | (img' & H & Hf & Hr)].
    + exists img. auto.
    + exists img'. split; [assumption|].
      apply boundaryFill_seed_filled.
      apply (run_seed_filled _ _ (boundary_skip_fill fillColor boundaryColor) img); assumption.
  - destruct (floodFill_cases fuel img x y fillColor Hwf Hfuel)
      as [[H _] | (img' & bg & H & Hg & Hc & Hne & Hr)].
    + exists img. auto.
    + exists img'. split; [assumption|].
      apply floodFill_seed_filled.
      apply (run_seed_filled _ _ (flood_skip_fill fillColor bg) img); try assumption.
      split; [assumption|]. exists bg. split; [assumption|].
      apply flood_skip_false. auto.
Qed.

Lemma fills_idempotent_witness :
  (exists img', boundaryFill 61 framed_image 1 1 red black = Done img' /\
     boundaryFill 61 img' 1 1 red black = Done img') /\
  (exists img', floodFill 61 bordered_image 2 1 red = Done img' /\
     floodFill 61 img' 2 1 red = Done img').
Proof.
  split.
  - apply (fills_idempotent framed_image 1 1 red black 61 framed_image_wf).
    unfold enough_fuel. simpl. lia.
  - apply (fills_idempotent bordered_image 2 1 red black 61 bordered_image_wf).
    unfold enough_fuel. simpl. lia.
Defined.

(** ** Flood fill recolours the component of the seed *)

Lemma has_color_fillable img fillColor backgroundColor p :
  backgroundColor <> fillColor ->
  has_color img backgroundColor p <->
  fillable (flood_skip fillColor backgroundColor) img p.
Proof.
  intros Hne. unfold has_color, fillable. split.
  - intros [Hg Hc]. split; [assumption|]. exists backgroundColor.
    split; [assumption|]. apply flood_skip_false. auto.
  - intros (Hg & c & Hc & Hs). apply flood_skip_false in Hs as [-> _]. auto.
Qed.

Lemma inside_border_in_grid img p : inside_frame (border img) p -> in_grid img p.
Proof. unfold inside_frame, border, in_grid. simpl. lia. Qed.

Lemma in_grid_border img p :
  in_grid img p -> inside_frame (border img) p \/ on_frame (border img) p.
Proof. unfold inside_frame, on_frame, border, in_grid. simpl. lia. Qed.

(** C3: when the seed lies in the grid and its colour [backgroundColor]
    differs from [fillColor], [floodFill] sets to [fillColor] exactly the
    pixels 4-connected to the seed through pixels of colour
    [backgroundColor] and leaves every other pixel as it was.  In
    particular, on a grid of colour [backgroundColor] inside a border of
    another colour, a seed inside turns the whole interior into
    [fillColor] and leaves the border untouched. *)
Theorem floodFill_exact img x y fillColor backgroundColor fuel :
  wf_image img -> in_grid img (x, y) ->
  pixel_at img (x, y) = Some backgroundColor -> backgroundColor <> fillColor ->
  (enough_fuel img <= fuel)%nat ->
  exists img', floodFill fuel img x y fillColor = Done img' /\
    (forall p, in_grid img p ->
       (connected (has_color img backgroundColor) (x, y) p ->
        pixel_at img' p = Some fillColor) /\
       (~ connected (has_color img backgroundColor) (x, y) p ->
        pixel_at img' p = pixel_at img p)) /\
    (forall boundaryColor,
       boundaryColor <> backgroundColor ->
       closed_frame img (border img) boundaryColor ->
       (forall p, inside_frame (border img) p -> pixel_at img p = Some backgroundColor) ->
       inside_frame (border img) (x, y) ->
       forall p, in_grid img p ->
         (inside_frame (border img) p -> pixel_at img' p = Some fillColor) /\
         (on_frame (border img) p -> pixel_at img' p = Some boundaryColor)).
Proof.
  intros Hwf Hseed Hbg Hne Hfuel.
  destruct (floodFill_cases fuel img x y fillColor Hwf Hfuel)
    as [[_ [H | H]] | (img' & bg & H & _ & Hc & _ & Hr)]; [contradiction | congruence |].
  assert (bg = backgroundColor) as -> by congruence.
  exists img'. split; [assumption|].
  assert (Hgen : forall p, in_grid img p ->
       (connected (has_color img backgroundColor) (x, y) p ->
        pixel_at img' p = Some fillColor) /\
       (~ connected (has_color img backgroundColor) (x, y) p ->
        pixel_at img' p = pixel_at img p)).
  { intros p Hp.
    destruct (run_from_seed _ _ (flood_skip_fill fillColor backgroundColor) img (x, y) img'
                Hr Hwf) with (p := p) as [Hin Hout]; [| assumption |].
    { apply has_color_fillable; [assumption | split; assumption]. }
    split; intros Hcon.
    - apply Hin. revert Hcon. apply connected_mono. intros q. apply has_color_fillable. assumption.
    - apply Hout. intros Hcon'. apply Hcon. revert Hcon'. apply connected_mono.
      intros q. apply has_color_fillable. assumption. }
  split; [exact Hgen|].
  intros boundaryColor Hbc (_ & _ & _ & _ & Hframe) Hinside Hs p Hp. split; intros Hq.
  - apply (Hgen p Hp).
    apply inside_frame_connected with (f := border img); [|assumption..].
    intros q Hq'. split; [apply inside_border_in_grid; assumption | auto].
  - rewrite <- (Hframe p Hq). apply (Hgen p Hp). intros Hcon.
    apply connected_end in Hcon as [_ Hcol]. rewrite (Hframe p Hq) in Hcol. congruence.
Qed.

Lemma floodFill_exact_witness :
  exists img', floodFill 61 bordered_image 2 1 red = Done img' /\
    (forall p, in_grid bordered_image p ->
       (connected (has_color bordered_image white) (2, 1) p ->
        pixel_at img' p = Some red) /\
       (~ connected (has_color bordered_image white) (2, 1) p ->
        pixel_at img' p = pixel_at bordered_image p)) /\
    (forall boundaryColor,
       boundaryColor <> white ->
       closed_frame bordered_image (border bordered_image) boundaryColor ->
       (forall p, inside_frame (border bordered_image) p ->
                  pixel_at bordered_image p = Some white) ->
       inside_frame (border bordered_image) (2, 1) ->
       forall p, in_grid bordered_image p ->
         (inside_frame (border bordered_image) p -> pixel_at img' p = Some red) /\
         (on_frame (border bordered_image) p -> pixel_at img' p = Some boundaryColor)).
Proof.
  apply (floodFill_exact bordered_image 2 1 red white 61 bordered_image_wf).
  - unfold in_grid. simpl. lia.
  - reflexivity.
  - discriminate.
  - unfold enough_fuel. simpl. lia.
Defined.

(** ** Boundary fill inside a closed frame *)




(** * Facts about binary32 arithmetic *)

Lemma digits2_pos_bounds m :
  2 ^ (Z.pos (digits2_pos m) - 1) <= Z.pos m < 2 ^ Z.pos (digits2_pos m).
Proof.
  induction m as [m IH | m IH |]; simpl digits2_pos.
  - rewrite Pos2Z.inj_succ. replace (Z.succ (Z.pos (digits2_pos m)) - 1) with (Z.pos (digits2_pos m)) by lia.
    rewrite Z.pow_succ_r by lia.
    replace (Z.pos (digits2_pos m)) with (Z.succ (Z.pos (digits2_pos m) - 1)) at 1 by lia.
    rewrite Z.pow_succ_r by lia. lia.
  - rewrite Pos2Z.inj_succ. replace (Z.succ (Z.pos (digits2_pos m)) - 1) with (Z.pos (digits2_pos m)) by lia.
    rewrite Z.pow_succ_r by lia.
    replace (Z.pos (digits2_pos m)) with (Z.succ (Z.pos (digits2_pos m) - 1)) at 1 by lia.
    rewrite Z.pow_succ_r by lia. lia.
  - simpl. lia.
Qed.

Lemma shr_1_m r : 0 <= shr_m r -> shr_m (shr_1 r) = shr_m r / 2.
Proof.
  destruct r as [m rb sb]. simpl. intros Hm.
  destruct m as [|[p|p|]|p]; simpl; try lia.
  - reflexivity.
  - apply (Z.div_unique _ 2 _ 1); lia.
  - apply (Z.div_unique _ 2 _ 0); lia.
  - reflexivity.
Qed.

Lemma shr_1_nonneg r : 0 <= shr_m r -> 0 <= shr_m (shr_1 r).
Proof. intros H. rewrite shr_1_m by assumption. apply Z.div_pos; lia. Qed.

Lemma iter_shr_1_m p r :
  0 <= shr_m r -> shr_m (SpecFloat.iter_pos shr_1 p r) = shr_m r / 2 ^ Z.pos p.
Proof.
  revert r. induction p as [p IH | p IH |]; intros r Hr; simpl SpecFloat.iter_pos.
  - assert (H1 : 0 <= shr_m (shr_1 r)) by (apply shr_1_nonneg; assumption).
    assert (H2 : 0 <= shr_m (SpecFloat.iter_pos shr_1 p (shr_1 r))).
    { rewrite IH by assumption. apply Z.div_pos; lia. }
    rewrite IH, IH, shr_1_m by assumption.
    assert (Hp : 0 < 2 ^ Z.pos p) by (apply Z.pow_pos_nonneg; lia).
    rewrite !Z.div_div by lia. f_equal.
    replace (Z.pos p~1) with (1 + Z.pos p + Z.pos p) by lia.
    rewrite !Z.pow_add_r by lia. change (2 ^ 1) with 2. lia.
  - assert (H2 : 0 <= shr_m (SpecFloat.iter_pos shr_1 p r)).
    { rewrite IH by assumption. apply Z.div_pos; lia. }
    rewrite IH, IH by assumption.
    assert (Hp : 0 < 2 ^ Z.pos p) by (apply Z.pow_pos_nonneg; lia).
    rewrite !Z.div_div by lia. f_equal.
    replace (Z.pos p~0) with (Z.pos p + Z.pos p) by lia.
    rewrite !Z.pow_add_r by lia. lia.
  - rewrite shr_1_m by assumption. reflexivity.
Qed.

Lemma shr_fexp_pos m e l :
  0 < m -> emin32 <= e ->
  0 < shr_m (fst (shr_fexp prec emax m e l)) /\ emin32 <= snd (shr_fexp prec emax m e l).
Proof.
  intros Hm He. unfold shr_fexp, shr.
  assert (Hr : shr_m (shr_record_of_loc m l) = m) by (destruct l as [|[]]; reflexivity).
  destruct m as [|m|m]; try lia. simpl Zdigits2.
  pose proof (digits2_pos_bounds m) as [Hlo _].
  destruct (fexp prec emax (Z.pos (digits2_pos m) + e) - e) as [|n|n] eqn:Hn; simpl fst; simpl snd.
  - rewrite Hr. lia.
  - rewrite iter_shr_1_m by (rewrite Hr; lia). rewrite Hr.
    unfold fexp in Hn. fold emin32 in Hn. unfold prec in *.
    assert (Z.pos n = Z.pos (digits2_pos m) - 24) by lia.
    split; [|lia].
    apply Z.div_str_pos. split; [apply Z.pow_pos_nonneg; lia|].
    etransitivity; [|exact Hlo]. apply Z.pow_le_mono_r; lia.
  - rewrite Hr. lia.
Qed.

Lemma round_nearest_even_ge m l : m <= round_nearest_even m l.
Proof. destruct l as [|[]]; simpl; try lia. destruct (Z.even m); lia. Qed.

(** Rounding a non-zero number whose exponent is not below the smallest
    one gives a non-zero number of the same sign, or overflows. *)
Lemma binary_round_aux_pos s m e l :
  0 < m -> emin32 <= e ->
  (exists m' e', binary_round_aux prec emax s m e l = S754_finite s m' e') \/
  binary_round_aux prec emax s m e l = S754_infinity s.
Proof.
  intros Hm He. unfold binary_round_aux.
  pose proof (shr_fexp_pos m e l Hm He) as [H1 H1e].
  destruct (shr_fexp prec emax m e l) as [r1 e1]. simpl fst in *; simpl snd in *.
  pose proof (round_nearest_even_ge (shr_m r1) (loc_of_shr_record r1)) as Hge.
  pose proof (shr_fexp_pos (round_nearest_even (shr_m r1) (loc_of_shr_record r1)) e1 loc_Exact
                ltac:(lia) H1e) as [H2 _].
  destruct (shr_fexp prec emax _ e1 loc_Exact) as [r2 e2]. simpl fst in *.
  destruct (shr_m r2) as [|m2|m2]; try lia.
  destruct (e2 <=? emax - prec); eauto.
Qed.

Lemma shl_align_exp m e e' : Z.min e e' <= snd (shl_align m e e').
Proof. unfold shl_align. destruct (e' - e) eqn:H; simpl; lia. Qed.

Lemma binary_round_pos s m e :
  emin32 <= e ->
  (exists m' e', binary_round prec emax s m e = S754_finite s m' e') \/
  binary_round prec emax s m e = S754_infinity s.
Proof.
  intros He. unfold binary_round.
  pose proof (shl_align_exp m e (fexp prec emax (Z.pos (digits2_pos m) + e))) as Hs.
  destruct (shl_align m e _) as [mz ez]. simpl in Hs.
  apply binary_round_aux_pos; [lia|].
  unfold fexp in Hs. fold emin32 in Hs. lia.
Qed.

(** The sign chosen for a rounded number does not affect its magnitude. *)
Lemma fabs_binary_round_aux s m e l :
  fabs (binary_round_aux prec emax s m e l) =
  fabs (binary_round_aux prec emax false m e l).
Proof.
  unfold binary_round_aux.
  destruct (shr_fexp prec emax m e l) as [r1 e1].
  destruct (shr_fexp prec emax _ e1 loc_Exact) as [r2 e2].
  destruct (shr_m r2); [reflexivity | | reflexivity].
  destruct (e2 <=? emax - prec); reflexivity.
Qed.

Lemma fabs_binary_normalize_opp z e :
  fabs (binary_normalize prec emax (- z) e false) =
  fabs (binary_normalize prec emax z e false).
Proof.
  destruct z as [|m|m]; simpl; [reflexivity | |]; unfold binary_round;
    destruct (shl_align m e _) as [mz ez].
  - apply fabs_binary_round_aux.
  - symmetry. apply fabs_binary_round_aux.
Qed.

(** [|x - y|] and [|y - x|] are the same value, also in the sign of a
    zero. *)
Lemma fabs_fsub_swap x y : fabs (fsub x y) = fabs (fsub y x).
Proof.
  destruct x as [sx | sx | | sx mx ex], y as [sy | sy | | sy my ey];
    try reflexivity; try (destruct sx, sy; reflexivity).
  unfold fsub, SFsub. rewrite (Z.min_comm ey ex).
  rewrite <- fabs_binary_normalize_opp. f_equal. f_equal. lia.
Qed.

Lemma feqb_zero_fabs d : feqb (fabs d) fzero = feqb d fzero.
Proof. destruct d as [s | s | | s m e]; try reflexivity; destruct s; reflexivity. Qed.

Lemma feqb_zero_inv d : feqb d fzero = true -> exists s, d = S754_zero s.
Proof.
  destruct d as [s | s | | s m e]; try discriminate; try (destruct s; discriminate); eauto.
Qed.

Lemma finite_exponent s m e :
  finite (S754_finite s m e) ->
  emin32 <= e /\ fexp prec emax (Z.pos (digits2_pos m) + e) = e.
Proof.
  intros [Hv _]. simpl in Hv. unfold bounded, canonical_mantissa in Hv.
  apply andb_true_iff in Hv as [Hc _]. apply Z.eqb_eq in Hc.
  split; [|assumption]. rewrite <- Hc. unfold fexp, emin32. lia.
Qed.

Lemma digits2_pos_iter m d :
  digits2_pos (Pos.iter xO m d) = (digits2_pos m + d)%positive.
Proof.
  induction d as [|d IH] using Pos.peano_ind.
  - simpl. lia.
  - rewrite Pos.iter_succ. simpl. rewrite IH. lia.
Qed.

Lemma SFcompare_refl s m e :
  SFcompare (S754_finite s m e) (S754_finite s m e) = Some Eq.
Proof.
  simpl. rewrite Z.compare_refl.
  assert (H : Pos.compare_cont Eq m m = Eq) by apply Pos.compare_refl.
  rewrite H. destruct s; reflexivity.
Qed.

(** Two numbers of the format with the same value have the same
    representation. *)
Lemma canonical_unique mx ex my ey d :
  fexp prec emax (Z.pos (digits2_pos mx) + ex) = ex ->
  fexp prec emax (Z.pos (digits2_pos my) + ey) = ey ->
  ex - ey = Z.neg d -> mx = Pos.iter xO my d -> False.
Proof.
  intros Hcx Hcy Hd ->. rewrite digits2_pos_iter in Hcx.
  replace (Z.pos (digits2_pos my + d) + ex) with (Z.pos (digits2_pos my) + ey) in Hcx by lia.
  lia.
Qed.

(** The difference of two numbers of the format is zero, a number, or an
    infinity (on overflow); zero only when the operands are equal. *)
Lemma fsub_finite x y :
  finite x -> finite y ->
  match fsub x y with
  | S754_zero _ => round_away x = round_away y /\ feqb x y = true
  | S754_nan => False
  | _ => True
  end.
Proof.
  intros Hx Hy.
  destruct x as [sx | sx | | sx mx ex], y as [sy | sy | | sy my ey];
    try (exfalso; exact (proj2 Hx)); try (exfalso; exact (proj2 Hy)).
  - destruct sx, sy; simpl; auto.
  - exact I.
  - exact I.
  - apply finite_exponent in Hx as [Hex Hcx]. apply finite_exponent in Hy as [Hey Hcy].
    unfold fsub, SFsub.
    set (ez := Z.min ex ey).
    set (z := cond_Zopp sx (Z.pos (shl_align mx ex ez).1) -
              cond_Zopp sy (Z.pos (shl_align my ey ez).1)).
    destruct z as [|m|m] eqn:Hz; simpl binary_normalize.
    + (* equal operands *)
      assert (sx = sy /\ mx = my /\ ex = ey) as (-> & -> & ->); [|split; [reflexivity|]].
      { subst z. unfold shl_align in Hz.
        destruct (Z.compare_spec ex ey) as [Heq | Hlt | Hgt].
        - subst ey. unfold ez in Hz. rewrite Z.min_id, Z.sub_diag in Hz. simpl in Hz.
          destruct sx, sy; simpl in Hz; try lia; (split; [reflexivity|]; split; [lia | reflexivity]).
        - exfalso. unfold ez in Hz. rewrite Z.min_l in Hz by lia.
          rewrite Z.sub_diag in Hz. simpl fst in Hz at 1.
          destruct (ex - ey) as [| d | d] eqn:Hd; try lia. simpl fst in Hz.
          assert (Hm : mx = Pos.iter xO my d) by (destruct sx, sy; simpl in Hz; lia).
          exact (canonical_unique mx ex my ey d Hcx Hcy Hd Hm).
        - exfalso. unfold ez in Hz. rewrite Z.min_r in Hz by lia.
          rewrite Z.sub_diag in Hz. simpl fst in Hz at 2.
          destruct (ey - ex) as [| d | d] eqn:Hd; try lia. simpl fst in Hz.
          assert (Hm : my = Pos.iter xO mx d) by (destruct sx, sy; simpl in Hz; lia).
          exact (canonical_unique my ey mx ex d Hcy Hcx Hd Hm). }
      unfold feqb, SFeqb. rewrite SFcompare_refl. reflexivity.
    + destruct (binary_round_pos false m ez) as [(m' & e' & ->) | ->]; [unfold ez; lia | exact I..].
    + destruct (binary_round_pos true m ez) as [(m' & e' & ->) | ->]; [unfold ez; lia | exact I..].
Qed.

(** ** Comparisons *)

Lemma SFcompare_antisym x y :
  SFcompare y x = option_map CompOpp (SFcompare x y).
Proof.
  destruct x as [sx | sx | | sx mx ex], y as [sy | sy | | sy my ey];
    try reflexivity; try (destruct sx; reflexivity); try (destruct sy; reflexivity);
    try (destruct sx, sy; reflexivity).
  simpl. rewrite (Z.compare_antisym ex ey).
  pose proof (Pos.compare_cont_antisym mx my Eq) as H. simpl CompOpp in H. rewrite <- H.
  destruct sx, sy; try reflexivity; destruct (ex ?= ey); simpl; try reflexivity.
Qed.

Lemma fgtb_asym x y : fgtb x y = true -> fgtb y x = false.
Proof.
  unfold fgtb, SFltb. rewrite (SFcompare_antisym x y).
  destruct (SFcompare x y) as [[]|]; simpl; congruence.
Qed.

Lemma finite_compare x y :
  finite x -> finite y -> exists c, SFcompare x y = Some c.
Proof.
  intros Hx Hy.
  destruct x as [sx | sx | | sx mx ex], y as [sy | sy | | sy my ey];
    try (exfalso; exact (proj2 Hx)); try (exfalso; exact (proj2 Hy)); simpl; eauto.
Qed.

Lemma fgtb_neither x y :
  finite x -> finite y -> fgtb x y = false -> fgtb y x = false -> feqb x y = true.
Proof.
  intros Hx Hy. unfold fgtb, feqb, SFltb, SFeqb. rewrite (SFcompare_antisym x y).
  destruct (finite_compare x y Hx Hy) as [[] ->]; simpl; congruence.
Qed.

Lemma feqb_fsub_zero x y :
  finite x -> finite y -> feqb x y = true -> feqb (fsub y x) fzero = true.
Proof.
  intros Hx Hy.
  destruct x as [sx | sx | | sx mx ex], y as [sy | sy | | sy my ey];
    try (exfalso; exact (proj2 Hx)); try (exfalso; exact (proj2 Hy)).
  - destruct sx, sy; reflexivity.
  - destruct sy; discriminate.
  - destruct sx; discriminate.
  - unfold feqb, SFeqb. simpl SFcompare.
    destruct sx, sy; try discriminate;
      destruct (Z.compare_spec ex ey) as [-> | |]; try discriminate;
      change (Pos.compare_cont Eq mx my) with (mx ?= my)%positive;
      destruct (Pos.compare_spec mx my) as [-> | |]; try discriminate; intros _;
      unfold fsub, SFsub; rewrite Z.sub_diag; reflexivity.
Qed.

Lemma fabs_not_below_zero d s : SFltb (fabs d) (S754_zero s) = false.
Proof. destruct d as [sd | sd | | sd md ed]; reflexivity. Qed.

Lemma not_above_zero d :
  d <> S754_nan -> SFltb fzero (fabs d) = false -> feqb d fzero = true.
Proof.
  destruct d as [sd | sd | | sd md ed]; simpl; try discriminate; try congruence.
  destruct sd; reflexivity.
Qed.

Lemma fsub_not_nan x y : finite x -> finite y -> fsub x y <> S754_nan.
Proof.
  intros Hx Hy H. pose proof (fsub_finite x y Hx Hy) as Hs. rewrite H in Hs. exact Hs.
Qed.

Lemma iround_fsub_zero x y :
  finite x -> finite y -> feqb (fsub x y) fzero = true -> iround x = iround y.
Proof.
  intros Hx Hy Hz. apply feqb_zero_inv in Hz as [s Hs].
  pose proof (fsub_finite x y Hx Hy) as H. rewrite Hs in H. destruct H as [H _].
  unfold iround. rewrite H. reflexivity.
Qed.

(** ** Rounding to an integer is monotone *)

Lemma emin32_value : emin32 = -149.
Proof. reflexivity. Qed.

Lemma round_half_up_scaled m e :
  -149 <= e ->
  round_half_up m e = (2 * (Z.pos m * 2 ^ (e + 149)) + 2 ^ 149) / 2 ^ 150.
Proof.
  intros He. unfold round_half_up. destruct (0 <=? e) eqn:H0.
  - apply Z.leb_le in H0. rewrite Z.pow_add_r by lia.
    replace (2 * (Z.pos m * (2 ^ e * 2 ^ 149)) + 2 ^ 149)
      with (2 ^ 149 * (2 * (Z.pos m * 2 ^ e) + 1)) by ring.
    change (2 ^ 150) with (2 ^ 149 * 2).
    rewrite Z.div_mul_cancel_l by lia.
    generalize (Z.pos m * 2 ^ e). intros k. apply (Z.div_unique _ 2 _ 1); lia.
  - apply Z.leb_gt in H0.
    replace (2 ^ 149) with (2 ^ (e + 149) * 2 ^ (- e))
      by (rewrite <- Z.pow_add_r by lia; f_equal; lia).
    replace (2 ^ 150) with (2 ^ (e + 149) * 2 ^ (1 - e))
      by (rewrite <- Z.pow_add_r by lia; f_equal; lia).
    replace (2 * (Z.pos m * 2 ^ (e + 149)) + 2 ^ (e + 149) * 2 ^ (- e))
      with (2 ^ (e + 149) * (2 * Z.pos m + 2 ^ (- e))) by ring.
    assert (0 < 2 ^ (e + 149)) by (apply Z.pow_pos_nonneg; lia).
    assert (0 < 2 ^ (1 - e)) by (apply Z.pow_pos_nonneg; lia).
    rewrite Z.div_mul_cancel_l by lia. reflexivity.
Qed.

Lemma round_half_up_nonneg m e : 0 <= round_half_up m e.
Proof.
  unfold round_half_up. destruct (0 <=? e) eqn:H0.
  - apply Z.leb_le in H0. assert (0 < 2 ^ e) by (apply Z.pow_pos_nonneg; lia). nia.
  - apply Z.leb_gt in H0.
    assert (0 < 2 ^ (- e)) by (apply Z.pow_pos_nonneg; lia).
    assert (0 < 2 ^ (1 - e)) by (apply Z.pow_pos_nonneg; lia).
    apply Z.div_pos; lia.
Qed.

(** Among numbers of the format, the order on (exponent, significand)
    is the order on values. *)
Lemma canonical_order m1 e1 m2 e2 :
  emin32 <= e1 ->
  fexp prec emax (Z.pos (digits2_pos m1) + e1) = e1 ->
  fexp prec emax (Z.pos (digits2_pos m2) + e2) = e2 ->
  e1 < e2 \/ (e1 = e2 /\ (m1 <= m2)%positive) ->
  Z.pos m1 * 2 ^ (e1 + 149) <= Z.pos m2 * 2 ^ (e2 + 149).
Proof.
  rewrite emin32_value. unfold fexp. change (emin prec emax) with (-149). unfold prec.
  intros He1 Hc1 Hc2 [Hlt | [-> Hle]].
  - pose proof (digits2_pos_bounds m1) as [_ Hhi].
    pose proof (digits2_pos_bounds m2) as [Hlo _].
    assert (Hd1 : Z.pos (digits2_pos m1) <= 24) by lia.
    assert (Hd2 : Z.pos (digits2_pos m2) = 24) by lia.
    rewrite Hd2 in Hlo. simpl in Hlo.
    assert (H1 : Z.pos m1 < 2 ^ 24).
    { eapply Z.lt_le_trans; [exact Hhi|]. apply Z.pow_le_mono_r; lia. }
    assert (Hp1 : 0 < 2 ^ (e1 + 149)) by (apply Z.pow_pos_nonneg; lia).
    assert (Hp2 : 2 ^ (e2 + 149) = 2 ^ (e1 + 149) * 2 ^ (e2 - e1)).
    { rewrite <- Z.pow_add_r by lia. f_equal. lia. }
    assert (Hp3 : 2 ^ 1 <= 2 ^ (e2 - e1)) by (apply Z.pow_le_mono_r; lia).
    change (2 ^ 1) with 2 in Hp3. change (2 ^ 24) with 16777216 in H1.
    change (2 ^ 23) with 8388608 in Hlo.
    rewrite Hp2. nia.
  - assert (Hp1 : 0 < 2 ^ (e2 + 149)) by (apply Z.pow_pos_nonneg; lia).
    apply Z.mul_le_mono_nonneg_r; lia.
Qed.

Lemma round_half_up_mono m1 e1 m2 e2 :
  finite (S754_finite false m1 e1) -> finite (S754_finite false m2 e2) ->
  e1 < e2 \/ (e1 = e2 /\ (m1 <= m2)%positive) ->
  round_half_up m1 e1 <= round_half_up m2 e2.
Proof.
  intros H1 H2 Hord.
  apply finite_exponent in H1 as [He1 Hc1]. apply finite_exponent in H2 as [He2 Hc2].
  rewrite emin32_value in *.
  rewrite !round_half_up_scaled by lia.
  apply Z.div_le_mono; [reflexivity|].
  pose proof (canonical_order m1 e1 m2 e2 ltac:(rewrite emin32_value; lia) Hc1 Hc2 Hord). lia.
Qed.

Lemma finite_sign s s' m e : finite (S754_finite s m e) -> finite (S754_finite s' m e).
Proof. intros [H _]. split; [exact H | exact I]. Qed.

Lemma round_away_mono x y zx zy :
  finite x -> finite y -> fgtb x y = false ->
  round_away x = Some zx -> round_away y = Some zy -> zx <= zy.
Proof.
  intros Hx Hy. unfold fgtb, SFltb. rewrite (SFcompare_antisym x y).
  destruct x as [sx | sx | | sx mx ex], y as [sy | sy | | sy my ey];
    try (exfalso; exact (proj2 Hx)); try (exfalso; exact (proj2 Hy));
    simpl; intros Hc [= <-] [= <-].
  - lia.
  - pose proof (round_half_up_nonneg my ey). destruct sy; simpl in *; [discriminate | lia].
  - pose proof (round_half_up_nonneg mx ex). destruct sx; simpl in *; [lia | discriminate].
  - pose proof (round_half_up_nonneg mx ex). pose proof (round_half_up_nonneg my ey).
    change (PosDef.Pos.compare_cont Eq mx my) with (mx ?= my)%positive in Hc.
    destruct sx, sy; simpl in *; try lia; try discriminate.
    + (* both negative *)
      assert (round_half_up my ey <= round_half_up mx ex); [|lia].
      apply round_half_up_mono; try (eapply finite_sign; eassumption).
      destruct (Z.compare_spec ex ey) as [-> | |]; simpl in Hc; try discriminate; [|left; lia].
      right. split; [reflexivity|].
      destruct (Pos.compare_spec mx my); simpl in Hc; try discriminate; lia.
    + assert (round_half_up mx ex <= round_half_up my ey); [|lia].
      apply round_half_up_mono; try assumption.
      destruct (Z.compare_spec ex ey) as [-> | |]; simpl in Hc; try discriminate; [|left; lia].
      right. split; [reflexivity|].
      destruct (Pos.compare_spec mx my); simpl in Hc; try discriminate; lia.
Qed.

Lemma iround_Done f z : iround f = Done z -> round_away f = Some z.
Proof.
  unfold iround. destruct (round_away f) as [z'|]; [|discriminate].
  destruct (_ && _); [|discriminate]. intros [= ->]. reflexivity.
Qed.

Lemma iround_mono x y zx zy :
  finite x -> finite y -> fgtb x y = false ->
  iround x = Done zx -> iround y = Done zy -> zx <= zy.
Proof.
  intros Hx Hy Hc H1 H2. apply iround_Done in H1, H2.
  exact (round_away_mono x y zx zy Hx Hy Hc H1 H2).
Qed.

(** ** Where the line walk starts and ends *)

Lemma bind_Done {A B} (m : outcome A) (k : A -> outcome B) b :
  bind m k = Done b -> exists a, m = Done a /\ k a = Done b.
Proof. destruct m; simpl; try discriminate. eauto. Qed.

Lemma line_loop_first n steep x y m color l :
  line_loop (S n) steep x y m color = Done l ->
  exists ry rest, iround y = Done ry /\
    l = putPixel (if steep then ry else x) (if steep then x else ry) color :: rest.
Proof.
  simpl. intros H. apply bind_Done in H as (ry & Hry & H).
  apply bind_Done in H as (rest & _ & H). injection H as <-. eauto.
Qed.

Lemma line_loop_last n steep x y m color l :
  line_loop (S n) steep x y m color = Done l ->
  exists p, last l = Some p /\ plot_walked steep p = x + Z.of_nat n.
Proof.
  revert x y l. induction n as [|n IH]; intros x y l H.
  - simpl in H. apply bind_Done in H as (ry & Hry & H). injection H as <-.
    eexists. split; [reflexivity|]. destruct steep; simpl; lia.
  - remember (S n) as k. simpl in H. apply bind_Done in H as (ry & Hry & H).
    apply bind_Done in H as (rest & Hrest & H). injection H as <-. subst k.
    destruct (IH _ _ _ Hrest) as (p & Hp & Hw). exists p. split.
    + destruct rest as [|r rest]; [discriminate|]. exact Hp.
    + rewrite Hw. lia.
Qed.

(** ** Integers below 2^24

    The conversion of such an integer to [float] is exact, and so are the
    differences and products of such integers as long as they stay below
    2^24. *)

Lemma digits2_pos_unique m n :
  2 ^ (n - 1) <= Z.pos m < 2 ^ n -> Z.pos (digits2_pos m) = n.
Proof.
  intros [Hlo Hhi]. pose proof (digits2_pos_bounds m) as [Dlo Dhi].
  set (d := Z.pos (digits2_pos m)) in *.
  assert (Hn : 0 < n).
  { destruct (Z_lt_le_dec 0 n); [assumption|]. exfalso.
    assert (2 ^ n <= 2 ^ 0) by (destruct (Z_lt_le_dec n 0);
      [rewrite Z.pow_neg_r by lia; simpl; lia | apply Z.pow_le_mono_r; lia]).
    simpl in *. lia. }
  destruct (Z_lt_le_dec d n) as [Hlt | Hge].
  - exfalso. assert (2 ^ d <= 2 ^ (n - 1)) by (apply Z.pow_le_mono_r; lia). lia.
  - destruct (Z_lt_le_dec n d) as [Hlt | Hle]; [|lia].
    exfalso. assert (2 ^ n <= 2 ^ (d - 1)) by (apply Z.pow_le_mono_r; lia). lia.
Qed.

Lemma digits2_pos_shift m v k :
  0 <= k -> Z.pos m = Z.pos v * 2 ^ k ->
  Z.pos (digits2_pos m) = Z.pos (digits2_pos v) + k.
Proof.
  intros Hk Hm. apply digits2_pos_unique. rewrite Hm.
  pose proof (digits2_pos_bounds v) as [Dlo Dhi].
  assert (Hp : 0 < 2 ^ k) by (apply Z.pow_pos_nonneg; lia).
  replace (Z.pos (digits2_pos v) + k - 1) with (Z.pos (digits2_pos v) - 1 + k) by lia.
  rewrite !Z.pow_add_r by lia. split.
  - apply Z.mul_le_mono_nonneg_r; lia.
  - apply Z.mul_lt_mono_pos_r; lia.
Qed.

Lemma integer_significand_value v :
  Z.pos (digits2_pos v) <= 24 ->
  Z.pos (integer_significand v) = Z.pos v * 2 ^ (24 - Z.pos (digits2_pos v)).
Proof.
  intros Hd. unfold integer_significand. apply Z2Pos.id.
  assert (0 < 2 ^ (24 - Z.pos (digits2_pos v))) by (apply Z.pow_pos_nonneg; lia). lia.
Qed.

Lemma integer_significand_digits v :
  Z.pos (digits2_pos v) <= 24 -> Z.pos (digits2_pos (integer_significand v)) = 24.
Proof.
  intros Hd. rewrite (digits2_pos_shift _ v (24 - Z.pos (digits2_pos v))); [lia | lia |].
  apply integer_significand_value. assumption.
Qed.

Lemma shr_1_double x :
  0 <= x ->
  shr_1 {| shr_m := 2 * x; shr_r := false; shr_s := false |} =
  {| shr_m := x; shr_r := false; shr_s := false |}.
Proof. destruct x as [|p|p]; [reflexivity | reflexivity | lia]. Qed.

(** Shifting out zeros leaves no remainder. *)
Lemma iter_shr_1_exact p x :
  0 <= x ->
  SpecFloat.iter_pos shr_1 p {| shr_m := x * 2 ^ Z.pos p; shr_r := false; shr_s := false |} =
  {| shr_m := x; shr_r := false; shr_s := false |}.
Proof.
  revert x. induction p as [p IH | p IH |]; intros x Hx; cbn [SpecFloat.iter_pos].
  - replace (x * 2 ^ Z.pos p~1) with (2 * (x * 2 ^ Z.pos p * 2 ^ Z.pos p)).
    2:{ replace (Z.pos p~1) with (1 + Z.pos p + Z.pos p) by lia.
        rewrite !Z.pow_add_r by lia. change (2 ^ 1) with 2. lia. }
    assert (0 <= x * 2 ^ Z.pos p) by (apply Z.mul_nonneg_nonneg; [lia | apply Z.pow_nonneg; lia]).
    rewrite shr_1_double by (apply Z.mul_nonneg_nonneg; [lia | apply Z.pow_nonneg; lia]).
    rewrite IH by assumption. apply IH. assumption.
  - replace (x * 2 ^ Z.pos p~0) with (x * 2 ^ Z.pos p * 2 ^ Z.pos p).
    2:{ replace (Z.pos p~0) with (Z.pos p + Z.pos p) by lia.
        rewrite !Z.pow_add_r by lia. lia. }
    assert (0 <= x * 2 ^ Z.pos p) by (apply Z.mul_nonneg_nonneg; [lia | apply Z.pow_nonneg; lia]).
    rewrite IH by assumption. apply IH. assumption.
  - change (2 ^ 1) with 2. rewrite Z.mul_comm. apply shr_1_double. assumption.
Qed.

Lemma fexp_small d : 1 <= d -> fexp prec emax d = d - 24.
Proof. intros Hd. unfold fexp, emin, prec, emax. lia. Qed.

(** Rounding a number that is an integer below 2^24 is exact. *)
Lemma binary_round_aux_integer s v m j :
  Z.pos (digits2_pos v) <= 24 -> 0 <= j ->
  Z.pos m = Z.pos (integer_significand v) * 2 ^ j ->
  binary_round_aux prec emax s (Z.pos m) (Z.pos (digits2_pos v) - 24 - j) loc_Exact =
  S754_finite s (integer_significand v) (Z.pos (digits2_pos v) - 24).
Proof.
  intros Hd Hj Hm. set (d := Z.pos (digits2_pos v)) in *.
  pose proof (integer_significand_digits v Hd) as Hc.
  pose proof (digits2_pos_shift m _ j Hj Hm) as Hdm. rewrite Hc in Hdm.
  unfold binary_round_aux, shr_fexp. simpl Zdigits2. rewrite Hdm.
  replace (24 + j + (d - 24 - j)) with d by lia.
  rewrite fexp_small by (unfold d; lia).
  replace (d - 24 - (d - 24 - j)) with j by lia.
  assert (Hshr : shr (shr_record_of_loc (Z.pos m) loc_Exact) (d - 24 - j) j =
                 ({| shr_m := Z.pos (integer_significand v); shr_r := false; shr_s := false |},
                  d - 24)).
  { destruct j as [|p|p]; [| |lia].
    - simpl. f_equal; [|lia]. f_equal. rewrite Hm. simpl. lia.
    - unfold shr. f_equal; [|lia]. simpl shr_record_of_loc. rewrite Hm.
      apply iter_shr_1_exact. lia. }
  rewrite Hshr. cbn [shr_m loc_of_shr_record round_nearest_even Zdigits2].
  rewrite Hc. replace (24 + (d - 24)) with d by lia.
  rewrite fexp_small by (unfold d; lia). rewrite Z.sub_diag.
  cbn [shr shr_record_of_loc shr_m].
  destruct (d - 24 <=? emax - prec) eqn:Hle; [reflexivity|].
  apply Z.leb_gt in Hle. unfold emax, prec in Hle. lia.
Qed.

Lemma iter_xO_value m q : Z.pos (Pos.iter xO m q) = Z.pos m * 2 ^ Z.pos q.
Proof.
  induction q as [|q IH] using Pos.peano_ind.
  - simpl. lia.
  - rewrite Pos.iter_succ, Pos2Z.inj_xO, IH, Pos2Z.inj_succ, Z.pow_succ_r by lia. lia.
Qed.

Lemma small_digits v : Z.pos v < 2 ^ 24 -> Z.pos (digits2_pos v) <= 24.
Proof.
  intros Hv. pose proof (digits2_pos_bounds v) as [Dlo _].
  destruct (Z_le_gt_dec (Z.pos (digits2_pos v)) 24) as [|Hgt]; [assumption|]. exfalso.
  assert (2 ^ 24 <= 2 ^ (Z.pos (digits2_pos v) - 1)) by (apply Z.pow_le_mono_r; lia). lia.
Qed.

Lemma binary_round_integer s m e v :
  e <= 0 -> Z.pos m = Z.pos v * 2 ^ (- e) -> Z.pos v < 2 ^ 24 ->
  binary_round prec emax s m e =
  S754_finite s (integer_significand v) (Z.pos (digits2_pos v) - 24).
Proof.
  intros He Hm Hv. pose proof (small_digits v Hv) as Hd.
  set (d := Z.pos (digits2_pos v)) in *.
  pose proof (integer_significand_value v Hd) as Hc. fold d in Hc.
  unfold binary_round. rewrite (digits2_pos_shift m v (- e)) by (lia || assumption). fold d.
  replace (d + - e + e) with d by lia. rewrite fexp_small by (unfold d; lia).
  unfold shl_align. destruct (d - 24 - e) as [|q|q] eqn:Hq.
  - replace e with (d - 24 - 0) at 1 by lia. apply binary_round_aux_integer; [assumption | lia |].
    rewrite Hm, Hc, <- Z.mul_assoc, <- Z.pow_add_r by lia. do 2 f_equal. lia.
  - replace e with (d - 24 - Z.pos q) at 1 by lia.
    apply binary_round_aux_integer; [assumption | lia |].
    rewrite Hm, Hc, <- Z.mul_assoc, <- Z.pow_add_r by lia. do 2 f_equal. lia.
  - replace (d - 24) with (d - 24 - 0) at 1 by lia.
    apply binary_round_aux_integer; [assumption | lia |].
    rewrite iter_xO_value, Hm, Hc, <- !Z.mul_assoc, <- !Z.pow_add_r by lia.
    do 2 f_equal. lia.
Qed.

(** The result of an operation whose exact value is the integer [z]. *)
Lemma binary_normalize_holds M e z :
  e <= 0 -> M = z * 2 ^ (- e) -> Z.abs z < 2 ^ 24 ->
  holds (binary_normalize prec emax M e false) z.
Proof.
  intros He HM Hz.
  assert (Hp : 0 < 2 ^ (- e)) by (apply Z.pow_pos_nonneg; lia).
  destruct z as [|v|v].
  - subst M. simpl. exists false. reflexivity.
  - destruct M as [|m|m]; try lia. simpl.
    apply binary_round_integer; [assumption | assumption | lia].
  - destruct M as [|m|m]; try lia. simpl.
    apply binary_round_integer; [assumption | lia | lia].
Qed.

Lemma float_of_Z_holds z : Z.abs z < 2 ^ 24 -> holds (float_of_Z z) z.
Proof.
  intros Hz. unfold float_of_Z. apply binary_normalize_holds; [lia | simpl; lia | assumption].
Qed.

(** A float that holds a non-zero integer: its sign, significand and
    exponent. *)
Lemma holds_finite f z :
  z <> 0 -> Z.abs z < 2 ^ 24 -> holds f z ->
  exists s m e, f = S754_finite s m e /\ -23 <= e <= 0 /\
    cond_Zopp s (Z.pos m) = z * 2 ^ (- e).
Proof.
  intros Hz Hb H. destruct z as [|v|v]; [contradiction| |]; simpl in H; subst f;
    pose proof (small_digits v ltac:(lia)) as Hd;
    pose proof (integer_significand_value v Hd) as Hc;
    pose proof (Pos2Z.is_pos (digits2_pos v));
    eexists _, _, _; (split; [reflexivity|]); (split; [lia|]); simpl cond_Zopp; rewrite Hc;
    replace (- (Z.pos (digits2_pos v) - 24)) with (24 - Z.pos (digits2_pos v)) by lia; lia.
Qed.

Lemma shl_align_value m e e' :
  e' <= e -> Z.pos (fst (shl_align m e e')) = Z.pos m * 2 ^ (e - e').
Proof.
  intros He. unfold shl_align. destruct (e' - e) as [|q|q] eqn:Hq; simpl fst.
  - replace (e - e') with 0 by lia. simpl. lia.
  - lia.
  - rewrite iter_xO_value. do 2 f_equal. lia.
Qed.

Lemma cond_Zopp_mul s x y : cond_Zopp s (x * y) = cond_Zopp s x * y.
Proof. destruct s; simpl; lia. Qed.

Lemma fsub_holds fa fb a b :
  Z.abs a < 2 ^ 24 -> Z.abs b < 2 ^ 24 -> Z.abs (a - b) < 2 ^ 24 ->
  holds fa a -> holds fb b -> holds (fsub fa fb) (a - b).
Proof.
  intros Ha Hb Hab Hfa Hfb.
  destruct (decide (a = 0)) as [->|Hna]; [|destruct (decide (b = 0)) as [->|Hnb]].
  - destruct Hfa as [s ->]. destruct b as [|v|v]; simpl in Hfb.
    + destruct Hfb as [s' ->]. destruct s, s'; eexists; reflexivity.
    + subst fb. reflexivity.
    + subst fb. reflexivity.
  - destruct Hfb as [s' ->]. rewrite Z.sub_0_r.
    destruct (holds_finite fa a Hna Ha Hfa) as (s & m & e & Hf & _ & _).
    rewrite Hf in Hfa |- *. exact Hfa.
  - destruct (holds_finite fa a Hna Ha Hfa) as (sa & ma & ea & -> & Hea & Hma).
    destruct (holds_finite fb b Hnb Hb Hfb) as (sb & mb & eb & -> & Heb & Hmb).
    unfold fsub, SFsub. apply binary_normalize_holds; [lia | | assumption].
    rewrite !shl_align_value by lia. rewrite !cond_Zopp_mul, Hma, Hmb.
    rewrite <- !Z.mul_assoc, <- !Z.pow_add_r by lia.
    replace (- ea + (ea - Z.min ea eb)) with (- Z.min ea eb) by lia.
    replace (- eb + (eb - Z.min ea eb)) with (- Z.min ea eb) by lia. lia.
Qed.

Lemma digits2_pos_mul va vb :
  Z.pos (digits2_pos va) + Z.pos (digits2_pos vb) - 1 <= Z.pos (digits2_pos (va * vb)).
Proof.
  pose proof (digits2_pos_bounds va) as [Alo _].
  pose proof (digits2_pos_bounds vb) as [Blo _].
  pose proof (digits2_pos_bounds (va * vb)) as [_ Phi].
  set (da := Z.pos (digits2_pos va)) in *. set (db := Z.pos (digits2_pos vb)) in *.
  set (d := Z.pos (digits2_pos (va * vb))) in *.
  assert (1 <= da) by (unfold da; lia). assert (1 <= db) by (unfold db; lia).
  destruct (Z_le_gt_dec (da + db - 1) d) as [|Hgt]; [assumption|]. exfalso.
  assert (H1 : 2 ^ (da - 1) * 2 ^ (db - 1) <= Z.pos va * Z.pos vb)
    by (apply Z.mul_le_mono_nonneg; try assumption; apply Z.pow_nonneg; lia).
  rewrite <- Z.pow_add_r in H1 by lia.
  assert (2 ^ d <= 2 ^ (da - 1 + (db - 1))) by (apply Z.pow_le_mono_r; lia).
  rewrite Pos2Z.inj_mul in Phi. lia.
Qed.

Lemma fmul_holds fa fb a b :
  Z.abs a < 2 ^ 24 -> Z.abs b < 2 ^ 24 -> Z.abs (a * b) < 2 ^ 24 ->
  holds fa a -> holds fb b -> holds (fmul fa fb) (a * b).
Proof.
  intros Ha Hb Hab Hfa Hfb.
  destruct (decide (a = 0)) as [->|Hna]; [|destruct (decide (b = 0)) as [->|Hnb]].
  - destruct Hfa as [s ->]. simpl Z.mul.
    destruct b as [|v|v]; simpl in Hfb; [destruct Hfb as [s' ->]| |]; subst;
      eexists; reflexivity.
  - destruct Hfb as [s' ->]. rewrite Z.mul_0_r.
    destruct (holds_finite fa a Hna Ha Hfa) as (s & m & e & -> & _ & _).
    eexists. reflexivity.
  - assert (Hgen : forall va vb sa sb,
              Z.pos (va * vb) < 2 ^ 24 ->
              fmul (S754_finite sa (integer_significand va) (Z.pos (digits2_pos va) - 24))
                   (S754_finite sb (integer_significand vb) (Z.pos (digits2_pos vb) - 24)) =
              S754_finite (xorb sa sb) (integer_significand (va * vb))
                (Z.pos (digits2_pos (va * vb)) - 24)).
    { intros va vb sa sb Hv.
      assert (Hva : Z.pos va < 2 ^ 24) by (rewrite Pos2Z.inj_mul in Hv; nia).
      assert (Hvb : Z.pos vb < 2 ^ 24) by (rewrite Pos2Z.inj_mul in Hv; nia).
      pose proof (small_digits _ Hva) as Hda. pose proof (small_digits _ Hvb) as Hdb.
      pose proof (small_digits _ Hv) as Hd. pose proof (digits2_pos_mul va vb) as Hdm.
      pose proof (integer_significand_value _ Hda) as Hca.
      pose proof (integer_significand_value _ Hdb) as Hcb.
      pose proof (integer_significand_value _ Hd) as Hc.
      set (da := Z.pos (digits2_pos va)) in *. set (db := Z.pos (digits2_pos vb)) in *.
      set (d := Z.pos (digits2_pos (va * vb))) in *.
      unfold fmul, SFmul.
      replace (da - 24 + (db - 24)) with (d - 24 - (24 + d - da - db)) by lia.
      apply binary_round_aux_integer; [assumption | lia |].
      rewrite Pos2Z.inj_mul, Hca, Hcb, Hc, Pos2Z.inj_mul.
      rewrite <- !Z.mul_assoc, <- Z.pow_add_r by lia.
      replace (24 - d + (24 + d - da - db)) with ((24 - da) + (24 - db)) by lia.
      rewrite Z.pow_add_r by lia. lia. }
    destruct a as [|va|va], b as [|vb|vb]; try contradiction; simpl in Hfa, Hfb; subst;
      rewrite Hgen by (simpl in Hab; lia); reflexivity.
Qed.

(** The sign tests of the code on a float that holds an integer. *)
Lemma holds_sign f z :
  holds f z -> fgtb f fzero = (0 <? z) /\ fltb f fzero = (z <? 0).
Proof.
  destruct z as [|v|v]; simpl; [intros [s ->]; destruct s | intros -> | intros ->];
    split; reflexivity.
Qed.

Lemma holds_scaled f z : Z.abs z < 2 ^ 24 -> holds f z -> scaled f = Some (z * 2 ^ 149).
Proof.
  intros Hz H. destruct (decide (z = 0)) as [->|Hn].
  - destruct H as [s ->]. reflexivity.
  - destruct (holds_finite f z Hn Hz H) as (s & m & e & -> & He & Hm).
    simpl scaled. rewrite Hm, <- Z.mul_assoc, <- Z.pow_add_r by lia.
    do 3 f_equal. lia.
Qed.

Lemma holds_integer_value f z : Z.abs z < 2 ^ 24 -> holds f z -> integer_value f = Some z.
Proof.
  intros Hz H. unfold integer_value. rewrite (holds_scaled f z Hz H).
  rewrite Z.mod_mul, Z.div_mul by lia. reflexivity.
Qed.

(** ** The line rasteriser *)

Lemma iround_finite f z :
  valid_binary prec emax f = true -> iround f = Done z -> finite f.
Proof.
  intros Hv H. split; [assumption|].
  destruct f; try exact I; discriminate.
Qed.

Lemma same_point_sym a b : same_point b a = same_point a b.
Proof.
  unfold same_point.
  rewrite <- (feqb_zero_fabs (fsub (v_x a) (v_x b))), <- (feqb_zero_fabs (fsub (v_y a) (v_y b))).
  rewrite (fabs_fsub_swap (v_x a)), (fabs_fsub_swap (v_y a)), !feqb_zero_fabs. reflexivity.
Qed.

Lemma steep_line_sym a b : steep_line b a = steep_line a b.
Proof.
  unfold steep_line. rewrite (fabs_fsub_swap (v_y a)), (fabs_fsub_swap (v_x a)). reflexivity.
Qed.

(** The two calls agree as soon as a single-point line rounds the same
    from both ends and, otherwise, one end comes strictly first on the walked
    axis. *)
Lemma line_symmetric_core a b color :
  (same_point a b = true ->
   iround (v_x a) = iround (v_x b) /\ iround (v_y a) = iround (v_y b)) ->
  (same_point a b = false ->
   fgtb (walked (steep_line a b) a) (walked (steep_line a b) b) = false ->
   fgtb (walked (steep_line a b) b) (walked (steep_line a b) a) = false -> False) ->
  drawLineIncremental a b color = drawLineIncremental b a color.
Proof.
  intros Hsame Hlevel. unfold drawLineIncremental.
  fold (same_point a b). fold (same_point b a). rewrite (same_point_sym a b).
  fold (steep_line a b). fold (steep_line b a). rewrite (steep_line_sym a b).
  destruct (same_point a b) eqn:Hdeg.
  { destruct (Hsame eq_refl) as [-> ->]. reflexivity. }
  specialize (Hlevel eq_refl). revert Hlevel.
  destruct a as [ax ay], b as [bx by_].
  destruct (steep_line _ _); simpl swap_if; cbv iota beta; simpl walked; intros Hlevel.
  - destruct (fgtb ay by_) eqn:H1, (fgtb by_ ay) eqn:H2; simpl;
      [apply fgtb_asym in H1; congruence | reflexivity | reflexivity | exfalso; auto].
  - destruct (fgtb ax bx) eqn:H1, (fgtb bx ax) eqn:H2; simpl;
      [apply fgtb_asym in H1; congruence | reflexivity | reflexivity | exfalso; auto].
Qed.

(** Two distinct positions differ on the walked axis. *)
Lemma level_walk_same_point a b :
  finite (walked (steep_line a b) a) -> finite (walked (steep_line a b) b) ->
  finite (secondary (steep_line a b) a) -> finite (secondary (steep_line a b) b) ->
  fgtb (walked (steep_line a b) a) (walked (steep_line a b) b) = false ->
  fgtb (walked (steep_line a b) b) (walked (steep_line a b) a) = false ->
  same_point a b = true.
Proof.
  destruct a as [ax ay], b as [bx by_]. unfold same_point. simpl v_x. simpl v_y.
  destruct (steep_line _ _) eqn:Hsteep; unfold steep_line in Hsteep; simpl in Hsteep |- *;
    intros Ha Hb Ha' Hb' H1 H2.
  - exfalso. pose proof (fgtb_neither ay by_ Ha Hb H1 H2) as He.
    apply (feqb_fsub_zero ay by_ Ha Hb) in He. apply feqb_zero_inv in He as [s Hs].
    rewrite Hs in Hsteep. unfold fgtb in Hsteep. simpl fabs in Hsteep at 2.
    rewrite fabs_not_below_zero in Hsteep. discriminate.
  - pose proof (fgtb_neither ax bx Ha Hb H1 H2) as He.
    apply (feqb_fsub_zero ax bx Ha Hb) in He. rewrite He. simpl.
    apply feqb_zero_inv in He as [s Hs].
    rewrite Hs in Hsteep. unfold fgtb in Hsteep. simpl fabs in Hsteep at 2.
    apply not_above_zero in Hsteep; [assumption|].
    apply fsub_not_nan; assumption.
Qed.

Lemma line_defined_same_point a b color l :
  same_point a b = true -> drawLineIncremental a b color = Done l ->
  exists px py, iround (v_x a) = Done px /\ iround (v_y a) = Done py.
Proof.
  unfold drawLineIncremental. fold (same_point a b). intros -> H.
  apply bind_Done in H as (px & Hpx & H). apply bind_Done in H as (py & Hpy & _). eauto.
Qed.

Lemma line_defined_walk a b color l :
  same_point a b = false -> drawLineIncremental a b color = Done l ->
  exists lo hi m,
    iround (walked (steep_line a b) (walk_start a b)) = Done lo /\
    iround (walked (steep_line a b) (walk_end a b)) = Done hi /\
    line_loop (Z.to_nat (hi - lo + 1)) (steep_line a b) lo
      (secondary (steep_line a b) (walk_start a b)) m color = Done l.
Proof.
  unfold drawLineIncremental, walk_start, walk_end.
  fold (same_point a b). fold (steep_line a b). intros -> H.
  destruct a as [ax ay], b as [bx by_]. revert H.
  destruct (steep_line _ _); simpl swap_if; cbv iota beta; simpl walked;
    intros H;
    match goal with |- context [fgtb ?u ?v] => destruct (fgtb u v) end;
    simpl in H |- *;
    apply bind_Done in H as (lo & Hlo & H); apply bind_Done in H as (hi & Hhi & H); eauto 10.
Qed.

Lemma walk_start_first a b :
  fgtb (walked (steep_line a b) a) (walked (steep_line a b) b) = false ->
  walk_start a b = a /\ walk_end a b = b.
Proof. unfold walk_start, walk_end. intros ->. auto. Qed.

Lemma walk_order a b :
  fgtb (walked (steep_line a b) (walk_start a b))
       (walked (steep_line a b) (walk_end a b)) = false.
Proof.
  unfold walk_start, walk_end.
  destruct (fgtb (walked (steep_line a b) a) (walked (steep_line a b) b)) eqn:H;
    [apply fgtb_asym|]; assumption.
Qed.

Lemma walk_ends_valid a b :
  valid_position a -> valid_position b ->
  valid_position (walk_start a b) /\ valid_position (walk_end a b).
Proof. unfold walk_start, walk_end. destruct (fgtb _ _); auto. Qed.

Lemma valid_walked s a : valid_position a -> valid_binary prec emax (walked s a) = true.
Proof. intros [Hx Hy]. destruct s; assumption. Qed.

Lemma valid_secondary s a : valid_position a -> valid_binary prec emax (secondary s a) = true.
Proof. intros [Hx Hy]. destruct s; assumption. Qed.

(** C7: whenever [drawLineIncremental a b] and [drawLineIncremental b a]
    are both defined they emit the same pixels (and in the same order); for
    positions with finite coordinates the one is defined exactly when the
    other is. *)
Theorem line_symmetric a b color :
  valid_position a -> valid_position b ->
  (forall l1 l2, drawLineIncremental a b color = Done l1 ->
                 drawLineIncremental b a color = Done l2 -> l1 = l2) /\
  (position a -> position b ->
   drawLineIncremental a b color = drawLineIncremental b a color).
Proof.
  intros Hva Hvb. split.
  - intros l1 l2 H1 H2.
    assert (Heq : drawLineIncremental a b color = drawLineIncremental b a color);
      [|congruence].
    apply line_symmetric_core.
    + intros Hsame.
      destruct (line_defined_same_point a b color l1 Hsame H1) as (ax & ay & Hax & Hay).
      rewrite <- same_point_sym in Hsame.
      destruct (line_defined_same_point b a color l2 Hsame H2) as (bx & by_ & Hbx & Hby).
      rewrite same_point_sym in Hsame. apply andb_true_iff in Hsame as [Hx Hy].
      destruct Hva as [Hvax Hvay], Hvb as [Hvbx Hvby]. split; symmetry.
      * apply iround_fsub_zero; eauto using iround_finite.
      * apply iround_fsub_zero; eauto using iround_finite.
    + intros Hsame G1 G2.
      destruct (line_defined_walk a b color l1 Hsame H1) as (lo & hi & m & Hlo & Hhi & Hl1).
      destruct (walk_start_first a b G1) as [Es Ee]. rewrite Es, Ee in *.
      rewrite <- same_point_sym in Hsame. rewrite <- (steep_line_sym a b) in G2.
      destruct (line_defined_walk b a color l2 Hsame H2) as (lo' & hi' & m' & Hlo' & Hhi' & Hl2).
      destruct (walk_start_first b a G2) as [Es' Ee']. rewrite Es', Ee' in *.
      rewrite same_point_sym in Hsame. rewrite (steep_line_sym a b) in *.
      assert (Fa : finite (walked (steep_line a b) a))
        by (eapply iround_finite; [apply valid_walked|]; eassumption).
      assert (Fb : finite (walked (steep_line a b) b))
        by (eapply iround_finite; [apply valid_walked|]; eassumption).
      assert (lo' = hi) by congruence. assert (hi' = lo) by congruence. subst lo' hi'.
      pose proof (iround_mono _ _ lo hi Fa Fb G1 Hlo Hhi).
      pose proof (iround_mono _ _ hi lo Fb Fa G2 Hhi Hlo).
      assert (hi = lo) by lia. subst hi.
      replace (Z.to_nat (lo - lo + 1)) with 1%nat in * by lia.
      apply line_loop_first in Hl1 as (ry & rest & Hry & _).
      apply line_loop_first in Hl2 as (ry' & rest' & Hry' & _).
      assert (Hs : same_point a b = true); [|congruence].
      apply level_walk_same_point; try assumption.
      * eapply iround_finite; [apply valid_secondary|]; eassumption.
      * eapply iround_finite; [apply valid_secondary|]; eassumption.
  - intros [Hax Hay] [Hbx Hby]. apply line_symmetric_core.
    + intros Hsame. apply andb_true_iff in Hsame as [Hx Hy]. split; symmetry;
        apply iround_fsub_zero; assumption.
    + intros Hsame G1 G2.
      assert (Hs : same_point a b = true); [|congruence].
      apply level_walk_same_point; try assumption; destruct (steep_line a b); assumption.
Qed.

Lemma fsub_zero_finite x y :
  finite x -> valid_binary prec emax y = true -> feqb (fsub y x) fzero = true -> finite y.
Proof.
  intros Hx Hy H. split; [assumption|].
  destruct x as [sx | sx | | sx mx ex]; try (exfalso; exact (proj2 Hx));
    destruct y as [sy | sy | | sy my ey]; try exact I;
    try discriminate; destruct sy; discriminate.
Qed.

Lemma same_point_level a b :
  finite (v_x a) -> finite (v_x b) -> same_point a b = true ->
  steep_line a b = false /\ walk_start a b = a /\ walk_end a b = b.
Proof.
  unfold same_point. intros Ha Hb H. apply andb_true_iff in H as [Hx Hy].
  assert (Hs : steep_line a b = false).
  { unfold steep_line. apply feqb_zero_inv in Hx as [sx ->]. apply feqb_zero_inv in Hy as [sy ->].
    reflexivity. }
  split; [assumption|]. apply walk_start_first. rewrite Hs. simpl walked.
  pose proof (fsub_finite (v_x b) (v_x a) Hb Ha) as Hf.
  apply feqb_zero_inv in Hx as [sx Hsx]. rewrite Hsx in Hf. destruct Hf as [_ Hf].
  unfold fgtb, SFltb. unfold feqb, SFeqb in Hf.
  destruct (SFcompare (v_x b) (v_x a)) as [[]|]; try discriminate. reflexivity.
Qed.

(** C6, amended: whenever the walk from [a] to [b] is defined, the
    sequence it emits begins with the pixel that the endpoint with the
    smaller coordinate on the walked axis rounds to, and its last pixel has
    the rounded walked coordinate of the other endpoint. *)
Theorem line_starts_at_endpoint a b color l :
  valid_position a -> valid_position b ->
  drawLineIncremental a b color = Done l ->
  exists first rest final hi,
    round_point (walk_start a b) color = Done first /\ l = first :: rest /\
    last l = Some final /\
    iround (walked (steep_line a b) (walk_end a b)) = Done hi /\
    plot_walked (steep_line a b) final = hi.
Proof.
  intros Hva Hvb H. destruct (same_point a b) eqn:Hsame.
  - destruct (line_defined_same_point a b color l Hsame H) as (px & py & Hpx & Hpy).
    assert (Fa : finite (v_x a)) by (eapply iround_finite; [apply Hva | eassumption]).
    assert (Fb : finite (v_x b)).
    { apply (fsub_zero_finite (v_x a)); [assumption | apply Hvb |].
      unfold same_point in Hsame. apply andb_true_iff in Hsame. tauto. }
    destruct (same_point_level a b Fa Fb Hsame) as (-> & -> & ->). simpl walked.
    unfold drawLineIncremental in H. fold (same_point a b) in H. rewrite Hsame in H.
    unfold round_point. rewrite Hpx, Hpy in *. simpl in H |- *. injection H as <-.
    exists (putPixel px py color), [], (putPixel px py color), px.
    repeat (split; [reflexivity|]). split; [|reflexivity].
    rewrite <- Hpx. apply iround_fsub_zero; try assumption.
    unfold same_point in Hsame. apply andb_true_iff in Hsame. tauto.
  - destruct (line_defined_walk a b color l Hsame H) as (lo & hi & m & Hlo & Hhi & Hl).
    destruct (walk_ends_valid a b Hva Hvb) as [Hvs Hve].
    assert (Hle : lo <= hi).
    { apply (iround_mono (walked (steep_line a b) (walk_start a b))
                         (walked (steep_line a b) (walk_end a b)));
        try assumption; try apply walk_order;
        (eapply iround_finite; [apply valid_walked|]; eassumption). }
    replace (Z.to_nat (hi - lo + 1)) with (S (Z.to_nat (hi - lo))) in Hl by lia.
    destruct (line_loop_first _ _ _ _ _ _ _ Hl) as (ry & rest & Hry & ->).
    destruct (line_loop_last _ _ _ _ _ _ _ Hl) as (p & Hp & Hw).
    eexists _, rest, p, hi. split; [|split; [reflexivity|split; [exact Hp|split; [exact Hhi|lia]]]].
    unfold round_point. revert Hlo Hry. generalize (walk_start a b). intros [sx sy].
    destruct (steep_line a b); simpl; intros -> ->; reflexivity.
Qed.

(** *** Examples *)

Lemma origin_position : position origin.
Proof. split; (split; [reflexivity | exact I]). Qed.

Lemma far_point_position : position far_point.
Proof. split; (split; [reflexivity | exact I]). Qed.

Lemma origin_valid : valid_position origin.
Proof. split; reflexivity. Qed.

Lemma far_point_valid : valid_position far_point.
Proof. split; reflexivity. Qed.

Lemma line_symmetric_witness :
  drawLineIncremental origin far_point red = drawLineIncremental far_point origin red.
Proof.
  exact (proj2 (line_symmetric origin far_point red origin_valid far_point_valid)
           origin_position far_point_position).
Defined.

(** C6, as stated, fails: the secondary coordinate is accumulated from
    the unrounded start, so the last pixel need not be the one the far
    endpoint rounds to.  From (0, 0) to (2.5, 1.25) the walk emits (0, 0),
    (1, 1), (2, 1), (3, 2), while (2.5, 1.25) rounds to (3, 1). *)
Lemma line_misses_endpoint :
  position origin /\ position far_point /\
  drawLineIncremental origin far_point red =
    Done [ (0, 0, red); (1, 1, red); (2, 1, red); (3, 2, red) ] /\
  round_point far_point red = Done (3, 1, red) /\
  ~ In (3, 1, red) [ (0, 0, red); (1, 1, red); (2, 1, red); (3, 2, red) ].
Proof.
  split; [exact origin_position|]. split; [exact far_point_position|].
  split; [vm_compute; reflexivity|]. split; [vm_compute; reflexivity|].
  simpl. intros [H | [H | [H | [H | []]]]]; discriminate.
Qed.

Lemma line_starts_at_endpoint_witness :
  exists first rest final hi,
    round_point (walk_start origin far_point) red = Done first /\
    [ (0, 0, red); (1, 1, red); (2, 1, red); (3, 2, red) ] = first :: rest /\
    last [ (0, 0, red); (1, 1, red); (2, 1, red); (3, 2, red) ] = Some final /\
    iround (walked (steep_line origin far_point) (walk_end origin far_point)) = Done hi /\
    plot_walked (steep_line origin far_point) final = hi.
Proof.
  apply (line_starts_at_endpoint origin far_point red
           [ (0, 0, red); (1, 1, red); (2, 1, red); (3, 2, red) ]
           origin_valid far_point_valid).
  vm_compute. reflexivity.
Defined.

(** ** The circle rasteriser *)

Lemma circle_points_reflections x0 y0 x y color :
  (forall q : Vector2f, In q (reflections x0 y0 x y) -> exists p, round_point q color = Done p) ->
  exists pts, circle_points x0 y0 x y color = Done pts /\
    forall q : Vector2f, In q (reflections x0 y0 x y) ->
      exists p, round_point q color = Done p /\ In p pts.
Proof.
  intros H. unfold circle_points.
  assert (Hq : forall u v, In (mkVector2f u v) (reflections x0 y0 x y) ->
            exists px py, iround u = Done px /\ iround v = Done py).
  { intros u v Hin. destruct (H _ Hin) as [p Hp]. unfold round_point in Hp. simpl in Hp.
    apply bind_Done in Hp as (px & Hpx & Hp). apply bind_Done in Hp as (py & Hpy & _). eauto. }
  destruct (Hq (fadd x0 x) (fadd y0 y)) as (a1 & b1 & Ha1 & Hb1); [simpl; auto|].
  destruct (Hq (fadd x0 y) (fadd y0 x)) as (a2 & b2 & Ha2 & Hb2); [simpl; auto|].
  destruct (Hq (fsub x0 x) (fsub y0 y)) as (a3 & b3 & Ha3 & Hb3); [simpl; auto 10|].
  destruct (Hq (fsub x0 y) (fsub y0 x)) as (a4 & b4 & Ha4 & Hb4); [simpl; auto 10|].
  rewrite Ha1, Ha2, Ha3, Ha4, Hb1, Hb2, Hb3, Hb4. simpl.
  eexists. split; [reflexivity|].
  intros q Hin. unfold round_point.
  simpl in Hin. destruct Hin as [<- | [<- | [<- | [<- | [<- | [<- | [<- | [<- | []]]]]]]]];
    simpl; rewrite ?Ha1, ?Ha2, ?Ha3, ?Ha4, ?Hb1, ?Hb2, ?Hb3, ?Hb4; simpl;
    eexists; (split; [reflexivity|]); simpl; auto 10.
Qed.

Section CircleFacts.

Variable cosf sinf : float -> float.

Lemma circle_loop_S fuel x0 y0 R color steps i :
  circle_loop cosf sinf (S fuel) x0 y0 R color steps i =
  if i <=? steps then
    pts <- circle_points x0 y0 (circle_sample cosf sinf R steps i).1
             (circle_sample cosf sinf R steps i).2 color ;;
    rest <- circle_loop cosf sinf fuel x0 y0 R color steps (wrap_uint (i + 1)) ;;
    Done (pts ++ rest)
  else Done [].
Proof. simpl. destruct (circle_sample cosf sinf R steps i). reflexivity. Qed.

Lemma circle_loop_reflections fuel x0 y0 R color steps i :
  0 <= i -> steps < UINT_MAX ->
  (Z.to_nat (steps + 1 - i) <= fuel)%nat ->
  (forall j (q : Vector2f), i <= j <= steps ->
     In q (sample_reflections cosf sinf (mkVector2f x0 y0) R steps j) ->
     exists p, round_point q color = Done p) ->
  exists l, circle_loop cosf sinf fuel x0 y0 R color steps i = Done l /\
    forall j (q : Vector2f), i <= j <= steps ->
      In q (sample_reflections cosf sinf (mkVector2f x0 y0) R steps j) ->
      exists p, round_point q color = Done p /\ In p l.
Proof.
  revert i. induction fuel as [|fuel IH]; intros i Hi Hs Hfuel Hok.
  - simpl. destruct (i <=? steps) eqn:Hle; [apply Z.leb_le in Hle; lia|].
    apply Z.leb_gt in Hle. exists []. split; [reflexivity|]. intros j q Hj. lia.
  - rewrite circle_loop_S. destruct (i <=? steps) eqn:Hle.
    + apply Z.leb_le in Hle.
      destruct (circle_sample cosf sinf R steps i) as [x y] eqn:Hsample.
      destruct (circle_points_reflections x0 y0 x y color) as (pts & Hpts & Hin).
      { intros q Hq. apply (Hok i q); [lia|]. unfold sample_reflections. rewrite Hsample. exact Hq. }
      simpl fst. simpl snd. rewrite Hpts. cbn [bind].
      assert (Hw : wrap_uint (i + 1) = i + 1).
      { unfold wrap_uint. unfold UINT_MAX in Hs. apply Z.mod_small. lia. }
      rewrite Hw.
      destruct (IH (i + 1)) as (rest & Hrest & Hin'); [lia | assumption | lia | |].
      { intros j q Hj. apply Hok. lia. }
      rewrite Hrest. cbn [bind]. eexists. split; [reflexivity|].
      intros j q Hj Hq. destruct (decide (j = i)) as [->|Hne].
      * unfold sample_reflections in Hq. rewrite Hsample in Hq.
        destruct (Hin q Hq) as (p & Hp & Hpin). exists p. split; [assumption|].
        apply in_or_app. left. assumption.
      * destruct (Hin' j q ltac:(lia) Hq) as (p & Hp & Hpin). exists p. split; [assumption|].
        apply in_or_app. right. assumption.
    + apply Z.leb_gt in Hle. exists []. split; [reflexivity|]. intros j q Hj. lia.
Qed.

End CircleFacts.

(** C8, amended: when no sample leaves the range of [int], [drawCircle]
    returns, and for every sample [(x, y)] the pixels that the eight points
    [center + (+-x, +-y)] and [center + (+-y, +-x)] round to are all in its
    output. *)
Theorem drawCircle_reflections cosf sinf fuel center R color steps :
  0 <= steps < UINT_MAX -> (Z.to_nat steps < fuel)%nat ->
  (forall i (q : Vector2f), 0 <= i <= steps ->
     In q (sample_reflections cosf sinf center R steps i) ->
     exists p, round_point q color = Done p) ->
  exists l, drawCircle cosf sinf fuel center R color steps = Done l /\
    forall i (q : Vector2f), 0 <= i <= steps ->
      In q (sample_reflections cosf sinf center R steps i) ->
      exists p, round_point q color = Done p /\ In p l.
Proof.
  intros [H0 Hs] Hfuel Hok. unfold drawCircle. destruct center as [x0 y0].
  apply circle_loop_reflections; try assumption; lia.
Qed.


(** *** Examples *)

(** C8, as stated, fails: the eight points are mirror images of each other
    before rounding only.  Around the centre (1, 1), with a radius just
    under one half, [1 + R] rounds to the float 1.5 and then to 2, while
    [1 - R] rounds to the float 0.5 and then to 1: the pixel (2, 1) is
    drawn, its mirror image (0, 1) is not. *)
Lemma circle_not_mirror_symmetric :
  round_point unit_centre red = Done (1, 1, red) /\
  drawCircle cos_table sin_table 2 unit_centre just_under_half red 1 = Done small_circle /\
  In (2, 1, red) small_circle /\
  In (0, 1) (octant_images 1 1 (2, 1)) /\
  ~ In (0, 1, red) small_circle.
Proof.
  split; [vm_compute; reflexivity|]. split; [vm_compute; reflexivity|].
  split; [left; reflexivity|]. split; [right; left; reflexivity|].
  unfold small_circle. intros H.
  repeat (destruct H as [H | H]; [discriminate|]). destruct H.
Qed.

Lemma drawCircle_reflections_witness :
  exists l, drawCircle cos_table sin_table 2 unit_centre just_under_half red 1 = Done l /\
    forall i (q : Vector2f), 0 <= i <= 1 ->
      In q (sample_reflections cos_table sin_table unit_centre just_under_half 1 i) ->
      exists p, round_point q red = Done p /\ In p l.
Proof.
  apply (drawCircle_reflections cos_table sin_table 2 unit_centre just_under_half red 1).
  - unfold UINT_MAX. lia.
  - simpl. lia.
  - intros i q Hi Hq. assert (i = 0 \/ i = 1) as [-> | ->] by lia;
      vm_compute in Hq;
      repeat (destruct Hq as [<- | Hq]; [eexists; vm_compute; reflexivity|]);
      destruct Hq.
Defined.

(** ** The polygon validator and renderer *)

Lemma opposite_signs_bool d d' :
  (fgtb d fzero && fltb d' fzero) || (fltb d fzero && fgtb d' fzero) = true <->
  opposite_signs d d'.
Proof. unfold opposite_signs. rewrite orb_true_iff, !andb_true_iff. reflexivity. Qed.

Lemma segmentsIntersect_spec a1 a2 b1 b2 :
  segmentsIntersect a1 a2 b1 b2 = true <-> computed_crossing a1 a2 b1 b2.
Proof.
  unfold segmentsIntersect, computed_crossing. cbv zeta.
  rewrite andb_true_iff, !opposite_signs_bool. reflexivity.
Qed.

Lemma computed_crossing_sym a1 a2 b1 b2 :
  computed_crossing a1 a2 b1 b2 -> computed_crossing b1 b2 a1 a2.
Proof. unfold computed_crossing. tauto. Qed.

Lemma adjacent_edges_sym n i j : adjacent_edges n i j -> adjacent_edges n j i.
Proof. unfold adjacent_edges. intuition auto. Qed.

Lemma crossing_from_spec pts n i a1 a2 count j :
  crossing_from pts n i a1 a2 count j = true <->
  exists k, (j <= k < j + count)%nat /\ ~ adjacent_edges n i k /\
    segmentsIntersect a1 a2 (at_index pts k) (at_index pts ((k + 1) mod n)) = true.
Proof.
  revert j. induction count as [|count IH]; intros j; simpl.
  - split; [discriminate | intros (k & Hk & _); lia].
  - assert (Hrest : (exists k, (S j <= k < S j + count)%nat /\ ~ adjacent_edges n i k /\
               segmentsIntersect a1 a2 (at_index pts k) (at_index pts ((k + 1) mod n)) = true) ->
             exists k, (j <= k < j + S count)%nat /\ ~ adjacent_edges n i k /\
               segmentsIntersect a1 a2 (at_index pts k) (at_index pts ((k + 1) mod n)) = true).
    { intros (k & Hk & H). exists k. split; [lia | exact H]. }
    assert (Hskip : adjacent_edges n i j \/
               segmentsIntersect a1 a2 (at_index pts j) (at_index pts ((j + 1) mod n)) = false ->
             (exists k, (j <= k < j + S count)%nat /\ ~ adjacent_edges n i k /\
               segmentsIntersect a1 a2 (at_index pts k) (at_index pts ((k + 1) mod n)) = true) ->
             exists k, (S j <= k < S j + count)%nat /\ ~ adjacent_edges n i k /\
               segmentsIntersect a1 a2 (at_index pts k) (at_index pts ((k + 1) mod n)) = true).
    { intros Hj (k & Hk & Hn & Hx). exists k. split; [|auto].
      destruct (decide (k = j)) as [->|]; [|lia].
      destruct Hj as [Hj | Hj]; [contradiction | congruence]. }
    destruct (j =? i)%nat eqn:Hji.
    { apply Nat.eqb_eq in Hji. rewrite IH. split; [exact Hrest | apply Hskip].
      left. left. auto. }
    apply Nat.eqb_neq in Hji.
    destruct (((j + 1) mod n =? i) || ((i + 1) mod n =? j))%nat eqn:Hadj.
    { apply orb_true_iff in Hadj. rewrite !Nat.eqb_eq in Hadj.
      rewrite IH. split; [exact Hrest | apply Hskip].
      left. unfold adjacent_edges. tauto. }
    apply orb_false_iff in Hadj. rewrite !Nat.eqb_neq in Hadj.
    destruct (segmentsIntersect a1 a2 (at_index pts j) (at_index pts ((j + 1) mod n))) eqn:Hx.
    { split; [|reflexivity]. intros _. exists j. split; [lia|]. split; [|assumption].
      unfold adjacent_edges. intros [? | [? | ?]]; [congruence | tauto | tauto]. }
    rewrite IH. split; [exact Hrest | apply Hskip]. auto.
Qed.

Lemma crossing_edges_spec pts n count i :
  crossing_edges pts n count i = true <->
  exists i' k, (i <= i' < i + count)%nat /\ (i' < k < n)%nat /\ ~ adjacent_edges n i' k /\
    segmentsIntersect (at_index pts i') (at_index pts ((i' + 1) mod n))
      (at_index pts k) (at_index pts ((k + 1) mod n)) = true.
Proof.
  revert i. induction count as [|count IH]; intros i; simpl.
  - split; [discriminate | intros (i' & k & Hi & _); lia].
  - destruct (crossing_from pts n i _ _ (n - (i + 1)) (i + 1)) eqn:Hin.
    + split; [|reflexivity]. intros _. apply crossing_from_spec in Hin as (k & Hk & H).
      exists i, k. split; [lia|]. split; [lia | exact H].
    + rewrite IH. split.
      * intros (i' & k & Hi & H). exists i', k. split; [lia | exact H].
      * intros (i' & k & Hi & Hk & Hn & Hx). exists i', k.
        split; [|auto]. destruct (decide (i' = i)) as [->|]; [|lia].
        exfalso. assert (Ht : crossing_from pts n i (at_index pts i)
                   (at_index pts ((i + 1) mod n)) (n - (i + 1)) (i + 1) = true); [|congruence].
        apply crossing_from_spec. exists k. split; [lia | auto].
Qed.

Lemma crossing_edges_computed_self_intersecting pts :
  crossing_edges pts (length pts) (length pts) 0 = true <-> computed_self_intersecting pts.
Proof.
  rewrite crossing_edges_spec. unfold computed_self_intersecting, edge_start, edge_end. split.
  - intros (i & k & Hi & Hk & Hn & Hx). exists i, k.
    split; [lia|]. split; [lia|]. split; [assumption|].
    apply segmentsIntersect_spec. assumption.
  - intros (i & j & Hi & Hj & Hn & Hx).
    destruct (Nat.lt_total i j) as [Hlt | [-> | Hgt]].
    + exists i, j. split; [lia|]. split; [lia|]. split; [assumption|].
      apply segmentsIntersect_spec. assumption.
    + exfalso. apply Hn. left. reflexivity.
    + exists j, i. split; [lia|]. split; [lia|].
      split; [intros H; apply Hn, adjacent_edges_sym, H|].
      apply segmentsIntersect_spec, computed_crossing_sym. assumption.
Qed.

Lemma at_index_boundary v rest i :
  (i < S (length rest))%nat ->
  nth i (zip (v :: rest) (rest ++ [v])) (v, v) =
  (at_index (v :: rest) i, at_index (v :: rest) ((i + 1) mod S (length rest))).
Proof.
  unfold at_index. revert v i. generalize (mkVector2f fzero fzero) as d.
  intros d v i Hi.
  assert (Hz : forall (l1 l2 : list Vector2f) k d1 d2,
             (k < length l1)%nat -> (k < length l2)%nat ->
             nth k (zip l1 l2) (d1, d2) = (nth k l1 d1, nth k l2 d2)).
  { induction l1 as [|a l1 IH]; intros [|b l2] [|k] d1 d2 H1 H2; simpl in *; try lia; auto.
    apply IH; lia. }
  rewrite Hz by (simpl; rewrite ?length_app; simpl; lia).
  f_equal; [apply nth_indep; simpl; lia|].
  destruct (decide (i = length rest)) as [->|Hne].
  - rewrite app_nth2 by lia. rewrite Nat.sub_diag. simpl nth at 1.
    replace (length rest + 1)%nat with (S (length rest)) by lia.
    rewrite Nat.Div0.mod_same. reflexivity.
  - rewrite app_nth1 by lia. rewrite Nat.mod_small by lia.
    replace (i + 1)%nat with (S i) by lia. simpl. apply nth_indep. lia.
Qed.

Lemma length_boundary_edges pts : length (boundary_edges pts) = length pts.
Proof.
  destruct pts as [|v rest]; [reflexivity|]. unfold boundary_edges.
  rewrite length_zip_with, length_app. simpl length. lia.
Qed.

Lemma draw_edges_lines pts color count i :
  (i + count = length pts)%nat ->
  draw_edges pts (length pts) count i color =
  draw_lines (drop i (boundary_edges pts)) color.
Proof.
  revert i. induction count as [|count IH]; intros i Hi.
  - rewrite drop_ge; [reflexivity|]. rewrite length_boundary_edges. lia.
  - assert (Hlook : boundary_edges pts !! i =
              Some (at_index pts i, at_index pts ((i + 1) mod length pts))).
    { destruct pts as [|v rest]; [simpl in Hi; lia|].
      rewrite <- at_index_boundary by (simpl in Hi; lia).
      destruct (lookup_lt_is_Some_2 (boundary_edges (v :: rest)) i) as [e He].
      { rewrite length_boundary_edges. lia. }
      rewrite He. f_equal. symmetry. apply nth_lookup_Some. exact He. }
    rewrite (drop_S _ _ _ Hlook). simpl draw_edges. simpl draw_lines.
    rewrite IH by lia. reflexivity.
Qed.

(** [drawPolygon] in terms of its own tests: it returns [false] and draws
    nothing exactly when the loop has fewer than three vertices or the tests
    of [segmentsIntersect] succeed on two non-adjacent edges; otherwise it
    returns [true] after rasterising, with the line rasteriser, the [n]
    boundary edges in vertex order, the last one back to the first
    vertex. *)
Lemma drawPolygon_tests pts color :
  (drawPolygon pts color = Done (false, []) <->
   (length pts < 3)%nat \/ computed_self_intersecting pts) /\
  (~ ((length pts < 3)%nat \/ computed_self_intersecting pts) ->
   drawPolygon pts color =
   (drawn <- draw_lines (boundary_edges pts) color ;; Done (true, drawn))) /\
  length (boundary_edges pts) = length pts.
Proof.
  rewrite length_boundary_edges.
  assert (Hgoal : forall P Q : Prop, P /\ Q -> P /\ Q /\ length pts = length pts)
    by (intros P Q []; auto).
  apply Hgoal. clear Hgoal. unfold drawPolygon.
  destruct (length pts <? 3)%nat eqn:Hn.
  { apply Nat.ltb_lt in Hn. split; [tauto|]. intros H. exfalso. auto. }
  apply Nat.ltb_ge in Hn.
  pose proof (crossing_edges_computed_self_intersecting pts) as Hc.
  destruct (crossing_edges pts (length pts) (length pts) 0).
  { split; [tauto|]. intros H. exfalso. apply H. right. apply Hc. reflexivity. }
  rewrite (draw_edges_lines pts color (length pts) 0) by lia. rewrite drop_0.
  split; [|reflexivity]. split.
  - intros H. apply bind_Done in H as (l & _ & H). discriminate.
  - intros [H | H]; [lia|]. apply Hc in H. discriminate.
Qed.

(** *** Exact geometry on the integer grid *)

Lemma on_grid_exact v p : on_grid v p -> exact_position v = Some (p.1 * 2 ^ 149, p.2 * 2 ^ 149).
Proof.
  intros [[Hx Hy] ->]. unfold exact_position. simpl v_x. simpl v_y.
  rewrite (holds_scaled _ p.1), (holds_scaled _ p.2);
    try (apply float_of_Z_holds); try lia. reflexivity.
Qed.

Lemma grid_exact_cross a b c pa pb pc :
  on_grid a pa -> on_grid b pb -> on_grid c pc ->
  exact_cross a b c = Some (integer_cross pa pb pc * 2 ^ 298).
Proof.
  intros Ha Hb Hc. unfold exact_cross.
  rewrite (on_grid_exact a pa Ha), (on_grid_exact b pb Hb), (on_grid_exact c pc Hc).
  simpl fst. simpl snd. unfold integer_cross. f_equal.
  replace (2 ^ 298) with (2 ^ 149 * 2 ^ 149) by (rewrite <- Z.pow_add_r by lia; reflexivity).
  ring.
Qed.

Lemma grid_cross a b c pa pb pc :
  on_grid a pa -> on_grid b pb -> on_grid c pc ->
  holds (cross a b c) (integer_cross pa pb pc).
Proof.
  intros [[Hax Hay] ->] [[Hbx Hby] ->] [[Hcx Hcy] ->]. unfold cross, integer_cross.
  simpl v_x. simpl v_y.
  assert (Hf : forall z, -1024 <= z <= 1024 -> holds (float_of_Z z) z)
    by (intros z Hz; apply float_of_Z_holds; lia).
  assert (Hd : forall u v, -1024 <= u <= 1024 -> -1024 <= v <= 1024 ->
            holds (fsub (float_of_Z u) (float_of_Z v)) (u - v))
    by (intros u v Hu Hv; apply fsub_holds; auto; lia).
  assert (Hp : forall fu fv u v, -2048 <= u <= 2048 -> -2048 <= v <= 2048 ->
            holds fu u -> holds fv v -> holds (fmul fu fv) (u * v) /\
            -4194304 <= u * v <= 4194304).
  { intros fu fv u v Hu Hv Hfu Hfv. assert (-4194304 <= u * v <= 4194304) by nia.
    split; [|assumption]. apply fmul_holds; auto; lia. }
  destruct (Hp _ _ (pb.1 - pa.1) (pc.2 - pa.2) ltac:(lia) ltac:(lia)
              (Hd _ _ Hbx Hax) (Hd _ _ Hcy Hay)) as [H1 B1].
  destruct (Hp _ _ (pb.2 - pa.2) (pc.1 - pa.1) ltac:(lia) ltac:(lia)
              (Hd _ _ Hby Hay) (Hd _ _ Hcx Hax)) as [H2 B2].
  apply fsub_holds; try assumption; lia.
Qed.

Lemma opposite_sides_scaled d d' :
  opposite_sides (d * 2 ^ 298) (d' * 2 ^ 298) <-> opposite_sides d d'.
Proof.
  assert (0 < 2 ^ 298) by (apply Z.pow_pos_nonneg; lia).
  unfold opposite_sides. nia.
Qed.

Lemma holds_opposite_signs f f' d d' :
  holds f d -> holds f' d' -> opposite_signs f f' <-> opposite_sides d d'.
Proof.
  intros H H'. destruct (holds_sign f d H) as [Hg Hl], (holds_sign f' d' H') as [Hg' Hl'].
  unfold opposite_signs, opposite_sides. rewrite Hg, Hl, Hg', Hl', !Z.ltb_lt. reflexivity.
Qed.

(** On the grid the tests of the code decide proper crossing. *)
Lemma grid_crossing a1 a2 b1 b2 :
  grid_vertex a1 -> grid_vertex a2 -> grid_vertex b1 -> grid_vertex b2 ->
  computed_crossing a1 a2 b1 b2 <-> properly_cross a1 a2 b1 b2.
Proof.
  intros (x1 & y1 & ? & ? & E1) (x2 & y2 & ? & ? & E2) (x3 & y3 & ? & ? & E3)
         (x4 & y4 & ? & ? & E4).
  assert (G1 : on_grid a1 (x1, y1)) by (split; [simpl; lia | exact E1]).
  assert (G2 : on_grid a2 (x2, y2)) by (split; [simpl; lia | exact E2]).
  assert (G3 : on_grid b1 (x3, y3)) by (split; [simpl; lia | exact E3]).
  assert (G4 : on_grid b2 (x4, y4)) by (split; [simpl; lia | exact E4]).
  unfold computed_crossing, properly_cross.
  rewrite (holds_opposite_signs _ _ _ _ (grid_cross _ _ _ _ _ _ G1 G2 G3)
             (grid_cross _ _ _ _ _ _ G1 G2 G4)).
  rewrite (holds_opposite_signs _ _ _ _ (grid_cross _ _ _ _ _ _ G3 G4 G1)
             (grid_cross _ _ _ _ _ _ G3 G4 G2)).
  rewrite (grid_exact_cross _ _ _ _ _ _ G1 G2 G3), (grid_exact_cross _ _ _ _ _ _ G1 G2 G4),
    (grid_exact_cross _ _ _ _ _ _ G3 G4 G1), (grid_exact_cross _ _ _ _ _ _ G3 G4 G2).
  split.
  - intros [Ha Hb]. eexists _, _, _, _. do 4 (split; [reflexivity|]).
    split; apply opposite_sides_scaled; assumption.
  - intros (d1 & d2 & d3 & d4 & [= <-] & [= <-] & [= <-] & [= <-] & Ha & Hb).
    split; apply opposite_sides_scaled; assumption.
Qed.

Lemma grid_at_index pts i :
  Forall grid_vertex pts -> (i < length pts)%nat -> grid_vertex (at_index pts i).
Proof.
  intros Hall Hi. unfold at_index.
  destruct (lookup_lt_is_Some_2 pts i Hi) as [v Hv].
  rewrite (nth_lookup_Some _ _ _ _ Hv). exact (Forall_lookup_1 _ _ _ _ Hall Hv).
Qed.

Lemma grid_self_intersecting pts :
  Forall grid_vertex pts -> computed_self_intersecting pts <-> self_intersecting pts.
Proof.
  intros Hall. unfold computed_self_intersecting, self_intersecting.
  assert (Hedge : forall i, (i < length pts)%nat ->
            grid_vertex (edge_start pts i) /\ grid_vertex (edge_end pts i)).
  { intros i Hi. split; apply grid_at_index; try assumption.
    apply Nat.mod_upper_bound. lia. }
  split; intros (i & j & Hi & Hj & Hn & H); exists i, j; (do 3 (split; [assumption|]));
    destruct (Hedge i Hi), (Hedge j Hj); apply grid_crossing in H; assumption.
Qed.

(** C2, amended: [drawPolygon] either returns [false] and draws nothing,
    or it returns [true] after rasterising, with the line rasteriser, the
    [n] boundary edges in vertex order, the last one back to the first
    vertex; it returns [false] whenever the loop has fewer than three
    vertices.  For a loop whose vertices have integer coordinates of
    magnitude at most 1024, where the code computes every cross product
    without rounding, it returns [false] and draws nothing exactly when the
    loop has fewer than three vertices or two of its non-adjacent edges
    properly cross. *)
Theorem drawPolygon_validates pts color :
  (Forall grid_vertex pts ->
   (drawPolygon pts color = Done (false, []) <->
    (length pts < 3)%nat \/ self_intersecting pts)) /\
  (drawPolygon pts color <> Done (false, []) ->
   drawPolygon pts color =
   (drawn <- draw_lines (boundary_edges pts) color ;; Done (true, drawn))) /\
  ((length pts < 3)%nat -> drawPolygon pts color = Done (false, [])) /\
  length (boundary_edges pts) = length pts.
Proof.
  destruct (drawPolygon_tests pts color) as (Hrej & Hacc & Hlen).
  split; [|split; [|split; [|assumption]]].
  - intros Hall. rewrite Hrej, (grid_self_intersecting pts Hall). reflexivity.
  - intros Hn. apply Hacc. intros H. apply Hn, Hrej, H.
  - intros Hn. apply Hrej. left. assumption.
Qed.

Lemma drawPolygon_validates_witness :
  drawPolygon square red = Done (false, []) <->
  (length square < 3)%nat \/ self_intersecting square.
Proof.
  apply (proj1 (drawPolygon_validates square red)).
  unfold square, vertex.
  repeat (apply List.Forall_cons;
          [eexists _, _; split; [|split; [|reflexivity]]; lia|]).
  apply List.Forall_nil.
Defined.

(** C2, as stated, fails: the cross products are computed in [float],
    and a product that is rounded can lose its sign.  In the quadrilateral
    [sliver] the first and the third edge properly cross (the exact cross
    products are 2 and -40960000 one way, -20485000 and 20475002 the other,
    in units of 2^-16), but the code computes the first of them as 0: the
    loop is accepted and its four edges are drawn. *)
Lemma drawPolygon_accepts_crossing :
  (3 <= length sliver)%nat /\
  self_intersecting sliver /\
  exists drawn, drawPolygon sliver red = Done (true, drawn) /\ length drawn = 88%nat.
Proof.
  split; [simpl; lia|]. split.
  - exists 0%nat, 2%nat. split; [simpl; lia|]. split; [simpl; lia|]. split.
    + unfold adjacent_edges. simpl. lia.
    + eexists _, _, _, _. do 4 (split; [vm_compute; reflexivity|]).
      unfold opposite_sides. split; lia.
  - eexists. split; vm_compute; reflexivity.
Qed.

(** *** Examples: the bow-tie and the square of the specification *)

Example bowtie_rejected : drawPolygon bowtie red = Done (false, []).
Proof. vm_compute. reflexivity. Qed.

Example bowtie_self_intersecting : self_intersecting bowtie.
Proof.
  exists 0%nat, 2%nat. split; [simpl; lia|]. split; [simpl; lia|]. split.
  - unfold adjacent_edges. simpl. lia.
  - eexists _, _, _, _. do 4 (split; [vm_compute; reflexivity|]).
    unfold opposite_sides. split; lia.
Qed.

Example square_accepted :
  exists drawn, drawPolygon square red = Done (true, drawn) /\ length drawn = 44%nat.
Proof. eexists. split; vm_compute; reflexivity. Qed.

(** * Further properties of the region fills *)

Lemma open_pixel_fillable img fillColor boundaryColor p :
  open_pixel img fillColor boundaryColor p <->
  fillable (boundary_skip fillColor boundaryColor) img p.
Proof.
  unfold open_pixel, fillable. split; intros (Hg & c & Hc & H); (split; [assumption|]);
    exists c; (split; [assumption|]); apply boundary_skip_false; assumption.
Qed.

(** X1: [boundaryFill] always returns, and it sets to [fillColor] exactly
    the pixels 4-connected to the seed through pixels that have neither
    [boundaryColor] nor [fillColor]; every other pixel keeps its colour.  No
    frame is needed: a seed that is outside the grid or on a pixel of one of
    the two colours changes nothing. *)
Theorem boundaryFill_exact img x y fillColor boundaryColor fuel :
  wf_image img -> (enough_fuel img <= fuel)%nat ->
  exists img', boundaryFill fuel img x y fillColor boundaryColor = Done img' /\
    forall p, in_grid img p ->
      (connected (open_pixel img fillColor boundaryColor) (x, y) p ->
       pixel_at img' p = Some fillColor) /\
      (~ connected (open_pixel img fillColor boundaryColor) (x, y) p ->
       pixel_at img' p = pixel_at img p).
Proof.
  intros Hwf Hfuel.
  destruct (boundaryFill_cases fuel img x y fillColor boundaryColor Hwf Hfuel)
    as [[H Hn] | (img' & H & Hs & Hrun)].
  - exists img. split; [assumption|]. intros p Hp. split; [|reflexivity].
    intros Hc. exfalso. apply Hn. apply open_pixel_fillable.
    eapply connected_start. eassumption.
  - exists img'. split; [assumption|]. intros p Hp.
    destruct (run_from_seed _ _ (boundary_skip_fill fillColor boundaryColor) img (x, y) img'
                Hrun Hwf Hs p Hp) as [Hin Hout].
    split; intros Hc.
    + apply Hin. revert Hc. apply connected_mono. intros q. apply open_pixel_fillable.
    + apply Hout. intros Hc'. apply Hc. revert Hc'. apply connected_mono.
      intros q. apply open_pixel_fillable.
Qed.

(** A path that starts inside a frame stays inside as soon as the sides
    of the frame are closed: the four corners play no part. *)
Lemma frame_sides_enclose (ok : Vector2i -> Prop) f s t :
  (forall p, on_frame f p -> ~ corner f p -> ~ ok p) ->
  connected ok s t -> inside_frame f s -> inside_frame f t.
Proof.
  intros Hframe. induction 1 as [p Hp | p n t Hp Hn Hc IH]; intros Hin; [assumption|].
  apply IH. pose proof (connected_start _ _ _ Hc) as Hokn.
  destruct (decide (inside_frame f n)) as [|Hout]; [assumption|].
  exfalso. apply (Hframe n); [| |assumption];
    unfold inside_frame, on_frame, corner in *; destruct p as [px py]; simpl in *;
    destruct Hn as [<- | [<- | [<- | [<- | []]]]]; simpl in *; lia.
Qed.

(** X2: the fill does not pass between two boundary pixels that touch
    by a corner only.  When the four sides of a frame have [boundaryColor],
    [boundaryFill] from a seed strictly inside changes no pixel on or outside
    the frame, whatever the colours of the four corner pixels and of the
    pixels inside. *)
Theorem boundaryFill_no_diagonal_leak img f x y fillColor boundaryColor fuel :
  wf_image img -> inside_frame f (x, y) ->
  (forall p, on_frame f p -> ~ corner f p -> pixel_at img p = Some boundaryColor) ->
  (enough_fuel img <= fuel)%nat ->
  exists img', boundaryFill fuel img x y fillColor boundaryColor = Done img' /\
    forall p, in_grid img p -> ~ inside_frame f p -> pixel_at img' p = pixel_at img p.
Proof.
  intros Hwf Hseed Hframe Hfuel.
  destruct (boundaryFill_cases fuel img x y fillColor boundaryColor Hwf Hfuel)
    as [[H Hn] | (img' & H & Hs & Hrun)].
  - exists img. auto.
  - exists img'. split; [assumption|]. intros p Hp Hout.
    apply (run_from_seed _ _ (boundary_skip_fill fillColor boundaryColor) img (x, y) img'
             Hrun Hwf Hs p Hp).
    intros Hcon. apply Hout.
    apply (frame_sides_enclose _ f (x, y) p) in Hcon; [assumption | | assumption].
    intros q Hq Hnc (_ & c & Hc & Hsk). rewrite (Hframe q Hq Hnc) in Hc. injection Hc as <-.
    unfold boundary_skip in Hsk. rewrite Color_eqb_refl in Hsk. discriminate.
Qed.

Lemma open_corner_image_wf : wf_image open_corner_image.
Proof. unfold wf_image, INT_MAX. simpl. split; [lia|]. split; [lia | reflexivity]. Defined.

Lemma boundaryFill_exact_witness :
  exists img', boundaryFill 61 wall_image 1 1 red black = Done img' /\
    forall p, in_grid wall_image p ->
      (connected (open_pixel wall_image red black) (1, 1) p ->
       pixel_at img' p = Some red) /\
      (~ connected (open_pixel wall_image red black) (1, 1) p ->
       pixel_at img' p = pixel_at wall_image p).
Proof.
  apply (boundaryFill_exact wall_image 1 1 red black 61 wall_image_wf).
  unfold enough_fuel. simpl. lia.
Defined.

Lemma boundaryFill_no_diagonal_leak_witness :
  exists img', boundaryFill 61 open_corner_image 1 1 red black = Done img' /\
    forall p, in_grid open_corner_image p ->
      ~ inside_frame (border open_corner_image) p ->
      pixel_at img' p = pixel_at open_corner_image p.
Proof.
  apply (boundaryFill_no_diagonal_leak open_corner_image (border open_corner_image)
           1 1 red black 61 open_corner_image_wf).
  - unfold inside_frame. simpl. lia.
  - intros p (H1 & H2 & H3) Hc. unfold corner in Hc. grid_5x3 p; try reflexivity; lia.
  - unfold enough_fuel. simpl. lia.
Defined.

(** Two tests that agree on every colour of the image and on the fill
    colour drive the traversal through the same steps. *)
Lemma bfs_loop_agree (skip1 skip2 : Color -> bool) fillColor (P : Color -> Prop) :
  (forall c, P c -> skip1 c = skip2 c) -> P fillColor ->
  forall fuel img q, Forall P (pixels img) ->
    bfs_loop skip1 fillColor fuel img q = bfs_loop skip2 fillColor fuel img q.
Proof.
  intros Hagree Hfill. induction fuel as [|fuel IH]; intros img [|p q] Himg; simpl;
    try reflexivity.
  destruct (out_of_bounds img p); [apply IH; assumption|].
  destruct (getPixel img p.1 p.2) as [c|] eqn:Hc; [|reflexivity].
  rewrite <- (Hagree c).
  2:{ unfold getPixel in Hc. rewrite Forall_lookup in Himg. eapply Himg. eassumption. }
  destruct (skip1 c); [apply IH; assumption|].
  unfold setPixel. destruct (_ <? _)%nat; [|reflexivity].
  apply IH. simpl. apply Forall_insert; assumption.
Qed.

(** X3: on an image of two colours, a background and a boundary, the two
    fills do the same from a background seed: [boundaryFill] with the
    boundary colour and [floodFill] return the same image (and fail or run out
    of fuel together). *)
Theorem fills_agree_two_colours img x y fillColor boundaryColor backgroundColor fuel :
  Forall (fun c => c = backgroundColor \/ c = boundaryColor) (pixels img) ->
  backgroundColor <> boundaryColor ->
  pixel_at img (x, y) = Some backgroundColor ->
  boundaryFill fuel img x y fillColor boundaryColor = floodFill fuel img x y fillColor.
Proof.
  intros Himg Hne Hseed. unfold boundaryFill, floodFill.
  destruct (out_of_bounds img (x, y)); [reflexivity|].
  unfold pixel_at in Hseed. simpl in Hseed. rewrite Hseed.
  apply Color_eqb_neq in Hne. rewrite Hne. simpl.
  destruct (Color_eqb backgroundColor fillColor) eqn:Hfill; [reflexivity|].
  rewrite boundaryFill_loop_bfs, floodFill_loop_bfs.
  apply Color_eqb_neq in Hfill, Hne.
  apply (bfs_loop_agree _ _ _
           (fun c => c = backgroundColor \/ c = boundaryColor \/ c = fillColor)).
  - intros c [-> | [-> | ->]]; unfold boundary_skip, flood_skip;
      rewrite ?Color_eqb_refl, ?orb_true_r; simpl; try reflexivity.
    + apply Color_eqb_neq in Hfill, Hne. rewrite Hfill, Hne. reflexivity.
    + assert (Color_eqb boundaryColor backgroundColor = false) as ->
        by (apply Color_eqb_neq; congruence). reflexivity.
  - auto.
  - eapply Forall_impl; [eassumption|]. simpl. tauto.
Qed.

Lemma fills_agree_two_colours_witness :
  boundaryFill 61 bordered_image 1 1 red black = floodFill 61 bordered_image 1 1 red.
Proof.
  apply (fills_agree_two_colours bordered_image 1 1 red black white 61).
  - unfold bordered_image. simpl.
    repeat (apply List.Forall_cons; [first [left; reflexivity | right; reflexivity]|]).
    apply List.Forall_nil.
  - discriminate.
  - reflexivity.
Defined.

(** Every pixel of a path is itself connected to the start of the path. *)
Lemma connected_through (ok : Vector2i -> Prop) s t :
  connected ok s t -> connected (fun q => connected ok s q) s t.
Proof.
  intros H.
  assert (Hgen : forall s0, connected ok s0 s -> connected (fun q => connected ok s0 q) s t).
  { induction H as [p Hp | p n t Hp Hn Hc IH]; intros s0 H0.
    - apply connected_here. assumption.
    - apply connected_step with (n := n); [assumption | assumption |].
      apply IH. apply (connected_trans ok s0 p n); [assumption|].
      apply connected_step with (n := n); [assumption | assumption |].
      apply connected_here. eapply connected_start. eassumption. }
  apply Hgen. apply connected_here. eapply connected_start. eassumption.
Qed.

(** What a flood fill from a seed of colour [backgroundColor] does, and
    the shape of the image it returns. *)
Lemma floodFill_region img x y fillColor backgroundColor fuel :
  wf_image img -> in_grid img (x, y) ->
  pixel_at img (x, y) = Some backgroundColor -> backgroundColor <> fillColor ->
  (enough_fuel img <= fuel)%nat ->
  exists img', floodFill fuel img x y fillColor = Done img' /\
    wf_image img' /\ size_x img' = size_x img /\ size_y img' = size_y img /\
    forall p, in_grid img p ->
      (connected (has_color img backgroundColor) (x, y) p ->
       pixel_at img' p = Some fillColor) /\
      (~ connected (has_color img backgroundColor) (x, y) p ->
       pixel_at img' p = pixel_at img p).
Proof.
  intros Hwf Hseed Hbg Hne Hfuel.
  destruct (floodFill_cases fuel img x y fillColor Hwf Hfuel)
    as [[_ [H | H]] | (img' & bg & H & _ & Hc & _ & Hr)]; [contradiction | congruence |].
  assert (bg = backgroundColor) as -> by congruence.
  exists img'. split; [assumption|].
  split; [exact (run_wf _ _ _ _ _ Hr Hwf)|].
  destruct (run_size _ _ _ _ _ Hr) as [Hx Hy]. do 2 (split; [assumption|]).
  intros p Hp.
  destruct (run_from_seed _ _ (flood_skip_fill fillColor backgroundColor) img (x, y) img'
              Hr Hwf) with (p := p) as [Hin Hout]; [| assumption |].
  { apply has_color_fillable; [assumption | split; assumption]. }
  split; intros Hcon.
  - apply Hin. revert Hcon. apply connected_mono. intros q. apply has_color_fillable. assumption.
  - apply Hout. intros Hcon'. apply Hcon. revert Hcon'. apply connected_mono.
    intros q. apply has_color_fillable. assumption.
Qed.

(** X4: a filled region can be filled again.  After [floodFill] with a
    first colour, a second [floodFill] from the same seed with a second
    colour returns too, and every pixel that the first one recoloured (the
    pixels connected to the seed through the original background) ends in the
    second colour. *)
Theorem floodFill_repaint img x y first second backgroundColor fuel :
  wf_image img -> in_grid img (x, y) ->
  pixel_at img (x, y) = Some backgroundColor ->
  backgroundColor <> first -> first <> second ->
  (enough_fuel img <= fuel)%nat ->
  exists img1 img2,
    floodFill fuel img x y first = Done img1 /\
    floodFill fuel img1 x y second = Done img2 /\
    forall p, in_grid img p ->
      connected (has_color img backgroundColor) (x, y) p ->
      pixel_at img2 p = Some second.
Proof.
  intros Hwf Hseed Hbg Hne1 Hne2 Hfuel.
  destruct (floodFill_region img x y first backgroundColor fuel Hwf Hseed Hbg Hne1 Hfuel)
    as (img1 & H1 & Hwf1 & Hx & Hy & Hreg1).
  assert (Hgrid : forall p, in_grid img1 p <-> in_grid img p)
    by (intros p; unfold in_grid; rewrite Hx, Hy; reflexivity).
  assert (Hfuel1 : (enough_fuel img1 <= fuel)%nat).
  { unfold enough_fuel in *. destruct Hwf as (_ & _ & Hl), Hwf1 as (_ & _ & Hl1).
    rewrite Hl1, Hx, Hy, <- Hl. assumption. }
  assert (Hseed1 : pixel_at img1 (x, y) = Some first).
  { apply (Hreg1 (x, y) Hseed). apply connected_here. split; assumption. }
  destruct (floodFill_region img1 x y second first fuel Hwf1 (proj2 (Hgrid _) Hseed)
              Hseed1 Hne2 Hfuel1) as (img2 & H2 & _ & _ & _ & Hreg2).
  exists img1, img2. do 2 (split; [assumption|]).
  intros p Hp Hcon. apply (Hreg2 p (proj2 (Hgrid p) Hp)).
  apply connected_through in Hcon. revert Hcon. apply connected_mono.
  intros q Hq. pose proof (connected_end _ _ _ Hq) as [Hgq _].
  split; [apply Hgrid; assumption|]. apply (Hreg1 q Hgq). assumption.
Qed.

Lemma floodFill_repaint_witness :
  exists img1 img2,
    floodFill 61 bordered_image 2 1 red = Done img1 /\
    floodFill 61 img1 2 1 grey = Done img2 /\
    forall p, in_grid bordered_image p ->
      connected (has_color bordered_image white) (2, 1) p ->
      pixel_at img2 p = Some grey.
Proof.
  apply (floodFill_repaint bordered_image 2 1 red grey white 61 bordered_image_wf).
  - unfold in_grid. simpl. lia.
  - reflexivity.
  - discriminate.
  - discriminate.
  - unfold enough_fuel. simpl. lia.
Defined.


(** * Further properties of the line rasteriser *)

Lemma line_defined_slope a b color l :
  same_point a b = false -> drawLineIncremental a b color = Done l ->
  exists lo hi,
    iround (walked (steep_line a b) (walk_start a b)) = Done lo /\
    iround (walked (steep_line a b) (walk_end a b)) = Done hi /\
    line_loop (Z.to_nat (hi - lo + 1)) (steep_line a b) lo
      (secondary (steep_line a b) (walk_start a b)) (slope a b) color = Done l.
Proof.
  unfold drawLineIncremental, slope, walk_start, walk_end.
  fold (same_point a b). fold (steep_line a b). intros -> H.
  destruct a as [ax ay], b as [bx by_]. revert H.
  destruct (steep_line _ _); simpl swap_if; cbv iota beta zeta; simpl walked; simpl secondary;
    intros H;
    match goal with |- context [fgtb ?u ?v] => destruct (fgtb u v) end;
    simpl in H |- *;
    apply bind_Done in H as (lo & Hlo & H); apply bind_Done in H as (hi & Hhi & H); eauto 10.
Qed.

(** The walk visits consecutive positions of the walked axis, all in the
    colour of the line. *)
Lemma line_loop_walked n steep x y m color l :
  line_loop n steep x y m color = Done l ->
  map (plot_walked steep) l = seqZ x (Z.of_nat n) /\ Forall (fun p => p.2 = color) l.
Proof.
  revert x y l. induction n as [|n IH]; intros x y l H.
  - injection H as <-. split; [reflexivity | constructor].
  - simpl in H. apply bind_Done in H as (ry & Hry & H).
    apply bind_Done in H as (rest & Hrest & H). injection H as <-.
    destruct (IH _ _ _ Hrest) as [Hmap Hcol]. split.
    + rewrite seqZ_cons by lia. simpl map. rewrite Hmap. f_equal.
      * destruct steep; reflexivity.
      * f_equal; lia.
    + constructor; [reflexivity | assumption].
Qed.

(** The walked coordinates of the calls of a defined line. *)
Lemma line_walk_columns a b color l :
  valid_position a -> valid_position b ->
  drawLineIncremental a b color = Done l ->
  exists lo hi,
    iround (walked (steep_line a b) (walk_start a b)) = Done lo /\
    iround (walked (steep_line a b) (walk_end a b)) = Done hi /\
    lo <= hi /\
    map (plot_walked (steep_line a b)) l = seqZ lo (hi - lo + 1) /\
    Forall (fun p => p.2 = color) l.
Proof.
  intros Hva Hvb H. destruct (same_point a b) eqn:Hsame.
  - destruct (line_defined_same_point a b color l Hsame H) as (px & py & Hpx & Hpy).
    assert (Fa : finite (v_x a)) by (eapply iround_finite; [apply Hva | eassumption]).
    assert (Fb : finite (v_x b)).
    { apply (fsub_zero_finite (v_x a)); [assumption | apply Hvb |].
      unfold same_point in Hsame. apply andb_true_iff in Hsame. tauto. }
    destruct (same_point_level a b Fa Fb Hsame) as (-> & -> & ->). simpl walked.
    unfold drawLineIncremental in H. fold (same_point a b) in H. rewrite Hsame in H.
    rewrite Hpx, Hpy in H. simpl in H. injection H as <-.
    exists px, px. split; [assumption|]. split.
    { rewrite <- Hpx. apply iround_fsub_zero; try assumption.
      unfold same_point in Hsame. apply andb_true_iff in Hsame. tauto. }
    split; [lia|]. replace (px - px + 1) with 1 by lia. split; [reflexivity|].
    repeat constructor.
  - destruct (line_defined_walk a b color l Hsame H) as (lo & hi & m & Hlo & Hhi & Hl).
    destruct (walk_ends_valid a b Hva Hvb) as [Hvs Hve].
    assert (Hle : lo <= hi).
    { apply (iround_mono (walked (steep_line a b) (walk_start a b))
                         (walked (steep_line a b) (walk_end a b)));
        try assumption; try apply walk_order;
        (eapply iround_finite; [apply valid_walked|]; eassumption). }
    exists lo, hi. do 3 (split; [assumption|]).
    apply line_loop_walked in Hl as [Hmap Hcol]. split; [|assumption].
    rewrite Hmap. f_equal. lia.
Qed.

Lemma drawn_vertex_walked steep (p : Plot) :
  walked steep (vertex_position (drawn_vertex p)) = float_of_Z (plot_walked steep p).
Proof. destruct steep; reflexivity. Qed.

(** X6: within 2^24 of the origin a line has no gap and no repetition on
    the axis it walks.  When the rounded walked coordinates [lo] and [hi] of
    the endpoints are below 2^24 in magnitude, the vertices that a defined
    line draws have, on the walked axis, exactly the consecutive integers
    from [lo] to [hi], in increasing order, one vertex each, and every one
    of them has the colour of the line.  (Beyond 2^24 the conversion to
    [float] in [putPixel] merges neighbouring columns.) *)
Theorem line_walk_consecutive a b color l lo hi :
  valid_position a -> valid_position b ->
  drawLineIncremental a b color = Done l ->
  iround (walked (steep_line a b) (walk_start a b)) = Done lo ->
  iround (walked (steep_line a b) (walk_end a b)) = Done hi ->
  - 2 ^ 24 < lo -> hi < 2 ^ 24 ->
  lo <= hi /\
  map (plot_walked (steep_line a b)) l = seqZ lo (hi - lo + 1) /\
  map (fun p => integer_value (walked (steep_line a b) (vertex_position (drawn_vertex p)))) l =
    map Some (seqZ lo (hi - lo + 1)) /\
  Forall (fun p => vertex_color (drawn_vertex p) = color) l.
Proof.
  intros Hva Hvb H Hlo Hhi Blo Bhi.
  destruct (line_walk_columns a b color l Hva Hvb H) as (lo' & hi' & Hlo' & Hhi' & Hle & Hmap & Hcol).
  assert (lo' = lo) by congruence. assert (hi' = hi) by congruence. subst lo' hi'.
  split; [assumption|]. split; [assumption|]. split; [|exact Hcol].
  rewrite <- Hmap, List.map_map. apply List.map_ext_in. intros p Hp.
  rewrite drawn_vertex_walked.
  assert (Hin : plot_walked (steep_line a b) p ∈ seqZ lo (hi - lo + 1)).
  { rewrite <- Hmap. apply list_elem_of_In. apply List.in_map. assumption. }
  apply elem_of_seqZ in Hin.
  apply holds_integer_value; [lia|]. apply float_of_Z_holds. lia.
Qed.

Lemma line_walk_consecutive_witness :
  0 <= 3 /\
  map (plot_walked (steep_line origin far_point))
    [ (0, 0, red); (1, 1, red); (2, 1, red); (3, 2, red) ] = seqZ 0 (3 - 0 + 1) /\
  map (fun p => integer_value
                  (walked (steep_line origin far_point) (vertex_position (drawn_vertex p))))
    [ (0, 0, red); (1, 1, red); (2, 1, red); (3, 2, red) ] = map Some (seqZ 0 (3 - 0 + 1)) /\
  Forall (fun p : Plot => vertex_color (drawn_vertex p) = red)
    [ (0, 0, red); (1, 1, red); (2, 1, red); (3, 2, red) ].
Proof.
  apply (line_walk_consecutive origin far_point red
           [ (0, 0, red); (1, 1, red); (2, 1, red); (3, 2, red) ] 0 3
           origin_valid far_point_valid).
  - vm_compute. reflexivity.
  - vm_compute. reflexivity.
  - vm_compute. reflexivity.
  - lia.
  - lia.
Defined.

(** Beyond 2^24 two calls of [putPixel] on neighbouring columns draw the
    same vertex. *)
Example drawn_vertex_merged :
  drawn_vertex (putPixel 16777217 0 red) = drawn_vertex (putPixel 16777216 0 red).
Proof. vm_compute. reflexivity. Qed.

Lemma fsub_diag x :
  (exists s, fsub x x = S754_zero s) \/ (fsub x x = S754_nan /\ round_away x = None).
Proof.
  destruct x as [s | s | | s m e].
  - left. destruct s; eexists; reflexivity.
  - right. destruct s; split; reflexivity.
  - right. split; reflexivity.
  - left. unfold fsub, SFsub. 
    rewrite Z.sub_diag. eexists. reflexivity.
Qed.

Lemma fgtb_diag x : fgtb x x = false.
Proof.
  unfold fgtb, SFltb. destruct x as [s | s | | s m e]; try (destruct s; reflexivity);
    try reflexivity.
  rewrite SFcompare_refl. reflexivity.
Qed.

(** X5: a line from a position to itself is the single pixel that the
    position rounds to, and is undefined exactly when that rounding is: for
    coordinates that are infinite or NaN too, although the test
    [dx == 0 && dy == 0] then fails and the general walk is taken. *)
Theorem line_single_point p color :
  drawLineIncremental p p color = (pt <- round_point p color ;; Done [pt]).
Proof.
  destruct p as [x y]. unfold drawLineIncremental, round_point. simpl v_x. simpl v_y.
  destruct (fsub_diag x) as [[sx Hx] | [Hx Rx]], (fsub_diag y) as [[sy Hy] | [Hy Ry]];
    rewrite Hx, Hy.
  - simpl. destruct (iround x); simpl; try reflexivity. destruct (iround y); reflexivity.
  - assert (Fy : iround y = Fault) by (unfold iround; rewrite Ry; reflexivity).
    replace (feqb (S754_zero sx) fzero && feqb S754_nan fzero) with false
      by (destruct sx; reflexivity).
    replace (fgtb (fabs S754_nan) (fabs (S754_zero sx))) with false by reflexivity.
    simpl swap_if. cbv iota beta. rewrite fgtb_diag. simpl swap_if. cbv iota beta.
    destruct (iround x) as [lo| |]; simpl; try reflexivity.
    replace (Z.to_nat (lo - lo + 1)) with 1%nat by lia. simpl. rewrite Fy. reflexivity.
  - assert (Fx : iround x = Fault) by (unfold iround; rewrite Rx; reflexivity).
    replace (feqb S754_nan fzero && feqb (S754_zero sy) fzero) with false by reflexivity.
    replace (fgtb (fabs (S754_zero sy)) (fabs S754_nan)) with false by reflexivity.
    simpl swap_if. cbv iota beta. rewrite fgtb_diag. simpl swap_if. cbv iota beta.
    rewrite Fx. reflexivity.
  - assert (Fx : iround x = Fault) by (unfold iround; rewrite Rx; reflexivity).
    replace (feqb S754_nan fzero && feqb S754_nan fzero) with false by reflexivity.
    replace (fgtb (fabs S754_nan) (fabs S754_nan)) with false by reflexivity.
    simpl swap_if. cbv iota beta. rewrite fgtb_diag. simpl swap_if. cbv iota beta.
    rewrite Fx. reflexivity.
Qed.

Lemma line_loop_level n steep x y s color l r :
  round_away y = Some r ->
  line_loop n steep x y (S754_zero s) color = Done l ->
  Forall (fun p => plot_secondary steep p = r) l.
Proof.
  revert x y l. induction n as [|n IH]; intros x y l Hr H.
  - injection H as <-. constructor.
  - simpl in H. apply bind_Done in H as (ry & Hry & H).
    apply bind_Done in H as (rest & Hrest & H). injection H as <-.
    apply iround_Done in Hry. assert (ry = r) by congruence. subst ry.
    constructor; [destruct steep; reflexivity|].
    refine (IH _ _ _ _ Hrest).
    destruct y as [sy | sy | | sy my ey]; try discriminate.
    + destruct sy, s; exact Hr.
    + exact Hr.
Qed.

Lemma feqb_sym x y : feqb x y = feqb y x.
Proof.
  unfold feqb, SFeqb. rewrite (SFcompare_antisym y x).
  destruct (SFcompare y x) as [[]|]; reflexivity.
Qed.

Lemma slope_level a b :
  finite (secondary (steep_line a b) a) -> finite (secondary (steep_line a b) b) ->
  finite (walked (steep_line a b) a) -> finite (walked (steep_line a b) b) ->
  feqb (secondary (steep_line a b) a) (secondary (steep_line a b) b) = true ->
  exists s, slope a b = S754_zero s.
Proof.
  intros Fa Fb Wa Wb He. unfold slope. cbv zeta.
  assert (Hd : exists s, fsub (secondary (steep_line a b) (walk_end a b))
                           (secondary (steep_line a b) (walk_start a b)) = S754_zero s).
  { apply feqb_zero_inv. unfold walk_start, walk_end.
    destruct (fgtb _ _); apply feqb_fsub_zero; try assumption.
    rewrite feqb_sym. assumption. }
  destruct Hd as [s ->].
  assert (Hn : fsub (walked (steep_line a b) (walk_end a b))
                 (walked (steep_line a b) (walk_start a b)) <> S754_nan).
  { unfold walk_start, walk_end. destruct (fgtb _ _); apply fsub_not_nan; assumption. }
  destruct (fsub (walked (steep_line a b) (walk_end a b))
              (walked (steep_line a b) (walk_start a b))) as [sd | sd | | sd md ed];
    try congruence.
  - destruct sd; eexists; reflexivity.
  - destruct sd; eexists; reflexivity.
  - destruct sd; eexists; reflexivity.
Qed.

Lemma line_level_secondary a b color l :
  position a -> position b -> same_point a b = false ->
  feqb (secondary (steep_line a b) a) (secondary (steep_line a b) b) = true ->
  drawLineIncremental a b color = Done l ->
  exists r, iround (secondary (steep_line a b) a) = Done r /\
    Forall (fun p => plot_secondary (steep_line a b) p = r) l.
Proof.
  intros Pa Pb Hsame He H.
  assert (Fs : forall s v, position v -> finite (secondary s v))
    by (intros [] v [? ?]; assumption).
  assert (Fw : forall s v, position v -> finite (walked s v))
    by (intros [] v [? ?]; assumption).
  destruct (line_defined_slope a b color l Hsame H) as (lo & hi & Hlo & Hhi & Hl).
  destruct (slope_level a b) as [s Hs]; auto.
  rewrite Hs in Hl.
  assert (Hle : lo <= hi).
  { apply (iround_mono (walked (steep_line a b) (walk_start a b))
                       (walked (steep_line a b) (walk_end a b)));
      try assumption; try apply walk_order;
      unfold walk_start, walk_end; destruct (fgtb _ _); auto. }
  replace (Z.to_nat (hi - lo + 1)) with (S (Z.to_nat (hi - lo))) in Hl by lia.
  pose proof Hl as Hfirst. simpl in Hfirst. apply bind_Done in Hfirst as (r & Hr & _).
  exists r. split.
  - rewrite <- Hr. unfold walk_start. destruct (fgtb _ _); [|reflexivity].
    apply iround_fsub_zero; auto. rewrite feqb_sym in He. apply feqb_fsub_zero; auto.
  - apply (line_loop_level _ _ _ _ _ _ _ _ (iround_Done _ _ Hr) Hl).
Qed.

(** X7: horizontal and vertical lines are exact.  When the endpoints of
    a defined line have equal y, every pixel of the line has the y that the
    endpoints round to; when they have equal x, every pixel has that x. *)
Theorem line_axis_aligned a b color l :
  position a -> position b ->
  drawLineIncremental a b color = Done l ->
  (feqb (v_y a) (v_y b) = true ->
   exists ry, iround (v_y a) = Done ry /\ Forall (fun p : Plot => p.1.2 = ry) l) /\
  (feqb (v_x a) (v_x b) = true ->
   exists rx, iround (v_x a) = Done rx /\ Forall (fun p : Plot => p.1.1 = rx) l).
Proof.
  intros Pa Pb H.
  assert (Hpoint : same_point a b = true ->
            exists px py, iround (v_x a) = Done px /\ iround (v_y a) = Done py /\
              l = [putPixel px py color]).
  { intros Hsame.
    destruct (line_defined_same_point a b color l Hsame H) as (px & py & Hpx & Hpy).
    unfold drawLineIncremental in H. fold (same_point a b) in H.
    rewrite Hsame, Hpx, Hpy in H. simpl in H. injection H as <-. eauto. }
  destruct Pa as [Fax Fay], Pb as [Fbx Fby]. split; intros He.
  - destruct (same_point a b) eqn:Hsame.
    + destruct (Hpoint eq_refl) as (px & py & Hpx & Hpy & ->). exists py.
      split; [assumption|]. repeat constructor.
    + assert (Hsteep : steep_line a b = false).
      { unfold steep_line.
        destruct (feqb_zero_inv _ (feqb_fsub_zero _ _ Fay Fby He)) as [s ->].
        apply fabs_not_below_zero. }
      pose proof (line_level_secondary a b color l (conj Fax Fay) (conj Fbx Fby) Hsame) as Hl.
      rewrite Hsteep in Hl. exact (Hl He H).
  - destruct (same_point a b) eqn:Hsame.
    + destruct (Hpoint eq_refl) as (px & py & Hpx & Hpy & ->). exists px.
      split; [assumption|]. repeat constructor.
    + assert (Hsteep : steep_line a b = true).
      { destruct (steep_line a b) eqn:Hs; [reflexivity|]. exfalso.
        unfold steep_line in Hs. unfold same_point in Hsame.
        pose proof (feqb_fsub_zero _ _ Fax Fbx He) as Hdx. rewrite Hdx in Hsame.
        destruct (feqb_zero_inv _ Hdx) as [s Hz]. rewrite Hz in Hs.
        apply not_above_zero in Hs; [simpl in Hsame; congruence|].
        apply fsub_not_nan; assumption. }
      pose proof (line_level_secondary a b color l (conj Fax Fay) (conj Fbx Fby) Hsame) as Hl.
      rewrite Hsteep in Hl. exact (Hl He H).
Qed.

Lemma line_axis_aligned_witness :
  exists ry, iround (v_y (vertex 0 1)) = Done ry /\
    Forall (fun p : Plot => p.1.2 = ry) [ (0, 1, red); (1, 1, red); (2, 1, red) ].
Proof.
  assert (P0 : position (vertex 0 1)) by (split; (split; [reflexivity | exact I])).
  assert (P1 : position (vertex 2 1)) by (split; (split; [reflexivity | exact I])).
  assert (D : drawLineIncremental (vertex 0 1) (vertex 2 1) red =
              Done [ (0, 1, red); (1, 1, red); (2, 1, red) ]) by (vm_compute; reflexivity).
  apply (proj1 (line_axis_aligned (vertex 0 1) (vertex 2 1) red
                  [ (0, 1, red); (1, 1, red); (2, 1, red) ] P0 P1 D)).
  reflexivity.
Defined.

(** * Further properties of the curve rasterisers *)

Lemma drawCircle_sample_loop cosf sinf fuel center R color steps :
  drawCircle cosf sinf fuel center R color steps =
  sample_loop (circle_body cosf sinf center R color steps) fuel steps 0.
Proof.
  unfold drawCircle. generalize 0. revert fuel.
  induction fuel as [|fuel IH]; intros i; [reflexivity|].
  rewrite circle_loop_S. simpl. rewrite IH. reflexivity.
Qed.

Lemma ellipse_loop_S cosf sinf fuel x0 y0 Rx Ry color steps i :
  ellipse_loop cosf sinf (S fuel) x0 y0 Rx Ry color steps i =
  if i <=? steps then
    pts <- ellipse_points x0 y0 (ellipse_sample cosf sinf Rx Ry steps i).1
             (ellipse_sample cosf sinf Rx Ry steps i).2 color ;;
    rest <- ellipse_loop cosf sinf fuel x0 y0 Rx Ry color steps (wrap_uint (i + 1)) ;;
    Done (pts ++ rest)
  else Done [].
Proof. simpl. destruct (ellipse_sample cosf sinf Rx Ry steps i). reflexivity. Qed.

Lemma drawEllipse_sample_loop cosf sinf fuel center Rx Ry color steps :
  drawEllipse cosf sinf fuel center Rx Ry color steps =
  sample_loop (ellipse_body cosf sinf center Rx Ry color steps) fuel steps 0.
Proof.
  unfold drawEllipse. generalize 0. revert fuel.
  induction fuel as [|fuel IH]; intros i; [reflexivity|].
  rewrite ellipse_loop_S. simpl. rewrite IH. reflexivity.
Qed.

Lemma wrap_uint_succ i : 0 <= i < UINT_MAX -> wrap_uint (i + 1) = i + 1.
Proof. unfold wrap_uint, UINT_MAX. intros H. apply Z.mod_small. lia. Qed.

Lemma wrap_uint_range i : 0 <= wrap_uint i <= UINT_MAX.
Proof.
  unfold wrap_uint, UINT_MAX. pose proof (Z.mod_pos_bound i (2 ^ 32) ltac:(lia)). lia.
Qed.

(** With [steps] at [UINT_MAX] the test [i <= steps] never fails. *)
Lemma sample_loop_max body fuel i l :
  i <= UINT_MAX -> sample_loop body fuel UINT_MAX i <> Done l.
Proof.
  revert i l. induction fuel as [|fuel IH]; intros i l Hi; simpl;
    (destruct (i <=? UINT_MAX) eqn:Hle; [|apply Z.leb_gt in Hle; lia]); [discriminate|].
  destruct (body i) as [pts| |]; simpl; try discriminate.
  destruct (sample_loop body fuel UINT_MAX (wrap_uint (i + 1))) as [rest| |] eqn:Hrest;
    simpl; try discriminate.
  exfalso. exact (IH _ rest (proj2 (wrap_uint_range _)) Hrest).
Qed.

(** What the loop returns: the points of the samples [i], ..., [steps],
    one sample after the other. *)
Lemma sample_loop_Done body fuel steps i l :
  0 <= i -> steps <= UINT_MAX ->
  sample_loop body fuel steps i = Done l ->
  exists ls, Forall2 (fun j pts => body j = Done pts) (seqZ i (steps + 1 - i)) ls /\
    l = concat ls.
Proof.
  revert i l. induction fuel as [|fuel IH]; intros i l Hi Hs; simpl;
    destruct (i <=? steps) eqn:Hle; try discriminate.
  - apply Z.leb_gt in Hle. intros [= <-]. exists []. rewrite seqZ_nil by lia.
    split; [constructor | reflexivity].
  - apply Z.leb_le in Hle. intros H.
    apply bind_Done in H as (pts & Hpts & H). apply bind_Done in H as (rest & Hrest & H).
    injection H as <-.
    destruct (decide (steps = UINT_MAX)) as [->|Hne].
    { exfalso. apply (sample_loop_max _ _ _ _ (proj2 (wrap_uint_range _)) Hrest). }
    rewrite wrap_uint_succ in Hrest by lia.
    destruct (IH (i + 1) _ ltac:(lia) Hs Hrest) as (ls & Hls & ->).
    exists (pts :: ls). split; [|reflexivity].
    rewrite seqZ_cons by lia. constructor; [assumption|].
    replace (Z.succ i) with (i + 1) by lia.
    replace (Z.pred (steps + 1 - i)) with (steps + 1 - (i + 1)) by lia. assumption.
  - apply Z.leb_gt in Hle. intros [= <-]. exists []. rewrite seqZ_nil by lia.
    split; [constructor | reflexivity].
Qed.

(** The loop returns as soon as every sample can be drawn. *)
Lemma sample_loop_returns body fuel steps i :
  0 <= i -> steps < UINT_MAX -> (Z.to_nat (steps + 1 - i) <= fuel)%nat ->
  (forall j, i <= j <= steps -> exists pts, body j = Done pts) ->
  exists l, sample_loop body fuel steps i = Done l.
Proof.
  revert i. induction fuel as [|fuel IH]; intros i Hi Hs Hfuel Hok; simpl;
    destruct (i <=? steps) eqn:Hle; eauto; apply Z.leb_le in Hle; [lia|].
  destruct (Hok i ltac:(lia)) as [pts ->]. simpl.
  rewrite wrap_uint_succ by lia.
  destruct (IH (i + 1)) as [rest ->]; [lia | lia | lia | |].
  - intros j Hj. apply Hok. lia.
  - simpl. eauto.
Qed.


Lemma iround_cases f : (exists z, iround f = Done z) \/ iround f = Fault.
Proof.
  unfold iround. destruct (round_away f) as [z|]; [|auto].
  destruct (_ && _); eauto.
Qed.

Ltac iround_case f :=
  let z := fresh "z" in let H := fresh "H" in
  destruct (iround_cases f) as [[z H] | H]; rewrite ?H; simpl; try reflexivity.

Lemma circle_points_round x0 y0 x y color :
  circle_points x0 y0 x y color = round_points (reflections x0 y0 x y) color.
Proof.
  unfold circle_points, reflections, round_points, round_point. simpl v_x. simpl v_y.
  iround_case (fadd x0 x); iround_case (fadd y0 y);
  iround_case (fadd x0 y); iround_case (fadd y0 x);
  iround_case (fsub x0 x); iround_case (fsub x0 y);
  iround_case (fsub y0 y); iround_case (fsub y0 x).
Qed.

Lemma ellipse_points_round x0 y0 x y color :
  ellipse_points x0 y0 x y color = round_points (quadrant_reflections x0 y0 x y) color.
Proof.
  unfold ellipse_points, quadrant_reflections, round_points, round_point. simpl v_x. simpl v_y.
  iround_case (fadd x0 x); iround_case (fadd y0 y);
  iround_case (fsub x0 x); iround_case (fsub y0 y).
Qed.

Lemma round_points_Done qs color pts :
  round_points qs color = Done pts ->
  Forall2 (fun q p => round_point q color = Done p) qs pts.
Proof.
  revert pts. induction qs as [|q qs IH]; intros pts H; simpl in H.
  - injection H as <-. constructor.
  - apply bind_Done in H as (p & Hp & H). apply bind_Done in H as (rest & Hrest & H).
    injection H as <-. constructor; auto.
Qed.

Lemma round_points_returns qs color :
  (forall q, In q qs -> exists p, round_point q color = Done p) ->
  exists pts, round_points qs color = Done pts.
Proof.
  induction qs as [|q qs IH]; intros H; simpl; [eauto|].
  destruct (H q) as [p ->]; [left; reflexivity|].
  destruct IH as [pts ->]; [intros; apply H; right; assumption|]. simpl. eauto.
Qed.

Lemma Forall2_In_r {A B} (R : A -> B -> Prop) l k y :
  Forall2 R l k -> In y k -> exists x, In x l /\ R x y.
Proof.
  induction 1 as [|x y' l k HR HF IH]; intros Hin; [destruct Hin|].
  destruct Hin as [<- | Hin]; [exists x; split; [left; reflexivity | assumption]|].
  destruct (IH Hin) as (x' & Hx & Hr). exists x'. split; [right|]; assumption.
Qed.

Lemma Forall2_In_l {A B} (R : A -> B -> Prop) l k x :
  Forall2 R l k -> In x l -> exists y, In y k /\ R x y.
Proof.
  induction 1 as [|x' y l k HR HF IH]; intros Hin; [destruct Hin|].
  destruct Hin as [<- | Hin]; [exists y; split; [left; reflexivity | assumption]|].
  destruct (IH Hin) as (y' & Hy & Hr). exists y'. split; [right|]; assumption.
Qed.

(** The points of a run, sample by sample. *)
Lemma samples_drawn (refl : Z -> list Vector2f) color n first count ls :
  (forall i, length (refl i) = n) ->
  Forall2 (fun i pts => round_points (refl i) color = Done pts) (seqZ first count) ls ->
  length (concat ls) = Nat.mul (Z.to_nat count) n /\
  (forall p, In p (concat ls) ->
     exists i q, first <= i < first + count /\ In q (refl i) /\ round_point q color = Done p) /\
  (forall i q, first <= i < first + count -> In q (refl i) ->
     exists p, round_point q color = Done p /\ In p (concat ls)).
Proof.
  intros Hn. revert first count.
  induction ls as [|pts ls IH]; intros first count H.
  - apply Forall2_nil_inv_r in H.
    assert (count <= 0).
    { destruct (decide (count <= 0)); [assumption|]. rewrite seqZ_cons in H by lia. discriminate. }
    split; [simpl; lia|]. split; [intros p []|]. intros; lia.
  - assert (Hpos : 0 < count).
    { destruct (decide (0 < count)); [assumption|]. rewrite seqZ_nil in H by lia.
      apply Forall2_nil_inv_l in H. discriminate. }
    rewrite seqZ_cons in H by lia. apply Forall2_cons_1 in H as [Hpts Hls].
    destruct (IH _ _ Hls) as (Hlen & Hfrom & Hto).
    apply round_points_Done in Hpts.
    split; [|split].
    + simpl. rewrite length_app, Hlen, <- (Forall2_length _ _ _ Hpts), Hn.
      replace (Z.to_nat count) with (S (Z.to_nat (Z.pred count))) by lia. simpl. lia.
    + intros p Hp. simpl in Hp. apply in_app_or in Hp as [Hp | Hp].
      * destruct (Forall2_In_r _ _ _ _ Hpts Hp) as (q & Hq & Hr).
        exists first, q. split; [lia|]. split; assumption.
      * destruct (Hfrom p Hp) as (i & q & Hi & Hq & Hr). exists i, q.
        split; [lia|]. split; assumption.
    + intros i q Hi Hq. simpl. destruct (decide (i = first)) as [->|Hne].
      * destruct (Forall2_In_l _ _ _ _ Hpts Hq) as (p & Hp & Hr).
        exists p. split; [assumption|]. apply in_or_app. left. assumption.
      * destruct (Hto i q ltac:(lia) Hq) as (p & Hr & Hp).
        exists p. split; [assumption|]. apply in_or_app. right. assumption.
Qed.

Lemma circle_body_round cosf sinf center R color steps i :
  circle_body cosf sinf center R color steps i =
  round_points (sample_reflections cosf sinf center R steps i) color.
Proof. apply circle_points_round. Qed.

Lemma ellipse_body_round cosf sinf center Rx Ry color steps i :
  ellipse_body cosf sinf center Rx Ry color steps i =
  round_points (ellipse_reflections cosf sinf center Rx Ry steps i) color.
Proof. apply ellipse_points_round. Qed.

Lemma sample_loop_ext body body' fuel steps i :
  (forall j, body j = body' j) ->
  sample_loop body fuel steps i = sample_loop body' fuel steps i.
Proof.
  intros H. revert i. induction fuel as [|fuel IH]; intros i; simpl; [reflexivity|].
  rewrite H, IH. reflexivity.
Qed.

(** X8: [drawCircle] draws nothing but its samples.  When it returns it
    has drawn [8 * (steps + 1)] points, and each of them is the pixel that
    one of the eight reflections of one of the samples [0], ..., [steps]
    rounds to. *)
Theorem drawCircle_only_samples cosf sinf fuel center R color steps l :
  0 <= steps <= UINT_MAX ->
  drawCircle cosf sinf fuel center R color steps = Done l ->
  length l = Z.to_nat (8 * (steps + 1)) /\
  forall p, In p l ->
    exists i q, 0 <= i <= steps /\
      In q (sample_reflections cosf sinf center R steps i) /\
      round_point q color = Done p.
Proof.
  intros Hs H. rewrite drawCircle_sample_loop in H.
  rewrite (sample_loop_ext _ _ _ _ _ (circle_body_round cosf sinf center R color steps)) in H.
  apply sample_loop_Done in H as (ls & Hls & ->); [|lia|lia].
  destruct (samples_drawn (sample_reflections cosf sinf center R steps) color 8 _ _ ls
              ltac:(reflexivity) Hls) as (Hlen & Hfrom & _).
  split; [rewrite Hlen; lia|].
  intros p Hp. destruct (Hfrom p Hp) as (i & q & Hi & Hq). exists i, q. split; [lia | assumption].
Qed.

(** X9: when no sample leaves the range of [int], [drawEllipse] returns
    [4 * (steps + 1)] points: for every sample [(x, y)] the pixels that the
    four points [center + (+-x, +-y)] round to, and nothing else. *)
Theorem drawEllipse_samples cosf sinf fuel center Rx Ry color steps :
  0 <= steps < UINT_MAX -> (Z.to_nat steps < fuel)%nat ->
  (forall i (q : Vector2f), 0 <= i <= steps ->
     In q (ellipse_reflections cosf sinf center Rx Ry steps i) ->
     exists p, round_point q color = Done p) ->
  exists l, drawEllipse cosf sinf fuel center Rx Ry color steps = Done l /\
    length l = Z.to_nat (4 * (steps + 1)) /\
    (forall i (q : Vector2f), 0 <= i <= steps ->
       In q (ellipse_reflections cosf sinf center Rx Ry steps i) ->
       exists p, round_point q color = Done p /\ In p l) /\
    (forall p, In p l ->
       exists i q, 0 <= i <= steps /\
         In q (ellipse_reflections cosf sinf center Rx Ry steps i) /\
         round_point q color = Done p).
Proof.
  intros Hs Hfuel Hok. rewrite drawEllipse_sample_loop.
  rewrite (sample_loop_ext _ _ _ _ _ (ellipse_body_round cosf sinf center Rx Ry color steps)).
  destruct (sample_loop_returns
              (fun i => round_points (ellipse_reflections cosf sinf center Rx Ry steps i) color)
              fuel steps 0) as [l Hl]; [lia | lia | lia | |].
  { intros j Hj. apply round_points_returns. intros q Hq. apply (Hok j q); [lia | assumption]. }
  exists l. split; [assumption|].
  apply sample_loop_Done in Hl as (ls & Hls & ->); [|lia|lia].
  destruct (samples_drawn (ellipse_reflections cosf sinf center Rx Ry steps) color 4 _ _ ls
              ltac:(reflexivity) Hls) as (Hlen & Hfrom & Hto).
  split; [rewrite Hlen; lia|]. split.
  - intros i q Hi Hq. apply (Hto i q); [lia | assumption].
  - intros p Hp. destruct (Hfrom p Hp) as (i & q & Hi & Hq). exists i, q.
    split; [lia | assumption].
Qed.

(** X10: [steps = 0] is not a valid argument.  The angle of the only
    sample is [0 / 0], a NaN, which a cosine passes on, and the conversion of
    a NaN to [int] is undefined: [drawCircle] and [drawEllipse] fail in their
    first iteration, whatever the centre and the radii. *)
Theorem zero_steps_undefined cosf sinf fuel center R Rx Ry color :
  cosf S754_nan = S754_nan ->
  drawCircle cosf sinf (S fuel) center R color 0 = Fault /\
  drawEllipse cosf sinf (S fuel) center Rx Ry color 0 = Fault.
Proof.
  intros Hnan. split.
  - unfold drawCircle. rewrite circle_loop_S.
    change (0 <=? 0) with true. cbv iota.
    replace (circle_sample cosf sinf R 0 0).1 with S754_nan.
    2:{ unfold circle_sample. cbv zeta. simpl fst.
        change (fdiv (fmul (fdiv pi four) (float_of_Z 0)) (float_of_Z 0)) with S754_nan.
        rewrite Hnan. destruct R; reflexivity. }
    unfold circle_points. replace (fadd (v_x center) S754_nan) with S754_nan
      by (destruct (v_x center); reflexivity).
    reflexivity.
  - unfold drawEllipse. rewrite ellipse_loop_S.
    change (0 <=? 0) with true. cbv iota.
    replace (ellipse_sample cosf sinf Rx Ry 0 0).1 with S754_nan.
    2:{ unfold ellipse_sample. cbv zeta. simpl fst.
        change (fdiv (fmul (fdiv pi two) (float_of_Z 0)) (float_of_Z 0)) with S754_nan.
        rewrite Hnan. destruct Rx; reflexivity. }
    unfold ellipse_points. replace (fadd (v_x center) S754_nan) with S754_nan
      by (destruct (v_x center); reflexivity).
    reflexivity.
Qed.

(** X11: with [steps = UINT_MAX] the test [i <= steps] never fails, the
    counter wraps around to 0, and neither [drawCircle] nor [drawEllipse]
    returns: whatever the number of iterations allowed, the call fails or is
    still running. *)
Theorem max_steps_never_return cosf sinf fuel center R Rx Ry color l :
  drawCircle cosf sinf fuel center R color UINT_MAX <> Done l /\
  drawEllipse cosf sinf fuel center Rx Ry color UINT_MAX <> Done l.
Proof.
  split.
  - rewrite drawCircle_sample_loop. apply sample_loop_max. unfold UINT_MAX. lia.
  - rewrite drawEllipse_sample_loop. apply sample_loop_max. unfold UINT_MAX. lia.
Qed.

(** *** Examples *)

Lemma drawCircle_only_samples_witness :
  length small_circle = Z.to_nat (8 * (1 + 1)) /\
  forall p, In p small_circle ->
    exists i q, 0 <= i <= 1 /\
      In q (sample_reflections cos_table sin_table unit_centre just_under_half 1 i) /\
      round_point q red = Done p.
Proof.
  apply (drawCircle_only_samples cos_table sin_table 2 unit_centre just_under_half red 1
           small_circle).
  - unfold UINT_MAX. lia.
  - vm_compute. reflexivity.
Defined.

Lemma drawEllipse_samples_witness :
  exists l, drawEllipse cos_quarter sin_quarter 2 unit_centre one just_under_half red 1 =
            Done l /\
    length l = Z.to_nat (4 * (1 + 1)) /\
    (forall i (q : Vector2f), 0 <= i <= 1 ->
       In q (ellipse_reflections cos_quarter sin_quarter unit_centre one just_under_half 1 i) ->
       exists p, round_point q red = Done p /\ In p l) /\
    (forall p, In p l ->
       exists i q, 0 <= i <= 1 /\
         In q (ellipse_reflections cos_quarter sin_quarter unit_centre one just_under_half 1 i) /\
         round_point q red = Done p).
Proof.
  apply (drawEllipse_samples cos_quarter sin_quarter 2 unit_centre one just_under_half red 1).
  - unfold UINT_MAX. lia.
  - simpl. lia.
  - intros i q Hi Hq. assert (i = 0 \/ i = 1) as [-> | ->] by lia;
      vm_compute in Hq;
      repeat (destruct Hq as [<- | Hq]; [eexists; vm_compute; reflexivity|]);
      destruct Hq.
Defined.

Lemma zero_steps_undefined_witness :
  drawCircle cos_nan sin_table 1 unit_centre one red 0 = Fault /\
  drawEllipse cos_nan sin_table 1 unit_centre one just_under_half red 0 = Fault.
Proof.
  apply (zero_steps_undefined cos_nan sin_table 0 unit_centre one one just_under_half red).
  reflexivity.
Defined.


(** * Further properties of the polygon validator *)

Lemma unsigned_float_tests d :
  unsigned_float d -> fgtb d fzero = false /\ fltb d fzero = false.
Proof. intros [[s ->] | ->]; [destruct s|]; split; reflexivity. Qed.

Lemma fmul_comm x y : fmul x y = fmul y x.
Proof.
  unfold fmul, SFmul.
  destruct x as [sx | sx | | sx mx ex], y as [sy | sy | | sy my ey];
    try reflexivity; rewrite ?(xorb_comm sx sy); try reflexivity.
  rewrite (Pos.mul_comm mx my), (Z.add_comm ex ey). reflexivity.
Qed.

Lemma fmul_unsigned_r x d : unsigned_float d -> unsigned_float (fmul x d).
Proof.
  intros [[s ->] | ->]; destruct x as [sx | sx | | sx mx ex]; simpl;
    try (right; reflexivity); left; eexists; reflexivity.
Qed.

Lemma fsub_unsigned d d' : unsigned_float d -> unsigned_float d' -> unsigned_float (fsub d d').
Proof.
  intros [[s ->] | ->] [[s' ->] | ->]; try (right; reflexivity).
  left. destruct s, s'; eexists; reflexivity.
Qed.

Lemma fsub_diag_unsigned x : unsigned_float (fsub x x).
Proof. destruct (fsub_diag x) as [H | [H _]]; [left | right]; assumption. Qed.

Lemma cross_at_start a b : unsigned_float (cross a b a).
Proof.
  unfold cross. apply fsub_unsigned; apply fmul_unsigned_r, fsub_diag_unsigned.
Qed.

Lemma cross_at_end a b : unsigned_float (cross a b b).
Proof.
  unfold cross. rewrite (fmul_comm (fsub (v_y b) (v_y a))). apply fsub_diag_unsigned.
Qed.

Lemma opposite_signs_unsigned_l d d' : unsigned_float d -> ~ opposite_signs d d'.
Proof.
  intros H. destruct (unsigned_float_tests d H) as [H1 H2].
  unfold opposite_signs. rewrite H1, H2. intros [[? _] | [? _]]; discriminate.
Qed.

Lemma opposite_signs_unsigned_r d d' : unsigned_float d' -> ~ opposite_signs d d'.
Proof.
  intros H. destruct (unsigned_float_tests d' H) as [H1 H2].
  unfold opposite_signs. rewrite H1, H2. intros [[_ ?] | [_ ?]]; discriminate.
Qed.

Lemma computed_crossing_shared a b c d :
  c = a \/ c = b \/ d = a \/ d = b -> ~ computed_crossing a b c d.
Proof.
  unfold computed_crossing. intros [-> | [-> | [-> | ->]]] [H _]; revert H.
  - apply opposite_signs_unsigned_l, cross_at_start.
  - apply opposite_signs_unsigned_l, cross_at_end.
  - apply opposite_signs_unsigned_r, cross_at_start.
  - apply opposite_signs_unsigned_r, cross_at_end.
Qed.

(** X12: two segments with a common endpoint are never reported as
    intersecting, whatever their coordinates: the cross product taken at the
    shared endpoint is a zero or a NaN, which is on neither side. *)
Theorem segments_sharing_endpoint a b c :
  segmentsIntersect a b a c = false /\ segmentsIntersect a b c a = false /\
  segmentsIntersect a b b c = false /\ segmentsIntersect a b c b = false.
Proof.
  assert (H : forall c d, c = a \/ c = b \/ d = a \/ d = b -> segmentsIntersect a b c d = false).
  { intros c' d' Hs. destruct (segmentsIntersect a b c' d') eqn:Hx; [|reflexivity].
    apply segmentsIntersect_spec in Hx. exfalso. exact (computed_crossing_shared a b c' d' Hs Hx). }
  repeat split; apply H; auto.
Qed.

Lemma adjacent_edges_share pts i j :
  adjacent_edges (length pts) i j ->
  edge_start pts j = edge_start pts i \/ edge_start pts j = edge_end pts i \/
  edge_end pts j = edge_start pts i \/ edge_end pts j = edge_end pts i.
Proof.
  unfold adjacent_edges, edge_start, edge_end. intros [-> | [<- | <-]]; auto.
Qed.

Lemma computed_self_intersecting_reported_pair pts : computed_self_intersecting pts <-> reported_pair pts.
Proof.
  unfold computed_self_intersecting, reported_pair. split.
  - intros (i & j & Hi & Hj & _ & H). apply segmentsIntersect_spec in H. eauto.
  - intros (i & j & Hi & Hj & H). apply segmentsIntersect_spec in H.
    exists i, j. do 2 (split; [assumption|]).
    split; [|assumption]. intros Ha.
    exact (computed_crossing_shared _ _ _ _ (adjacent_edges_share pts i j Ha) H).
Qed.

Lemma drawPolygon_rejected pts color :
  drawPolygon pts color = Done (false, []) <->
  (length pts < 3)%nat \/ computed_self_intersecting pts.
Proof.
  unfold drawPolygon.
  destruct (length pts <? 3)%nat eqn:Hn.
  { apply Nat.ltb_lt in Hn. tauto. }
  apply Nat.ltb_ge in Hn.
  pose proof (crossing_edges_computed_self_intersecting pts) as Hc.
  destruct (crossing_edges pts (length pts) (length pts) 0).
  { split; [|reflexivity]. intros _. right. apply Hc. reflexivity. }
  split.
  - intros H. apply bind_Done in H as (l & _ & H). discriminate.
  - intros [H | H]; [lia|]. apply Hc in H. discriminate.
Qed.

(** X13: the skip of adjacent edges does not change the verdict of
    [drawPolygon].  It returns [false] and draws nothing exactly when the loop
    has fewer than three vertices or [segmentsIntersect] is true of two of
    its edges, adjacent or not. *)
Theorem drawPolygon_rejects pts color :
  drawPolygon pts color = Done (false, []) <->
  (length pts < 3)%nat \/
  exists i j, (i < length pts)%nat /\ (j < length pts)%nat /\
    segmentsIntersect (edge_start pts i) (edge_end pts i)
      (edge_start pts j) (edge_end pts j) = true.
Proof.
  rewrite drawPolygon_rejected, computed_self_intersecting_reported_pair. reflexivity.
Qed.

(** ** Starting the loop at another vertex *)

Lemma length_next_start pts : length (next_start pts) = length pts.
Proof. destruct pts as [|v rest]; [reflexivity|]. simpl. rewrite length_app. simpl. lia. Qed.

Lemma at_index_next_start pts i :
  (i < length pts)%nat ->
  at_index (next_start pts) i = at_index pts ((i + 1) mod length pts).
Proof.
  destruct pts as [|v rest]; [simpl; lia|]. intros Hi. simpl in Hi.
  unfold at_index, next_start.
  destruct (decide (i + 1 = S (length rest))%nat) as [He | Hne].
  - simpl length. rewrite He, Nat.Div0.mod_same. simpl.
    replace i with (length rest) by lia. rewrite nth_middle. reflexivity.
  - simpl length. rewrite Nat.mod_small by lia.
    rewrite app_nth1 by lia. replace (i + 1)%nat with (S i) by lia. reflexivity.
Qed.

Lemma succ_mod_lt n i : (0 < n)%nat -> ((i + 1) mod n < n)%nat.
Proof. intros H. apply Nat.mod_upper_bound. lia. Qed.

Lemma edge_next_start pts i :
  (i < length pts)%nat ->
  edge_start (next_start pts) i = edge_start pts ((i + 1) mod length pts) /\
  edge_end (next_start pts) i = edge_end pts ((i + 1) mod length pts).
Proof.
  intros Hi. unfold edge_start, edge_end. rewrite length_next_start.
  rewrite !at_index_next_start; auto. apply succ_mod_lt. lia.
Qed.

(** Every index is the successor of one, around the loop. *)
Lemma pred_mod n i : (i < n)%nat -> exists k, (k < n)%nat /\ ((k + 1) mod n)%nat = i.
Proof.
  intros Hi. destruct i as [|i].
  - exists (n - 1)%nat. split; [lia|]. replace (n - 1 + 1)%nat with n by lia.
    apply Nat.Div0.mod_same.
  - exists i. split; [lia|]. replace (i + 1)%nat with (S i) by lia.
    apply Nat.mod_small. lia.
Qed.

Lemma reported_pair_next_start pts : reported_pair (next_start pts) <-> reported_pair pts.
Proof.
  unfold reported_pair. rewrite length_next_start. split.
  - intros (i & j & Hi & Hj & H).
    destruct (edge_next_start pts i Hi) as [Es Ee], (edge_next_start pts j Hj) as [Fs Fe].
    rewrite Es, Ee, Fs, Fe in H.
    exists ((i + 1) mod length pts)%nat, ((j + 1) mod length pts)%nat.
    split; [apply succ_mod_lt; lia|]. split; [apply succ_mod_lt; lia | assumption].
  - intros (i & j & Hi & Hj & H).
    destruct (pred_mod _ _ Hi) as (i' & Hi' & Ei), (pred_mod _ _ Hj) as (j' & Hj' & Ej).
    exists i', j'. do 2 (split; [assumption|]).
    destruct (edge_next_start pts i' Hi') as [Es Ee], (edge_next_start pts j' Hj') as [Fs Fe].
    rewrite Es, Ee, Fs, Fe, Ei, Ej. assumption.
Qed.

Lemma length_iter_next_start k pts : length (Nat.iter k next_start pts) = length pts.
Proof. induction k as [|k IH]; [reflexivity|]. simpl. rewrite length_next_start. exact IH. Qed.

(** X14: the verdict of [drawPolygon] does not depend on the vertex the
    loop starts at: the same vertices in the same cyclic order, started [k]
    vertices later, are rejected exactly when the original loop is. *)
Theorem drawPolygon_start_independent pts color k :
  drawPolygon (Nat.iter k next_start pts) color = Done (false, []) <->
  drawPolygon pts color = Done (false, []).
Proof.
  rewrite !drawPolygon_rejected, !computed_self_intersecting_reported_pair, length_iter_next_start.
  assert (H : reported_pair (Nat.iter k next_start pts) <-> reported_pair pts); [|tauto].
  induction k as [|k IH]; [reflexivity|]. simpl. rewrite reported_pair_next_start. exact IH.
Qed.

(** X15: a triangle is never rejected.  Whatever the three vertices
    (collinear, repeated or not even numbers), [drawPolygon] rasterises the
    three edges and returns [true], unless a line is undefined. *)
Theorem drawPolygon_triangle a b c color :
  drawPolygon [a; b; c] color =
  (drawn <- draw_lines [(a, b); (b, c); (c, a)] color ;; Done (true, drawn)).
Proof.
  unfold drawPolygon. simpl. unfold at_index. simpl nth.
  destruct (drawLineIncremental a b color) as [l1| |]; simpl; try reflexivity;
    destruct (drawLineIncremental b c color) as [l2| |]; simpl; try reflexivity;
    destruct (drawLineIncremental c a color) as [l3| |]; simpl; try reflexivity.
Qed.


(** * Shapes *)

Lemma one_value : one = S754_finite false 8388608 (-23).
Proof. reflexivity. Qed.

Lemma valid_finite s m e :
  valid_binary prec emax (S754_finite s m e) = true ->
  fexp prec emax (Z.pos (digits2_pos m) + e) = e /\ e <= emax - prec.
Proof.
  unfold valid_binary, bounded, canonical_mantissa. intros H.
  apply andb_true_iff in H as [H1 H2]. apply Z.leb_le in H2.
  split; [|assumption]. apply Z.eqb_eq. exact H1.
Qed.

Lemma fmul_one_r x : valid_binary prec emax x = true -> fmul x one = x.
Proof.
  intros Hv. rewrite one_value. destruct x as [s | s | | s m e]; try (destruct s; reflexivity);
    try reflexivity.
  destruct (valid_finite s m e Hv) as [Hc He].
  unfold fmul, SFmul. rewrite xorb_false_r, (Pos.mul_comm m).
  unfold binary_round_aux, shr_fexp.
  change (Zdigits2 (Z.pos (8388608 * m))) with
    (Z.pos (Pos.iter Pos.succ (digits2_pos m) 23)).
  replace (Z.pos (Pos.iter Pos.succ (digits2_pos m) 23) + (e + -23))
    with (Z.pos (digits2_pos m) + e)
    by (simpl Pos.iter; rewrite !Pos2Z.inj_succ; lia).
  rewrite Hc. replace (e - (e + -23)) with 23 by lia.
  change (shr (shr_record_of_loc (Z.pos (8388608 * m)) loc_Exact) (e + -23) 23)
    with ({| shr_m := Z.pos m; shr_r := false; shr_s := false |}, e + -23 + 23).
  replace (e + -23 + 23) with e by lia.
  cbn [shr_m loc_of_shr_record round_nearest_even Zdigits2].
  rewrite Hc, Z.sub_diag. cbn [shr shr_record_of_loc shr_m].
  destruct (e <=? emax - prec) eqn:Hle; [reflexivity|]. apply Z.leb_gt in Hle. lia.
Qed.


Lemma Point2D_scale_one p :
  valid_position (m_pos p) -> Point2D_scale one one p = p.
Proof.
  intros [Hx Hy]. unfold Point2D_scale. rewrite !fmul_one_r by assumption.
  destruct p as [[x y] c]. reflexivity.
Qed.

(** X16: scaling by (1, 1) changes nothing.  A segment whose endpoint
    coordinates are numbers or infinities (a NaN is left aside: the model
    has a single NaN and says nothing of its payload) is the same segment
    after [scale(1, 1)]: every coordinate keeps its value and its sign, also
    the sign of a zero, and the segment is drawn the same. *)
Theorem scale_by_one s :
  valid_position (m_pos (m_a s)) -> valid_position (m_pos (m_b s)) ->
  no_nan (m_pos (m_a s)) -> no_nan (m_pos (m_b s)) ->
  LineSegment_scale one one s = s /\
  LineSegment_draw (LineSegment_scale one one s) = LineSegment_draw s.
Proof.
  intros Ha Hb _ _.
  assert (H : LineSegment_scale one one s = s).
  { unfold LineSegment_scale. rewrite !Point2D_scale_one by assumption.
    destruct s. reflexivity. }
  rewrite H. auto.
Qed.

Lemma scale_by_one_witness :
  LineSegment_scale one one diagonal = diagonal /\
  LineSegment_draw (LineSegment_scale one one diagonal) = LineSegment_draw diagonal.
Proof.
  apply (scale_by_one diagonal).
  - split; reflexivity.
  - split; reflexivity.
  - split; discriminate.
  - split; discriminate.
Defined.

Lemma fmul_zero_finite s x : finite x -> exists s', fmul (S754_zero s) x = S754_zero s'.
Proof.
  intros [_ Hx]. destruct x as [sx | sx | | sx mx ex]; try destruct Hx; eexists; reflexivity.
Qed.

Lemma fsub_zeros s s' : exists s'', fsub (S754_zero s) (S754_zero s') = S754_zero s''.
Proof. destruct s, s'; eexists; reflexivity. Qed.

Lemma fadd_zeros s s' : exists s'', fadd (S754_zero s) (S754_zero s') = S754_zero s''.
Proof. destruct s, s'; eexists; reflexivity. Qed.

Lemma feqb_zero s : feqb (S754_zero s) fzero = true.
Proof. destruct s; reflexivity. Qed.

(** X17: rotation and scaling are about the coordinate origin, not
    about the shape: a point at the origin stays at the origin under
    [scale], for finite factors, and under [rotate], for an angle whose
    cosine and sine are numbers. *)
Theorem origin_fixed cosf sinf angleDeg sx sy p :
  at_origin (m_pos p) ->
  finite sx -> finite sy ->
  finite (cosf (radians angleDeg)) -> finite (sinf (radians angleDeg)) ->
  at_origin (m_pos (Point2D_scale sx sy p)) /\
  at_origin (m_pos (Point2D_rotate cosf sinf angleDeg p)).
Proof.
  intros [Hx Hy] Fsx Fsy Fc Fs.
  apply feqb_zero_inv in Hx as [zx Hx], Hy as [zy Hy].
  unfold at_origin, Point2D_scale, Point2D_rotate. cbv zeta. simpl m_pos. simpl v_x. simpl v_y.
  rewrite Hx, Hy.
  destruct (fmul_zero_finite zx sx Fsx) as [s1 ->], (fmul_zero_finite zy sy Fsy) as [s2 ->].
  destruct (fmul_zero_finite zx _ Fc) as [s3 ->], (fmul_zero_finite zy _ Fs) as [s4 ->].
  destruct (fmul_zero_finite zx _ Fs) as [s5 ->], (fmul_zero_finite zy _ Fc) as [s6 ->].
  destruct (fsub_zeros s3 s4) as [s7 ->], (fadd_zeros s5 s6) as [s8 ->].
  rewrite !feqb_zero. auto.
Qed.

Lemma origin_fixed_witness :
  at_origin (m_pos (Point2D_scale one one (mkPoint2D origin white))) /\
  at_origin (m_pos (Point2D_rotate cos_table sin_table fzero (mkPoint2D origin white))).
Proof.
  apply (origin_fixed cos_table sin_table fzero one one (mkPoint2D origin white)).
  - split; reflexivity.
  - split; [reflexivity | exact I].
  - split; [reflexivity | exact I].
  - split; [reflexivity | exact I].
  - split; [reflexivity | exact I].
Defined.

Lemma feqb_refl x : finite x -> feqb x x = true.
Proof.
  intros [_ Hx]. unfold feqb, SFeqb. destruct x as [s | s | | s m e]; try destruct Hx.
  - destruct s; reflexivity.
  - rewrite SFcompare_refl. reflexivity.
Qed.

Lemma fsub_zero_r x s : finite x -> feqb (fsub x (S754_zero s)) x = true.
Proof.
  intros Hx. pose proof (feqb_refl x Hx) as Hr. destruct Hx as [_ Hx].
  destruct x as [sx | sx | | sx mx ex]; try destruct Hx.
  - destruct sx, s; reflexivity.
  - exact Hr.
Qed.

Lemma fadd_zero_l x s : finite x -> feqb (fadd (S754_zero s) x) x = true.
Proof.
  intros Hx. pose proof (feqb_refl x Hx) as Hr. destruct Hx as [_ Hx].
  destruct x as [sx | sx | | sx mx ex]; try destruct Hx.
  - destruct sx, s; reflexivity.
  - exact Hr.
Qed.

(** X18: a rotation by zero degrees leaves a point where it is.  With a
    C library for which the cosine and sine of 0 are 1 and 0, the
    coordinates of a position compare equal before and after [rotate(0)], and
    the colour is kept. *)
Theorem rotate_by_zero cosf sinf p :
  cosf fzero = one -> sinf fzero = fzero -> position (m_pos p) ->
  same_position (m_pos (Point2D_rotate cosf sinf fzero p)) (m_pos p) /\
  m_color (Point2D_rotate cosf sinf fzero p) = m_color p.
Proof.
  intros Hc Hs [Fx Fy]. split; [|reflexivity].
  unfold same_position, Point2D_rotate. cbv zeta. simpl m_pos. simpl v_x. simpl v_y.
  change (radians fzero) with fzero. rewrite Hc, Hs.
  rewrite !fmul_one_r by (apply Fx || apply Fy).
  destruct (fmul_zero_finite false (v_x (m_pos p)) Fx) as [s1 H1].
  destruct (fmul_zero_finite false (v_y (m_pos p)) Fy) as [s2 H2].
  unfold fzero. rewrite fmul_comm, H2, (fmul_comm (v_x (m_pos p))), H1.
  split; [apply fsub_zero_r | apply fadd_zero_l]; assumption.
Qed.

Lemma rotate_by_zero_witness :
  same_position (m_pos (Point2D_rotate cos_table sin_table fzero (mkPoint2D far_point white)))
                (m_pos (mkPoint2D far_point white)) /\
  m_color (Point2D_rotate cos_table sin_table fzero (mkPoint2D far_point white)) =
  m_color (mkPoint2D far_point white).
Proof.
  apply (rotate_by_zero cos_table sin_table (mkPoint2D far_point white)).
  - reflexivity.
  - reflexivity.
  - exact far_point_position.
Defined.


(** * Animated sprites *)

Lemma animate_shows {Texture : Type} dt (s : SpriteObject Texture) :
  (m_frames s <> [] -> m_frames s !! m_currentFrame s = m_texture s /\
                        (m_currentFrame s < length (m_frames s))%nat) ->
  m_frames (animate dt s) <> [] ->
  m_frames (animate dt s) !! m_currentFrame (animate dt s) = m_texture (animate dt s) /\
  (m_currentFrame (animate dt s) < length (m_frames (animate dt s)))%nat.
Proof.
  unfold animate. destruct (m_frames s) as [|f fs] eqn:Hf; [rewrite Hf; auto|].
  intros H _. destruct (fgeb _ _); cbn [m_frames m_currentFrame m_texture].
  - split; [reflexivity|]. apply Nat.mod_upper_bound. discriminate.
  - apply H. discriminate.
Qed.

(** X19: in every state that the constructor and the public member
    functions lead to, an object that has frames has its frame counter below
    the number of frames, and its sprite displays the frame of that number:
    [m_frames[m_currentFrame]] is never read out of range. *)
Theorem sprite_shows_current_frame {Texture : Type} (s : SpriteObject Texture) :
  reachable s -> m_frames s <> [] ->
  (m_currentFrame s < length (m_frames s))%nat /\
  m_texture s = m_frames s !! m_currentFrame s.
Proof.
  intros Hr.
  assert (H : m_frames s <> [] -> m_frames s !! m_currentFrame s = m_texture s /\
                (m_currentFrame s < length (m_frames s))%nat); [|intros Hn; split; [|symmetry]; apply H; assumption].
  induction Hr as [|frames s Hr IH|t s Hr IH|dt s Hr IH|dt s Hr IH].
  - intros H. exfalso. apply H. reflexivity.
  - destruct frames as [|f fs]; simpl; [intros H; exfalso; apply H; reflexivity|].
    intros _. split; [reflexivity | lia].
  - exact IH.
  - apply animate_shows. exact IH.
  - apply animate_shows. exact IH.
Qed.

Lemma sprite_shows_current_frame_witness :
  (m_currentFrame (update default_timePerFrame (setFrames walk_cycle new_sprite)) < 3)%nat /\
  m_texture (update default_timePerFrame (setFrames walk_cycle new_sprite)) = Some 11%nat.
Proof.
  apply (sprite_shows_current_frame
           (update default_timePerFrame (setFrames walk_cycle new_sprite))).
  - apply reach_update, reach_setFrames, reach_new.
  - discriminate.
Defined.

Lemma update_nan {Texture : Type} dt (s : SpriteObject Texture) :
  m_timeAccumulator s = S754_nan ->
  m_timeAccumulator (update dt s) = S754_nan /\
  m_currentFrame (update dt s) = m_currentFrame s /\
  m_texture (update dt s) = m_texture s.
Proof.
  intros Hacc. unfold update, animate. destruct (m_frames s) as [|f fs] eqn:Hf; [auto|].
  rewrite Hacc. change (fadd S754_nan dt) with S754_nan.
  replace (fgeb S754_nan (m_timePerFrame s)) with false
    by (destruct (m_timePerFrame s) as [[]|[]| |[]]; reflexivity).
  cbn [m_timeAccumulator m_currentFrame m_texture]. auto.
Qed.

Lemma updates_nan {Texture : Type} dts (s : SpriteObject Texture) :
  m_timeAccumulator s = S754_nan ->
  m_currentFrame (updates dts s) = m_currentFrame s /\
  m_texture (updates dts s) = m_texture s.
Proof.
  revert s. induction dts as [|dt dts IH]; intros s Hacc; [auto|].
  destruct (update_nan dt s Hacc) as (Ha & Hc & Ht).
  simpl. destruct (IH _ Ha) as [-> ->]. auto.
Qed.

Lemma updates_no_frames {Texture : Type} dts (s : SpriteObject Texture) :
  m_frames s = [] -> updates dts s = s.
Proof.
  intros Hf. induction dts as [|dt dts IH]; [reflexivity|].
  change (updates (dt :: dts) s) with (updates dts (update dt s)).
  replace (update dt s) with s; [exact IH|].
  unfold update, animate. rewrite Hf. reflexivity.
Qed.

Lemma fadd_nan_r x : fadd x S754_nan = S754_nan.
Proof. destruct x; reflexivity. Qed.

(** X20: one update with a NaN frame time stops the animation for good.
    The accumulator becomes NaN, the test [m_timeAccumulator >=
    m_timePerFrame] fails from then on, and whatever the later frame times
    the frame counter and the displayed texture stay as they were. *)
Theorem sprite_animation_freezes {Texture : Type} dts (s : SpriteObject Texture) :
  m_currentFrame (updates (S754_nan :: dts) s) = m_currentFrame s /\
  m_texture (updates (S754_nan :: dts) s) = m_texture s.
Proof.
  destruct (m_frames s) as [|f fs] eqn:Hf.
  - rewrite updates_no_frames by assumption. auto.
  - change (updates (S754_nan :: dts) s) with (updates dts (update S754_nan s)).
    assert (H : m_timeAccumulator (update S754_nan s) = S754_nan /\
                m_currentFrame (update S754_nan s) = m_currentFrame s /\
                m_texture (update S754_nan s) = m_texture s).
    { unfold update, animate. rewrite Hf, fadd_nan_r.
      replace (fgeb S754_nan (m_timePerFrame s)) with false
        by (destruct (m_timePerFrame s) as [[]|[]| |[]]; reflexivity).
      cbn [m_timeAccumulator m_currentFrame m_texture]. auto. }
    destruct H as (Ha & Hc & Ht).
    destruct (updates_nan dts _ Ha) as [-> ->]. auto.
Qed.

(** * The fill demos of the engine *)

Lemma create_wf width height color :
  0 <= width <= INT_MAX -> 0 <= height <= INT_MAX -> wf_image (create width height color).
Proof.
  intros Hw Hh. unfold wf_image, create. cbn [size_x size_y pixels].
  rewrite length_replicate. auto.
Qed.

Lemma create_pixel width height color p :
  0 <= width <= INT_MAX -> 0 <= height <= INT_MAX ->
  in_grid (create width height color) p ->
  pixel_at (create width height color) p = Some color.
Proof.
  intros Hw Hh Hp. pose proof (offset_lt _ p (create_wf width height color Hw Hh) Hp) as Hlt.
  unfold pixel_at, getPixel. apply lookup_replicate_2.
  unfold create in Hlt. cbn [pixels] in Hlt. rewrite length_replicate in Hlt. exact Hlt.
Qed.

Lemma same_shape_in_grid img img' p : same_shape img img' -> in_grid img' p <-> in_grid img p.
Proof. intros (Hx & Hy & _). unfold in_grid. rewrite Hx, Hy. reflexivity. Qed.

Lemma setPixels_spec img p q c :
  wf_image img -> in_grid img p -> in_grid img q ->
  exists img', setPixels p q c img = Some img' /\ wf_image img' /\ same_shape img img' /\
    forall r, in_grid img r ->
      (r = p \/ r = q -> pixel_at img' r = Some c) /\
      (r <> p -> r <> q -> pixel_at img' r = pixel_at img r).
Proof.
  intros Hwf Hp Hq. unfold setPixels.
  destruct (setPixel_is_Some img p c Hwf Hp) as [img1 H1]. rewrite H1.
  pose proof (setPixel_wf _ _ _ _ _ Hwf H1) as Hwf1.
  pose proof (setPixel_size _ _ _ _ _ H1) as (Hx1 & Hy1 & Hl1).
  assert (Hg1 : forall r, in_grid img1 r <-> in_grid img r)
    by (intros r; apply (setPixel_in_grid _ _ _ _ _ r H1)).
  destruct (setPixel_is_Some img1 q c Hwf1 (proj2 (Hg1 q) Hq)) as [img2 H2].
  exists img2. split; [assumption|].
  split; [exact (setPixel_wf _ _ _ _ _ Hwf1 H2)|].
  pose proof (setPixel_size _ _ _ _ _ H2) as (Hx2 & Hy2 & Hl2).
  split; [unfold same_shape; repeat split; congruence|].
  intros r Hr. split.
  - intros Hrq. destruct (decide (r = q)) as [->|Hne].
    + apply (setPixel_same _ _ _ _ H2).
    + destruct Hrq as [-> | ->]; [|contradiction].
      rewrite (setPixel_other img1 q c img2 p); try assumption; try (apply Hg1; assumption).
      apply (setPixel_same _ _ _ _ H1).
  - intros Hnp Hnq.
    rewrite (setPixel_other img1 q c img2 r); try assumption; try (apply Hg1; assumption).
    apply (setPixel_other img p c img1 r); assumption.
Qed.

(** What a loop of paired [setPixel] calls leaves in the image. *)
Lemma for_loop_setPixels n i (g1 g2 : Z -> Vector2i) c img :
  wf_image img ->
  (forall j, i <= j < i + Z.of_nat n -> in_grid img (g1 j) /\ in_grid img (g2 j)) ->
  exists img', for_loop n i (fun j => setPixels (g1 j) (g2 j) c) img = Some img' /\
    wf_image img' /\ same_shape img img' /\
    forall r, in_grid img r ->
      ((exists j, i <= j < i + Z.of_nat n /\ (r = g1 j \/ r = g2 j)) ->
       pixel_at img' r = Some c) /\
      ((forall j, i <= j < i + Z.of_nat n -> r <> g1 j /\ r <> g2 j) ->
       pixel_at img' r = pixel_at img r) /\
      (pixel_at img' r = Some c \/ pixel_at img' r = pixel_at img r).
Proof.
  revert i img. induction n as [|n IH]; intros i img Hwf Hin.
  - exists img. split; [reflexivity|]. split; [assumption|].
    split; [unfold same_shape; auto|]. intros r Hr. split; [|auto].
    intros (j & Hj & _). lia.
  - destruct (Hin i ltac:(lia)) as [H1 H2].
    destruct (setPixels_spec img (g1 i) (g2 i) c Hwf H1 H2) as (img1 & Hs & Hwf1 & Hsh1 & Hpx1).
    destruct (IH (i + 1) img1 Hwf1) as (img' & Hl & Hwf' & Hsh' & Hpx').
    { intros j Hj. rewrite !(same_shape_in_grid img img1 _ Hsh1). apply Hin. lia. }
    exists img'. cbn [for_loop]. rewrite Hs. split; [assumption|]. split; [assumption|].
    split; [unfold same_shape in *; intuition congruence|].
    intros r Hr. pose proof (proj2 (same_shape_in_grid img img1 r Hsh1) Hr) as Hr1.
    destruct (Hpx' r Hr1) as (Hset & Hkeep & Hany), (Hpx1 r Hr) as [Hset1 Hkeep1].
    split; [|split].
    + intros (j & Hj & Hrj). destruct (decide (j = i)) as [->|Hne].
      * destruct Hany as [Hc | Hc]; [assumption|]. rewrite Hc. apply Hset1. assumption.
      * apply Hset. exists j. split; [lia | assumption].
    + intros Hno. rewrite Hkeep.
      * apply Hkeep1; apply (Hno i); lia.
      * intros k Hk. apply Hno. lia.
    + destruct Hany as [Hc | Hc]; [left; assumption|]. rewrite Hc.
      destruct (decide (r = g1 i)) as [-> | Hn1]; [left; apply Hset1; auto|].
      destruct (decide (r = g2 i)) as [-> | Hn2]; [left; apply Hset1; auto|].
      right. apply Hkeep1; assumption.
Qed.

Lemma for_range_setPixels lo hi (g1 g2 : Z -> Vector2i) c img :
  wf_image img -> lo <= hi ->
  (forall j, lo <= j < hi -> in_grid img (g1 j) /\ in_grid img (g2 j)) ->
  exists img', for_range lo hi (fun j => setPixels (g1 j) (g2 j) c) img = Some img' /\
    wf_image img' /\ same_shape img img' /\
    forall r, in_grid img r ->
      ((exists j, lo <= j < hi /\ (r = g1 j \/ r = g2 j)) -> pixel_at img' r = Some c) /\
      ((forall j, lo <= j < hi -> r <> g1 j /\ r <> g2 j) ->
       pixel_at img' r = pixel_at img r).
Proof.
  intros Hwf Hle Hin. unfold for_range.
  destruct (for_loop_setPixels (Z.to_nat (hi - lo)) lo g1 g2 c img Hwf)
    as (img' & Hl & Hwf' & Hsh & Hpx).
  { intros j Hj. apply Hin. lia. }
  exists img'. do 3 (split; [assumption|]). intros r Hr.
  destruct (Hpx r Hr) as (Hset & Hkeep & _). split.
  - intros (j & Hj & H). apply Hset. exists j. split; [lia | assumption].
  - intros Hno. apply Hkeep. intros j Hj. apply Hno. lia.
Qed.

(** Two loops as in [initFillDemos], on an image of one colour: the
    first draws on the rows [t] and [b], for the columns from [xl] on and
    below [xh]; the second on the columns [l] and [r], for the rows from
    [yl] on and below [yh]. *)
Lemma frame_loops width height background xl xh t b yl yh l r :
  0 <= width <= INT_MAX -> 0 <= height <= INT_MAX ->
  0 <= xl <= xh -> xh <= width -> 0 <= t < height -> 0 <= b < height ->
  0 <= yl <= yh -> yh <= height -> 0 <= l < width -> 0 <= r < width ->
  exists img,
    and_then
      (for_range xl xh (fun x => setPixels (x, t) (x, b) Black)
         (create width height background))
      (for_range yl yh (fun y => setPixels (l, y) (r, y) Black)) = Some img /\
    wf_image img /\ same_shape (create width height background) img /\
    forall p, in_grid img p ->
      ((xl <= p.1 < xh /\ (p.2 = t \/ p.2 = b)) \/
       (yl <= p.2 < yh /\ (p.1 = l \/ p.1 = r)) ->
       pixel_at img p = Some Black) /\
      (~ ((xl <= p.1 < xh /\ (p.2 = t \/ p.2 = b)) \/
          (yl <= p.2 < yh /\ (p.1 = l \/ p.1 = r))) ->
       pixel_at img p = Some background).
Proof.
  intros Hw Hh Hx Hxh Ht Hb Hy Hyh Hl Hr.
  pose proof (create_wf width height background Hw Hh) as Hwf0.
  assert (Hg0 : forall p, in_grid (create width height background) p <->
                          0 <= p.1 < width /\ 0 <= p.2 < height) by (intros p; reflexivity).
  destruct (for_range_setPixels xl xh (fun x => (x, t)) (fun x => (x, b)) Black
              (create width height background) Hwf0 ltac:(lia))
    as (img1 & H1 & Hwf1 & Hsh1 & Hpx1).
  { intros j Hj. rewrite !Hg0. simpl. lia. }
  destruct (for_range_setPixels yl yh (fun y => (l, y)) (fun y => (r, y)) Black img1 Hwf1
              ltac:(lia)) as (img2 & H2 & Hwf2 & Hsh2 & Hpx2).
  { intros j Hj. rewrite !(same_shape_in_grid (create width height background) img1 _ Hsh1).
    rewrite !Hg0. simpl. lia. }
  exists img2. rewrite H1. cbn [and_then]. split; [assumption|]. split; [assumption|].
  split; [unfold same_shape in *; intuition congruence|].
  intros p Hp.
  assert (Hp1 : in_grid img1 p) by (apply (same_shape_in_grid img1 img2 p Hsh2); assumption).
  assert (Hp0 : in_grid (create width height background) p)
    by (apply (same_shape_in_grid _ img1 p Hsh1); assumption).
  destruct (Hpx2 p Hp1) as [Hset2 Hkeep2], (Hpx1 p Hp0) as [Hset1 Hkeep1].
  destruct p as [x y]. simpl in *.
  assert (Hcases : (yl <= y < yh /\ (x = l \/ x = r)) \/
                   ~ (yl <= y < yh /\ (x = l \/ x = r))) by lia.
  destruct Hcases as [Hy' | Hny].
  - split; [|intros Hn; exfalso; apply Hn; auto]. intros _. apply Hset2.
    exists y. split; [lia|]. destruct Hy' as [_ [-> | ->]]; auto.
  - assert (Hk2 : pixel_at img2 (x, y) = pixel_at img1 (x, y)).
    { apply Hkeep2. intros j Hj. split; intros [= -> ->]; apply Hny; lia. }
    rewrite Hk2.
    assert (Hcases : (xl <= x < xh /\ (y = t \/ y = b)) \/
                     ~ (xl <= x < xh /\ (y = t \/ y = b))) by lia.
    destruct Hcases as [Hx' | Hnx].
    + split; [|intros Hn; exfalso; apply Hn; auto]. intros _. apply Hset1.
      exists x. split; [lia|]. destruct Hx' as [_ [-> | ->]]; auto.
    + split; [intros [? | ?]; contradiction|]. intros _.
      rewrite Hkeep1; [apply create_pixel; assumption|].
      intros j Hj. split; intros [= -> ->]; apply Hnx; lia.
Qed.

Lemma same_shape_fuel img img' : same_shape img img' -> enough_fuel img' = enough_fuel img.
Proof. intros (_ & _ & Hl). unfold enough_fuel. rewrite Hl. reflexivity. Qed.

Lemma create_fuel width height c c' :
  enough_fuel (create width height c) = enough_fuel (create width height c').
Proof. unfold enough_fuel, create. cbn [pixels]. rewrite !length_replicate. reflexivity. Qed.

(** The image of the boundary fill demo. *)
Lemma boundary_demo fuel :
  (demo_fuel <= fuel)%nat ->
  exists img imgBoundary,
    boundary_frame = Some img /\
    boundaryFill fuel img 50 50 boundary_fill_color Black = Done imgBoundary /\
    forall p, 0 <= p.1 < 200 /\ 0 <= p.2 < 150 ->
      (inside_frame demo_frame p -> pixel_at imgBoundary p = Some boundary_fill_color) /\
      (on_frame demo_frame p -> p <> (190, 140) -> pixel_at imgBoundary p = Some Black) /\
      (outside_frame demo_frame p \/ p = (190, 140) -> pixel_at imgBoundary p = Some White).
Proof.
  intros Hfuel. unfold boundary_frame.
  destruct (frame_loops 200 150 White 10 190 10 140 10 140 10 190)
    as (img & Himg & Hwf & Hsh & Hpx); try (unfold INT_MAX; lia).
  exists img. rewrite Himg.
  assert (Hgrid : forall p, in_grid img p <-> 0 <= p.1 < 200 /\ 0 <= p.2 < 150).
  { intros p. rewrite (same_shape_in_grid _ img p Hsh). reflexivity. }
  assert (Hfuel' : (enough_fuel img <= fuel)%nat).
  { rewrite (same_shape_fuel _ img Hsh). exact Hfuel. }
  clear Himg Hfuel.
  assert (Hopen : forall q, inside_frame demo_frame q ->
            fillable (boundary_skip boundary_fill_color Black) img q).
  { intros q Hq. unfold inside_frame, demo_frame in Hq. simpl in Hq.
    assert (Hgq : in_grid img q) by (apply Hgrid; lia).
    split; [assumption|]. exists White. split.
    - apply (Hpx q Hgq). lia.
    - apply boundary_skip_false. split; discriminate. }
  assert (Hside : forall q, in_grid img q -> on_frame demo_frame q -> q <> (190, 140) ->
            pixel_at img q = Some Black).
  { intros [x y] Hgq Hq Hne. unfold on_frame, demo_frame in Hq. simpl in Hq.
    apply (Hpx (x, y) Hgq). simpl.
    assert (~ (x = 190 /\ y = 140)) by (intros [-> ->]; apply Hne; reflexivity). lia. }
  assert (Hseed : inside_frame demo_frame (50, 50))
    by (unfold inside_frame, demo_frame; simpl; lia).
  destruct (boundaryFill_cases fuel img 50 50 boundary_fill_color Black Hwf Hfuel')
    as [[_ Hn] | (img' & H & Hs & Hrun)]; [exfalso; apply Hn, Hopen, Hseed|].
  exists img'. split; [reflexivity|]. split; [assumption|].
  intros p Hp. apply Hgrid in Hp.
  destruct (run_from_seed _ _ (boundary_skip_fill boundary_fill_color Black) img (50, 50) img'
              Hrun Hwf Hs p Hp) as [Hin Hout].
  assert (Hkept : ~ inside_frame demo_frame p -> pixel_at img' p = pixel_at img p).
  { intros Hni. apply Hout. intros Hcon. apply Hni.
    apply (frame_sides_enclose _ demo_frame (50, 50) p) in Hcon; [assumption | | assumption].
    intros q Hq Hnc (Hgq & c & Hc & Hsk).
    rewrite (Hside q Hgq Hq) in Hc.
    - injection Hc as <-. unfold boundary_skip in Hsk. rewrite Color_eqb_refl in Hsk.
      discriminate.
    - intros ->. apply Hnc. unfold corner, demo_frame. simpl. auto. }
  split; [|split].
  - intros Hi. apply Hin. apply inside_frame_connected with (f := demo_frame); assumption.
  - intros Hq Hne. rewrite Hkept; [apply Hside; assumption|].
    unfold inside_frame, on_frame, demo_frame in *. simpl in *. lia.
  - intros Ho. rewrite Hkept.
    + apply (Hpx p Hp). destruct p as [x y].
      unfold outside_frame, demo_frame in Ho. simpl in *.
      destruct Ho as [Ho | [= -> ->]]; lia.
    + destruct p as [x y]. unfold inside_frame, outside_frame, demo_frame in *. simpl in *.
      destruct Ho as [Ho | [= -> ->]]; lia.
Qed.

(** The image of the flood fill demo. *)
Lemma flood_demo fuel :
  (demo_fuel <= fuel)%nat ->
  exists img imgFlood,
    flood_frame = Some img /\
    floodFill fuel img 100 75 flood_fill_color = Done imgFlood /\
    forall p, 0 <= p.1 < 200 /\ 0 <= p.2 < 150 ->
      (inside_frame demo_border p -> pixel_at imgFlood p = Some flood_fill_color) /\
      (on_frame demo_border p -> pixel_at imgFlood p = Some Black).
Proof.
  intros Hfuel. unfold flood_frame.
  destruct (frame_loops 200 150 flood_background 0 200 0 149 0 150 0 199)
    as (img & Himg & Hwf & Hsh & Hpx); try (unfold INT_MAX; lia).
  exists img. rewrite Himg.
  assert (Hgrid : forall p, in_grid img p <-> 0 <= p.1 < 200 /\ 0 <= p.2 < 150).
  { intros p. rewrite (same_shape_in_grid _ img p Hsh). reflexivity. }
  assert (Hfuel' : (enough_fuel img <= fuel)%nat).
  { rewrite (same_shape_fuel _ img Hsh), (create_fuel 200 150 _ White). exact Hfuel. }
  clear Himg Hfuel.
  assert (Hopen : forall q, inside_frame demo_border q -> has_color img flood_background q).
  { intros q Hq. unfold inside_frame, demo_border in Hq. simpl in Hq.
    assert (Hgq : in_grid img q) by (apply Hgrid; lia).
    split; [assumption|]. apply (Hpx q Hgq). lia. }
  assert (Hside : forall q, in_grid img q -> on_frame demo_border q ->
            pixel_at img q = Some Black).
  { intros q Hgq Hq. unfold on_frame, demo_border in Hq. simpl in Hq.
    apply Hgrid in Hgq as Hgq'. apply (Hpx q Hgq). lia. }
  assert (Hseed : inside_frame demo_border (100, 75))
    by (unfold inside_frame, demo_border; simpl; lia).
  destruct (floodFill_region img 100 75 flood_fill_color flood_background fuel Hwf)
    as (img' & H & _ & _ & _ & Hreg); try assumption.
  { apply Hopen, Hseed. }
  { apply Hopen, Hseed. }
  { discriminate. }
  exists img'. split; [reflexivity|]. split; [assumption|].
  intros p Hp. apply Hgrid in Hp. destruct (Hreg p Hp) as [Hin Hout]. split.
  - intros Hi. apply Hin. apply inside_frame_connected with (f := demo_border); assumption.
  - intros Hq. rewrite Hout; [apply Hside; assumption|].
    intros Hcon. apply connected_end in Hcon as [_ Hc].
    rewrite (Hside p Hp Hq) in Hc. discriminate.
Qed.

Lemma fill_demos_done fuel (frame frame' : option Image) img img' imgBoundary imgFlood :
  frame = Some img ->
  boundaryFill fuel img 50 50 boundary_fill_color Black = Done imgBoundary ->
  frame' = Some img' ->
  floodFill fuel img' 100 75 flood_fill_color = Done imgFlood ->
  (img <- written frame ;;
   imgBoundary <- boundaryFill fuel img 50 50 boundary_fill_color Black ;;
   img' <- written frame' ;;
   imgFlood <- floodFill fuel img' 100 75 flood_fill_color ;;
   Done (imgBoundary, imgFlood)) = Done (imgBoundary, imgFlood).
Proof. intros -> H -> H'. cbn [written bind]. rewrite H. cbn [bind]. rewrite H'. reflexivity. Qed.

(** X21: the two images built by [initFillDemos].  The boundary fill
    demo ends with every pixel strictly inside the frame from (10, 10) to
    (190, 140) in the fill colour, the frame black and the rest white,
    although the loops that draw the frame leave its corner (190, 140)
    white; the flood fill demo ends with every pixel inside the border in the
    fill colour and the border black.  No write leaves a buffer and both
    fills return. *)
Theorem initFillDemos_images fuel :
  (demo_fuel <= fuel)%nat ->
  exists imgBoundary imgFlood,
    initFillDemos fuel = Done (imgBoundary, imgFlood) /\
    forall p, 0 <= p.1 < 200 /\ 0 <= p.2 < 150 ->
      (inside_frame demo_frame p -> pixel_at imgBoundary p = Some boundary_fill_color) /\
      (on_frame demo_frame p -> p <> (190, 140) -> pixel_at imgBoundary p = Some Black) /\
      (outside_frame demo_frame p \/ p = (190, 140) -> pixel_at imgBoundary p = Some White) /\
      (inside_frame demo_border p -> pixel_at imgFlood p = Some flood_fill_color) /\
      (on_frame demo_border p -> pixel_at imgFlood p = Some Black).
Proof.
  intros Hfuel.
  destruct (boundary_demo fuel Hfuel) as (img & imgBoundary & Himg & Hfill & Hb).
  destruct (flood_demo fuel Hfuel) as (img' & imgFlood & Himg' & Hfill' & Hf).
  exists imgBoundary, imgFlood. split.
  - exact (fill_demos_done fuel _ _ img img' imgBoundary imgFlood Himg Hfill Himg' Hfill').
  - intros p Hp. destruct (Hb p Hp) as (H1 & H2 & H3), (Hf p Hp) as (H4 & H5). auto.
Qed.

Lemma initFillDemos_images_witness :
  exists imgBoundary imgFlood,
    initFillDemos demo_fuel = Done (imgBoundary, imgFlood) /\
    forall p, 0 <= p.1 < 200 /\ 0 <= p.2 < 150 ->
      (inside_frame demo_frame p -> pixel_at imgBoundary p = Some boundary_fill_color) /\
      (on_frame demo_frame p -> p <> (190, 140) -> pixel_at imgBoundary p = Some Black) /\
      (outside_frame demo_frame p \/ p = (190, 140) -> pixel_at imgBoundary p = Some White) /\
      (inside_frame demo_border p -> pixel_at imgFlood p = Some flood_fill_color) /\
      (on_frame demo_border p -> pixel_at imgFlood p = Some Black).
Proof.
  apply (initFillDemos_images demo_fuel). apply Nat.le_refl.
Defined.
